(** * AI assistance routes ([server/routes/ai.js]): model and verification

    The file embeds the JavaScript module [server/routes/ai.js]: the
    heuristic response extractors, the four prompt templates and the six
    request handlers, and proves the properties its specification states.

    How the module is modelled:
    - JavaScript strings are sequences of UTF-16 code units, here [list N]
      with one number per code unit; [lit] turns an ASCII literal of the
      source into such a list.
    - The regular expressions of the module are run by a backtracking
      matcher for the fragment of ECMAScript they use.
    - A handler is a state-passing program over a [World]: the three
      collections as finite maps from identifiers to documents, a clock,
      and the trace of the reads, completion calls and writes made so
      far. A computation returns or throws; [try_catch] is the
      [try]/[catch] around each handler.
    - The completion service and the credential of the process
      environment are the fields of an [Env].
    - The values of a request body are strings, arrays of strings or
      [undefined] ([None]); identifiers are numbers, compared as the
      strings of the source are; the reads and writes of the collections
      themselves do not fail.
    - The statistics of a user are Numbers, that is doubles, and a
      template literal converts them to strings as [Number::toString] of
      ECMAScript does. *)

From Stdlib Require Import QArith Qround Qpower Lqa.
From stdpp Require Import base option list strings numbers gmap sorting pretty.

Local Open Scope N_scope.

(** ** Strings *)

Module JsString.

Abbreviation jsstring := (list N).

(** A literal of the source, given as an ASCII string. *)
Definition lit (s : string) : jsstring :=
  Ascii.N_of_ascii <$> String.list_ascii_of_string s.

(** The double quote, U+0022. *)
Definition dquote : jsstring := [34].

Fixpoint startsWith (s p : jsstring) : bool :=
  match p, s with
  | [], _ => true
  | _ :: _, [] => false
  | a :: p', b :: s' => (a =? b) && startsWith s' p'
  end.

(** [String.prototype.includes]: some suffix of [s] starts with [p]. *)
Fixpoint includes (s p : jsstring) : bool :=
  startsWith s p ||
  match s with
  | [] => false
  | _ :: s' => includes s' p
  end.

(** [s.split(sep)] for a separator of one code unit. The result is never
    empty: the empty string splits into one empty piece. *)
Fixpoint split (sep : N) (s : jsstring) : list jsstring :=
  match s with
  | [] => [[]]
  | c :: s' =>
      if c =? sep then [] :: split sep s'
      else match split sep s' with
           | l :: ls => (c :: l) :: ls
           | [] => [[c]]
           end
  end.

(** [arr.join(sep)] on an array of strings. *)
Fixpoint join (sep : jsstring) (l : list jsstring) : jsstring :=
  match l with
  | [] => []
  | [x] => x
  | x :: l' => x ++ sep ++ join sep l'
  end.

(** ECMAScript WhiteSpace and LineTerminator code units, the ones
    [String.prototype.trim] removes. *)
Definition isWhiteSpace (c : N) : bool :=
  (c =? 9) || (c =? 10) || (c =? 11) || (c =? 12) || (c =? 13) ||
  (c =? 32) || (c =? 160) || (c =? 5760) ||
  ((8192 <=? c) && (c <=? 8202)) ||
  (c =? 8232) || (c =? 8233) || (c =? 8239) || (c =? 8287) ||
  (c =? 12288) || (c =? 65279).

Fixpoint trimStart (s : jsstring) : jsstring :=
  match s with
  | [] => []
  | c :: s' => if isWhiteSpace c then trimStart s' else s
  end.

Definition trimEnd (s : jsstring) : jsstring :=
  reverse (trimStart (reverse s)).

Definition trim (s : jsstring) : jsstring := trimEnd (trimStart s).

(** [s.slice(0, n)] on an array, for [n] no less than 0. *)
Definition slice0 {A} (n : nat) (l : list A) : list A := take n l.

End JsString.
Export JsString.

(** ** Line-keyword extractors *)

(** The body of the [for (const line of lines)] loops: a matching line is
    pushed, trimmed, at the end of the array built so far. *)
Definition pushIf (cond : jsstring → bool) (acc : list jsstring)
    (line : jsstring) : list jsstring :=
  if cond line then acc ++ [trim line] else acc.

Definition suggestionLine (line : jsstring) : bool :=
  includes line (lit "suggestion") || includes line (lit "improve")
  || includes line (lit "consider").

Definition extractSuggestions (content : jsstring) : list jsstring :=
  let suggestions := [] in
  let lines := split 10 content in
  let suggestions := foldl (pushIf suggestionLine) suggestions lines in
  slice0 5 suggestions.

Definition approachLine (line : jsstring) : bool :=
  includes line (lit "approach") || includes line (lit "strategy")
  || includes line (lit "method").

Definition extractApproach (content : jsstring) : list jsstring :=
  let approaches := [] in
  let lines := split 10 content in
  let approaches := foldl (pushIf approachLine) approaches lines in
  slice0 3 approaches.

Definition fixLine (line : jsstring) : bool :=
  includes line (lit "fix") || includes line (lit "change")
  || includes line (lit "replace").

Definition extractFixes (content : jsstring) : list jsstring :=
  let fixes := [] in
  let lines := split 10 content in
  let fixes := foldl (pushIf fixLine) fixes lines in
  slice0 5 fixes.

(** ** Regular expressions

    The regular expressions of the module are sequences of atoms: one
    character of a class, possibly under a quantifier, or an alternation of
    literal words. [match_here] is the backtracking matcher of ECMAScript
    for this fragment, in continuation-passing style: the continuation of an
    atom is the matcher of the rest of the pattern, and a quantifier tries
    its choices in priority order (lazy: fewest repetitions first; greedy:
    most first). A successful match returns the number of code units it
    consumed. *)

Module Regex.

Definition cclass := N → bool.

Inductive atom :=
| One (c : cclass)
| LazyStar (c : cclass)
| Star (c : cclass)
| Plus (c : cclass)
| Opt (c : cclass)
| Alt (alts : list (list cclass)).

Record regex := { anchored : bool; atoms : list atom }.

(** A literal character. *)
Definition chr (c : N) : cclass := λ x, x =? c.

(** An ASCII letter under the [i] flag, given in lower case. Without the
    [u] flag a code unit above 127 never canonicalizes to one below 128,
    so the letter matches its two ASCII forms and nothing else. *)
Definition ci (c : N) : cclass := λ x, (x =? c) || (x =? c - 32).

(** [[^c]] *)
Definition notc (c : N) : cclass := λ x, negb (x =? c).

(** [\d] *)
Definition digit : cclass := λ x, (48 <=? x) && (x <=? 57).

(** [\s] *)
Definition space : cclass := isWhiteSpace.

Definition isLineTerminator (c : N) : bool :=
  (c =? 10) || (c =? 13) || (c =? 8232) || (c =? 8233).

(** [.] without the [s] flag. *)
Definition dot : cclass := λ x, negb (isLineTerminator x).

(** A word under the [i] flag, letter by letter. *)
Definition word_ci (w : string) : list cclass := ci <$> lit w.

Definition Continuation := jsstring → option nat.

Fixpoint lazy_star (c : cclass) (k : Continuation) (s : jsstring)
    : option nat :=
  match k s with
  | Some n => Some n
  | None =>
      match s with
      | x :: s' => if c x then S <$> lazy_star c k s' else None
      | [] => None
      end
  end.

Fixpoint greedy_star (c : cclass) (k : Continuation) (s : jsstring)
    : option nat :=
  match s with
  | x :: s' =>
      if c x then
        match greedy_star c k s' with
        | Some n => Some (S n)
        | None => k s
        end
      else k s
  | [] => k s
  end.

Fixpoint seq_here (cs : list cclass) (k : Continuation) (s : jsstring)
    : option nat :=
  match cs with
  | [] => k s
  | c :: cs' =>
      match s with
      | x :: s' => if c x then S <$> seq_here cs' k s' else None
      | [] => None
      end
  end.

Fixpoint alt_here (alts : list (list cclass)) (k : Continuation)
    (s : jsstring) : option nat :=
  match alts with
  | [] => None
  | a :: rest =>
      match seq_here a k s with
      | Some n => Some n
      | None => alt_here rest k s
      end
  end.

Fixpoint match_here (r : list atom) (s : jsstring) : option nat :=
  match r with
  | [] => Some 0%nat
  | One c :: r' => seq_here [c] (match_here r') s
  | LazyStar c :: r' => lazy_star c (match_here r') s
  | Star c :: r' => greedy_star c (match_here r') s
  | Plus c :: r' => seq_here [c] (greedy_star c (match_here r')) s
  | Opt c :: r' =>
      match seq_here [c] (match_here r') s with
      | Some n => Some n
      | None => match_here r' s
      end
  | Alt alts :: r' => alt_here alts (match_here r') s
  end.

(** The leftmost position at which the pattern matches, with the length
    of the match there. *)
Fixpoint search (r : list atom) (s : jsstring) : option (nat * nat) :=
  match match_here r s with
  | Some n => Some (0%nat, n)
  | None =>
      match s with
      | [] => None
      | _ :: s' => prod_map S id <$> search r s'
      end
  end.

(** [RegExp.prototype.exec] without the [g] flag. A pattern that starts
    with [^] (and has no [m] flag) matches at position 0 or nowhere. *)
Definition exec (r : regex) (s : jsstring) : option (nat * nat) :=
  if anchored r then (λ n, (0%nat, n)) <$> match_here (atoms r) s
  else search (atoms r) s.

(** [s.match(r)] for [r] without the [g] flag: [None] is [null],
    [Some m] is an array whose element 0 is [m]. *)
Definition match_ (s : jsstring) (r : regex) : option jsstring :=
  '(i, n) ← exec r s; Some (take n (drop i s)).

(** [s.replace(r, '')] for an unanchored [r] with the [g] flag: the
    matches are found left to right, each search starting where the
    previous match ended (one code unit further after an empty match),
    and the code units outside the matches are kept. [skip] counts the
    code units of the current match still to be dropped. *)
Fixpoint remove_go (r : list atom) (skip : nat) (s : jsstring) : jsstring :=
  match s with
  | [] => []
  | x :: s' =>
      match skip with
      | S k => remove_go r k s'
      | O =>
          match match_here r s with
          | Some (S n) => remove_go r n s'
          | _ => x :: remove_go r 0 s'
          end
      end
  end.

Definition removeAll (r : regex) (s : jsstring) : jsstring :=
  remove_go (atoms r) 0 s.

End Regex.
Import Regex.

(** ** Regular-expression extractors *)

(** [/time.*?O\([^)]+\)/i] *)
Definition timeRe : regex :=
  {| anchored := false;
     atoms := (One <$> word_ci "time") ++
              [LazyStar dot; One (ci 111); One (chr 40); Plus (notc 41);
               One (chr 41)] |}.

(** [/space.*?O\([^)]+\)/i] *)
Definition spaceRe : regex :=
  {| anchored := false;
     atoms := (One <$> word_ci "space") ++
              [LazyStar dot; One (ci 111); One (chr 40); Plus (notc 41);
               One (chr 41)] |}.

(** The object [complexity]: a key that was never assigned is absent. *)
Record Complexity := { time : option jsstring; space_ : option jsstring }.

Definition extractComplexity (content : jsstring) : Complexity :=
  let complexity := {| time := None; space_ := None |} in
  if includes content (lit "O(") then
    let timeMatch := match_ content timeRe in
    let spaceMatch := match_ content spaceRe in
    let complexity :=
      match timeMatch with
      | Some m => {| time := Some m; space_ := space_ complexity |}
      | None => complexity
      end in
    let complexity :=
      match spaceMatch with
      | Some m => {| time := time complexity; space_ := Some m |}
      | None => complexity
      end in
    complexity
  else complexity.

(** [/^\d+\./] *)
Definition numberedRe : regex :=
  {| anchored := true; atoms := [Plus digit; One (chr 46)] |}.

Definition phaseLine (line : jsstring) : bool :=
  bool_decide (is_Some (match_ line numberedRe))
  || includes line (lit "Phase") || includes line (lit "Week").

Definition extractRoadmapPhases (content : jsstring) : list jsstring :=
  let phases := [] in
  let lines := split 10 content in
  let phases := foldl (pushIf phaseLine) phases lines in
  slice0 10 phases.

(** [/(\d+)\s*(week|month|day)s?/i] *)
Definition durationRe : regex :=
  {| anchored := false;
     atoms := [Plus digit; Star space;
               Alt [word_ci "week"; word_ci "month"; word_ci "day"];
               Opt (ci 115)] |}.

Definition extractDuration (content : jsstring) : jsstring :=
  let durationMatch := match_ content durationRe in
  match durationMatch with
  | Some m => m
  | None => lit "Variable"
  end.

(** [/<[^>]*>/g] *)
Definition tagRe : regex :=
  {| anchored := false; atoms := [One (chr 60); Star (notc 62); One (chr 62)] |}.

(** [description.replace(/<[^>]*>/g, '')] *)
Definition stripTags (description : jsstring) : jsstring :=
  removeAll tagRe description.

(** ** Numbers

    A Number of JavaScript is a double: not-a-number, an infinity, or a
    finite value [±m × 2^e]. The doubles are the finite values with
    [m < 2^53] and [-1074 ≤ e ≤ 971]; a value has more than one such form
    ([3 × 2^1] and [6 × 2^0]), and what follows depends on the value
    only. *)
Inductive Number :=
| NaN
| Infinity (negative : bool)
| Finite (negative : bool) (m : N) (e : Z).

(** [Number::toString] of ECMAScript, radix 10, which a template literal
    applies to a number it interpolates. *)
Module NumberToString.

(** The value of [m × 2^e]. *)
Definition real (m : N) (e : Z) : Q := (inject_Z (Z.of_N m) * 2 ^ e)%Q.

(** The exponent of the unit in the last place of [m × 2^e]: 53 binary
    digits, and no unit below [2^-1074]. *)
Definition ulp (m : N) (e : Z) : Z :=
  Z.max (Z.log2 (Z.of_N m) + e - 52) (-1074).

Definition Qltb (a b : Q) : bool := negb (Qle_bool b a).

(** The Number value for [v] is [m × 2^e]: [v] is nearer to it than to
    the doubles on either side, a tie going to the double whose
    significand is even. The double below a power of two is half as far
    away as the one above. *)
Definition roundsTo (m : N) (e : Z) (v : Q) : bool :=
  let x := real m e in
  let E := ulp m e in
  let above := (2 ^ (E - 1))%Q in
  let below :=
    if (m =? 2 ^ N.log2 m) && (-1074 <? E)%Z then (2 ^ (E - 2))%Q
    else above in
  if Z.even (Qfloor (x / 2 ^ E)) then
    Qle_bool (x - below) v && Qle_bool v (x + above)
  else
    Qltb (x - below) v && Qltb v (x + above).

(** The least [n'] from [n] on with [x < 10^n']. *)
Fixpoint magnitude (fuel : nat) (n : Z) (x : Q) : Z :=
  match fuel with
  | O => n
  | S fuel =>
      if Qle_bool (10 ^ n) x then magnitude fuel (n + 1)%Z x else n
  end.

(** The integers [n], [k] and [s] of the standard: [s] has [k] digits,
    [s × 10^(n-k)] has the Number value [m × 2^e], and [k] is as small as
    possible; of two such [s] the one nearer to the value is taken. With
    [k] digits the candidates are the two multiples of [10^(n-k)] around
    the value; 17 digits always do. *)
Fixpoint shortest (fuel : nat) (m : N) (e : Z) (n k : Z) : Z * Z * Z :=
  let x := real m e in
  let place := (10 ^ (n - k))%Q in
  let lo := Qfloor (x / place) in
  let hi := (lo + 1)%Z in
  let up := if (hi =? 10 ^ k)%Z then ((n + 1)%Z, k, (10 ^ (k - 1))%Z)
            else (n, k, hi) in
  match fuel with
  | O => (n, k, lo)
  | S fuel =>
      match roundsTo m e (inject_Z lo * place),
            roundsTo m e (inject_Z hi * place) with
      | true, false => (n, k, lo)
      | false, true => up
      | true, true =>
          match (x - inject_Z lo * place ?= inject_Z hi * place - x)%Q with
          | Lt => (n, k, lo)
          | Gt => up
          | Eq => if Z.even lo then (n, k, lo) else up
          end
      | false, false => shortest fuel m e n (k + 1)%Z
      end
  end.

Definition digits (s : Z) : jsstring := lit (pretty (Z.to_N s)).

Definition zeros (n : Z) : jsstring := replicate (Z.to_nat n) 48.

(** The digits of [s] laid out for [n] and [k]: an integer, a decimal
    fraction, or the exponent form outside [10^-7 .. 10^21]. *)
Definition layout (n k s : Z) : jsstring :=
  let ds := digits s in
  if (k <=? n)%Z && (n <=? 21)%Z then ds ++ zeros (n - k)
  else if (0 <? n)%Z && (n <=? 21)%Z then
    take (Z.to_nat n) ds ++ lit "." ++ drop (Z.to_nat n) ds
  else if (-6 <? n)%Z && (n <=? 0)%Z then lit "0." ++ zeros (- n) ++ ds
  else
    let exponent :=
      lit "e" ++ (if (0 <? n - 1)%Z then lit "+" else lit "-")
        ++ digits (Z.abs (n - 1)) in
    if (k =? 1)%Z then ds ++ exponent
    else take 1 ds ++ lit "." ++ drop 1 ds ++ exponent.

End NumberToString.

(** [`${x}`] for a number. *)
Definition Number_toString (x : Number) : jsstring :=
  match x with
  | NaN => lit "NaN"
  | Infinity negative => (if negative then lit "-" else []) ++ lit "Infinity"
  | Finite _ 0 _ => lit "0"
  | Finite negative m e =>
      (if negative then lit "-" else []) ++
      let x := NumberToString.real m e in
      let n := NumberToString.magnitude 640
                 (if Qle_bool 1 x then 1 else -323) x in
      let '(n, k, s) := NumberToString.shortest 17 m e n 1 in
      NumberToString.layout n k s
  end.

(** ** Data model *)

(** Identifiers of documents (MongoDB ObjectIds). *)
Abbreviation ObjectId := N.

(** Modelled from the spec: the Problem model ([../models/Problem]) is not
    part of this module; a problem has the three fields the prompts read. *)
Record Problem := {
  title : jsstring;
  description : jsstring;
  difficulty : jsstring
}.

(** Modelled from the spec: the User model ([../models/User]) is not part
    of this module; the roadmap prompt reads the solved count and the
    rating of the profile's statistics, two numbers. *)
Record Stats := { totalSolved : Number; rating : Number }.
Record User := { stats : Stats }.

(** The [context] bag of an interaction; a field the handler did not set,
    or set to [undefined], is [None]. *)
Record Context := {
  ctx_problem : option ObjectId;
  ctx_code : option jsstring;
  ctx_language : option jsstring;
  ctx_error : option jsstring;
  ctx_userLevel : option jsstring;
  ctx_goals : option (list jsstring)
}.

Definition emptyContext : Context :=
  {| ctx_problem := None; ctx_code := None; ctx_language := None;
     ctx_error := None; ctx_userLevel := None; ctx_goals := None |}.

Record Feedback := {
  helpful : option bool;
  fb_rating : option N;
  comment : option jsstring
}.

(** Modelled from the spec: the AIInteraction model
    ([../models/AIInteraction]) is not part of this module; its fields are
    the ones the handlers write, with the creation timestamp the history
    is sorted by. *)
Record AIInteraction := {
  user : ObjectId;
  type : jsstring;
  context : Context;
  query : jsstring;
  response : jsstring;
  tokens_used : N;
  response_time : N;
  feedback : option Feedback;
  createdAt : N
}.

Definition setFeedback (f : Feedback) (i : AIInteraction) : AIInteraction :=
  {| user := user i; type := type i; context := context i; query := query i;
     response := response i; tokens_used := tokens_used i;
     response_time := response_time i; feedback := Some f;
     createdAt := createdAt i |}.

(** ** The completion service and the process environment *)

Record Usage := { total_tokens : option N }.

(** The [data] of a successful reply of the completion service:
    [choices] holds the [message.content] of each choice. *)
Record ApiData := { choices : list jsstring; usage : option Usage }.

(** What the module reads from outside: the credential of the process
    environment and the remote service, which answers a prompt with data
    or fails, after some time. *)
Record Env := {
  OPENAI_API_KEY : option jsstring;
  axios_post : jsstring → option ApiData;
  latency : jsstring → N
}.

(** [!x] for a string or [undefined]. *)
Definition falsy (x : option jsstring) : bool :=
  match x with
  | None | Some [] => true
  | Some (_ :: _) => false
  end.

(** [`${x}`] for a string or [undefined]. *)
Definition str (x : option jsstring) : jsstring :=
  default (lit "undefined") x.

(** ** The store and the effects of a handler *)

Inductive Event :=
| ProblemFindById (id : option ObjectId)
| UserFindById (id : ObjectId)
| InteractionFindById (id : ObjectId)
| InteractionFind (owner : ObjectId) (ty : option jsstring)
| InteractionCount (owner : ObjectId) (ty : option jsstring)
| CompletionCall (prompt : jsstring)
| InteractionSave (id : ObjectId).

Record World := {
  problems : gmap N Problem;
  users : gmap N User;
  interactions : gmap N AIInteraction;
  now : N;
  trace : list Event
}.

Definition log (e : Event) (w : World) : World :=
  {| problems := problems w; users := users w;
     interactions := interactions w; now := now w;
     trace := trace w ++ [e] |}.

Definition tick (d : N) (w : World) : World :=
  {| problems := problems w; users := users w;
     interactions := interactions w; now := now w + d;
     trace := trace w |}.

Definition store (id : ObjectId) (i : AIInteraction) (w : World) : World :=
  {| problems := problems w; users := users w;
     interactions := <[id := i]> (interactions w); now := now w;
     trace := trace w |}.

(** A computation returns a value or throws, and changes the world. *)
Inductive Outcome (A : Type) :=
| Return (a : A)
| Throw (e : jsstring).
Arguments Return {A} a.
Arguments Throw {A} e.

Definition M (A : Type) : Type := World → Outcome A * World.

#[global] Instance M_ret : MRet M := λ A a w, (Return a, w).

#[global] Instance M_bind : MBind M := λ A B f m w,
  match m w with
  | (Return a, w') => f a w'
  | (Throw e, w') => (Throw e, w')
  end.

Definition throw {A} (e : jsstring) : M A := λ w, (Throw e, w).

Definition effect (f : World → World) : M unit := λ w, (Return (), f w).

Definition get {A} (f : World → A) : M A := λ w, (Return (f w), w).

(** [try { m } catch (error) { h }] *)
Definition try_catch {A} (m : M A) (h : jsstring → M A) : M A := λ w,
  match m w with
  | (Return a, w') => (Return a, w')
  | (Throw e, w') => h e w'
  end.

Definition Problem_findById (id : option ObjectId) : M (option Problem) :=
  _ ← effect (log (ProblemFindById id));
  get (λ w, id ≫= λ i, problems w !! i).

Definition User_findById (id : ObjectId) : M (option User) :=
  _ ← effect (log (UserFindById id));
  get (λ w, users w !! id).

Definition AIInteraction_findById (id : ObjectId)
    : M (option AIInteraction) :=
  _ ← effect (log (InteractionFindById id));
  get (λ w, interactions w !! id).

(** [new AIInteraction(fields)]: the document gets an identifier no stored
    document has. *)
Definition AIInteraction_new (fields : AIInteraction)
    : M (ObjectId * AIInteraction) :=
  get (λ w, (fresh (dom (interactions w)), fields)).

(** [interaction.save()] of a new document stamps it with the time of the
    write. *)
Definition save_new (doc : ObjectId * AIInteraction) : M unit :=
  t ← get now;
  let i := doc.2 in
  let i := {| user := user i; type := type i; context := context i;
              query := query i; response := response i;
              tokens_used := tokens_used i;
              response_time := response_time i; feedback := feedback i;
              createdAt := t |} in
  _ ← effect (store doc.1 i);
  effect (log (InteractionSave doc.1)).

(** [interaction.save()] of a document read from the store. *)
Definition save (id : ObjectId) (i : AIInteraction) : M unit :=
  _ ← effect (store id i);
  effect (log (InteractionSave id)).

Definition Date_now : M N := get now.

Record Completion := {
  content : jsstring;
  completion_usage : option Usage;
  completion_time : N
}.

(** [callOpenAI(prompt, type)]; the second argument is unused. *)
Definition callOpenAI (env : Env) (prompt : jsstring) : M Completion :=
  startTime ← Date_now;
  try_catch
    (_ ← effect (log (CompletionCall prompt));
     _ ← effect (tick (latency env prompt));
     match axios_post env prompt with
     | None => throw (lit "Request failed")
     | Some data =>
         endTime ← Date_now;
         match choices data with
         | [] => throw (lit "TypeError")
         | c :: _ =>
             mret {| content := c; completion_usage := usage data;
                     completion_time := endTime - startTime |}
         end
     end)
    (λ _, throw (lit "Failed to get AI response")).

(** [response.usage?.total_tokens || 0] *)
Definition tokensOf (u : option Usage) : N :=
  match u ≫= total_tokens with
  | Some n => if n =? 0 then 0 else n
  | None => 0
  end.

(** ** Prompt templates *)

(** The template literal of [/code-review]. *)
Definition codeReviewPrompt (language code : option jsstring)
    (problem : Problem) : jsstring :=
  lit "
As a coding mentor, review this " ++ str language ++
  lit " code for the problem " ++ dquote ++ title problem ++ dquote ++ lit ":

Problem Description: " ++ stripTags (description problem) ++ lit "

Code:
```" ++ str language ++ lit "
" ++ str code ++ lit "
```

Please provide:
1. Code quality assessment (readability, structure, best practices)
2. Time and space complexity analysis
3. Potential bugs or edge cases missed
4. Suggestions for improvement
5. Alternative approaches if applicable

Keep the response concise but comprehensive.
    ".

(** The template literal of [/roadmap], once the two arrays and the user
    are known to be there. *)
Definition roadmapPrompt (currentLevel timeCommitment : option jsstring)
    (goals preferredTopics : list jsstring) (user : User) : jsstring :=
  lit "
Create a personalized coding learning roadmap for a " ++ str currentLevel ++
  lit " level programmer.

User Profile:
- Current Level: " ++ str currentLevel ++ lit "
- Goals: " ++ join (lit ", ") goals ++ lit "
- Time Commitment: " ++ str timeCommitment ++ lit " hours per week
- Preferred Topics: " ++ join (lit ", ") preferredTopics ++ lit "
- Problems Solved: " ++ Number_toString (totalSolved (stats user)) ++ lit "
- Current Rating: " ++ Number_toString (rating (stats user)) ++ lit "

Please provide:
1. A structured learning path with milestones
2. Recommended topics and concepts to study
3. Practice problem categories and difficulty progression
4. Estimated timeline for each phase
5. Resources and tips for effective learning

Format as a detailed roadmap with clear phases and actionable steps.
    ".

(** The nested template of [/hint]: the block of the current attempt. *)
Definition currentAttempt (language : option jsstring)
    (currentCode : jsstring) : jsstring :=
  lit "Current attempt:
```" ++ str language ++ lit "
" ++ currentCode ++ lit "
```".

(** The template literal of [/hint]. *)
Definition hintPrompt (problem : Problem)
    (currentCode language : option jsstring) : jsstring :=
  lit "
Provide a helpful hint for solving this coding problem. Don't give away the complete solution, but guide the user in the right direction.

Problem: " ++ title problem ++ lit "
Description: " ++ stripTags (description problem) ++ lit "
Difficulty: " ++ difficulty problem ++ lit "

" ++ (if falsy currentCode then []
      else currentAttempt language (default [] currentCode)) ++ lit "

Provide:
1. A conceptual hint about the approach
2. Key insights or patterns to recognize
3. Suggested next steps
4. Common pitfalls to avoid

Keep it encouraging and educational without spoiling the solution.
    ".

(** The template literal of [/debug]. *)
Definition debugPrompt (language code error : option jsstring)
    (problem : option Problem) : jsstring :=
  lit "
Help debug this " ++ str language ++
  lit " code that's encountering an error.

" ++ match problem with
     | Some problem => lit "Problem: " ++ title problem
     | None => []
     end ++ lit "
" ++ match problem with
     | Some problem =>
         lit "Description: " ++ stripTags (description problem)
     | None => []
     end ++ lit "

Code:
```" ++ str language ++ lit "
" ++ str code ++ lit "
```

Error: " ++ str error ++ lit "

Please provide:
1. Explanation of what's causing the error
2. Step-by-step debugging approach
3. Specific fixes needed
4. Prevention tips for similar issues

Be clear and educational in your explanation.
    ".

(** ** Requests and responses *)

Record CodeReviewBody := {
  cr_code : option jsstring;
  cr_language : option jsstring;
  cr_problemId : option ObjectId
}.

Record RoadmapBody := {
  rm_goals : option (list jsstring);
  rm_currentLevel : option jsstring;
  rm_timeCommitment : option jsstring;
  rm_preferredTopics : option (list jsstring)
}.

Record HintBody := {
  h_problemId : option ObjectId;
  h_currentCode : option jsstring;
  h_language : option jsstring
}.

Record DebugBody := {
  d_code : option jsstring;
  d_language : option jsstring;
  d_error : option jsstring;
  d_problemId : option ObjectId
}.

(** The query string of [/history]; [page] and [limit], when given, are
    positive numbers. *)
Record HistoryQuery := {
  q_page : option positive;
  q_limit : option positive;
  q_type : option jsstring
}.

(** A document of the history, with the title and the difficulty of its
    problem joined in when the problem still exists. *)
Record HistoryItem := {
  item : AIInteraction;
  populated : option (jsstring * jsstring)
}.

Inductive Json :=
| message (m : jsstring)
| review_json (review : jsstring) (suggestions : list jsstring)
    (complexity : Complexity)
| roadmap_json (roadmap : jsstring) (phases : list jsstring)
    (estimatedDuration : jsstring)
| hint_json (hint : jsstring) (approach : list jsstring)
| debug_json (explanation : jsstring) (fixes : list jsstring)
| history_json (items : list HistoryItem) (totalPages : Z)
    (currentPage : positive) (total : nat).

Record Response := { status : nat; json : Json }.

(** [res.status(code).json(body)], and [res.json(body)] with status 200. *)
Definition res_status_json (code : nat) (body : Json) : M Response :=
  mret {| status := code; json := body |}.

Definition res_json (body : Json) : M Response := res_status_json 200 body.

(** Reading a property of [undefined] or [null] throws. *)
Definition deref {A} (x : option A) : M A :=
  match x with
  | Some a => mret a
  | None => throw (lit "TypeError")
  end.

(** ** Handlers *)

(** [router.post('/code-review', auth, ...)]; [userId] is [req.user.userId],
    set by the authentication middleware. *)
Definition post_code_review (env : Env) (userId : ObjectId)
    (body : CodeReviewBody) : M Response :=
  try_catch
    (let code := cr_code body in
     let language := cr_language body in
     let problemId := cr_problemId body in
     if falsy (OPENAI_API_KEY env) then
       res_status_json 500 (message (lit "AI service not configured"))
     else
       problem ← Problem_findById problemId;
       match problem with
       | None => res_status_json 404 (message (lit "Problem not found"))
       | Some problem =>
           let prompt := codeReviewPrompt language code problem in
           response ← callOpenAI env prompt;
           interaction ← AIInteraction_new
             {| user := userId;
                type := lit "code_review";
                context := {| ctx_problem := problemId; ctx_code := code;
                              ctx_language := language; ctx_error := None;
                              ctx_userLevel := None; ctx_goals := None |};
                query := lit "Code review request";
                response := content response;
                tokens_used := tokensOf (completion_usage response);
                response_time := completion_time response;
                feedback := None;
                createdAt := 0 |};
           _ ← save_new interaction;
           res_json (review_json (content response)
                       (extractSuggestions (content response))
                       (extractComplexity (content response)))
       end)
    (λ _, res_status_json 500 (message (lit "Failed to analyze code"))).

(** [router.post('/roadmap', auth, ...)] *)
Definition post_roadmap (env : Env) (userId : ObjectId)
    (body : RoadmapBody) : M Response :=
  try_catch
    (let goals := rm_goals body in
     let currentLevel := rm_currentLevel body in
     let timeCommitment := rm_timeCommitment body in
     let preferredTopics := rm_preferredTopics body in
     if falsy (OPENAI_API_KEY env) then
       res_status_json 500 (message (lit "AI service not configured"))
     else
       user ← User_findById userId;
       goals' ← deref goals;
       preferredTopics' ← deref preferredTopics;
       user' ← deref user;
       let prompt :=
         roadmapPrompt currentLevel timeCommitment goals' preferredTopics'
           user' in
       response ← callOpenAI env prompt;
       interaction ← AIInteraction_new
         {| user := userId;
            type := lit "roadmap";
            context := {| ctx_problem := None; ctx_code := None;
                          ctx_language := None; ctx_error := None;
                          ctx_userLevel := currentLevel;
                          ctx_goals := goals |};
            query := lit "Personalized roadmap request";
            response := content response;
            tokens_used := tokensOf (completion_usage response);
            response_time := completion_time response;
            feedback := None;
            createdAt := 0 |};
       _ ← save_new interaction;
       res_json (roadmap_json (content response)
                   (extractRoadmapPhases (content response))
                   (extractDuration (content response))))
    (λ _, res_status_json 500 (message (lit "Failed to generate roadmap"))).

(** [router.post('/hint', auth, ...)] *)
Definition post_hint (env : Env) (userId : ObjectId) (body : HintBody)
    : M Response :=
  try_catch
    (let problemId := h_problemId body in
     let currentCode := h_currentCode body in
     let language := h_language body in
     if falsy (OPENAI_API_KEY env) then
       res_status_json 500 (message (lit "AI service not configured"))
     else
       problem ← Problem_findById problemId;
       match problem with
       | None => res_status_json 404 (message (lit "Problem not found"))
       | Some problem =>
           let prompt := hintPrompt problem currentCode language in
           response ← callOpenAI env prompt;
           interaction ← AIInteraction_new
             {| user := userId;
                type := lit "hint";
                context := {| ctx_problem := problemId;
                              ctx_code := currentCode;
                              ctx_language := language; ctx_error := None;
                              ctx_userLevel := None; ctx_goals := None |};
                query := lit "Hint request";
                response := content response;
                tokens_used := tokensOf (completion_usage response);
                response_time := completion_time response;
                feedback := None;
                createdAt := 0 |};
           _ ← save_new interaction;
           res_json (hint_json (content response)
                       (extractApproach (content response)))
       end)
    (λ _, res_status_json 500 (message (lit "Failed to generate hint"))).

(** [router.post('/debug', auth, ...)] *)
Definition post_debug (env : Env) (userId : ObjectId) (body : DebugBody)
    : M Response :=
  try_catch
    (let code := d_code body in
     let language := d_language body in
     let error := d_error body in
     let problemId := d_problemId body in
     if falsy (OPENAI_API_KEY env) then
       res_status_json 500 (message (lit "AI service not configured"))
     else
       problem ← Problem_findById problemId;
       let prompt := debugPrompt language code error problem in
       response ← callOpenAI env prompt;
       interaction ← AIInteraction_new
         {| user := userId;
            type := lit "debug_help";
            context := {| ctx_problem := problemId; ctx_code := code;
                          ctx_language := language; ctx_error := error;
                          ctx_userLevel := None; ctx_goals := None |};
            query := lit "Debug help request";
            response := content response;
            tokens_used := tokensOf (completion_usage response);
            response_time := completion_time response;
            feedback := None;
            createdAt := 0 |};
       _ ← save_new interaction;
       res_json (debug_json (content response)
                   (extractFixes (content response))))
    (λ _, res_status_json 500
            (message (lit "Failed to provide debug help"))).

(** *** History *)

(** The filter [{ user, type? }] of [/history] on one document. *)
Definition matchesQuery (owner : ObjectId) (ty : option jsstring)
    (i : AIInteraction) : bool :=
  (user i =? owner) &&
  match ty with
  | Some t => bool_decide (type i = t)
  | None => true
  end.

(** [sort({ createdAt: -1 })]: newest first. *)
Definition newerFirst (i j : AIInteraction) : Prop :=
  (createdAt j ≤ createdAt i)%N.

#[global] Instance newerFirst_dec : RelDecision newerFirst.
Proof. intros i j. unfold newerFirst. apply _. Defined.

(** The documents a query selects, in the order the store yields them. *)
Definition selected (owner : ObjectId) (ty : option jsstring) (w : World)
    : list AIInteraction :=
  filter (λ i, matchesQuery owner ty i = true)
    ((map_to_list (interactions w)).*2).

(** [populate('context.problem', 'title difficulty')] *)
Definition populate (w : World) (i : AIInteraction) : HistoryItem :=
  {| item := i;
     populated :=
       pid ← ctx_problem (context i);
       p ← problems w !! pid;
       Some (title p, difficulty p) |}.

(** [AIInteraction.find(query).populate(..).sort(..).limit(n).skip(k)]:
    the query skips before it limits, whatever the order of the calls. *)
Definition AIInteraction_find (owner : ObjectId) (ty : option jsstring)
    (skip limit : nat) : M (list HistoryItem) :=
  _ ← effect (log (InteractionFind owner ty));
  get (λ w, populate w <$>
            take limit (drop skip (merge_sort newerFirst (selected owner ty w)))).

Definition AIInteraction_countDocuments (owner : ObjectId)
    (ty : option jsstring) : M nat :=
  _ ← effect (log (InteractionCount owner ty));
  get (λ w, length (selected owner ty w)).

(** [Math.ceil(total / limit)] *)
Definition Math_ceil_div (total : nat) (limit : positive) : Z :=
  Qceiling (Z.of_nat total # limit).

(** [router.get('/history', auth, ...)] *)
Definition get_history (userId : ObjectId) (q : HistoryQuery) : M Response :=
  try_catch
    (let page := default 1%positive (q_page q) in
     let limit := default 20%positive (q_limit q) in
     let type := q_type q in
     let query_type := if falsy type then None else type in
     interactions ← AIInteraction_find userId query_type
                      ((Pos.to_nat page - 1) * Pos.to_nat limit)
                      (Pos.to_nat limit * 1);
     total ← AIInteraction_countDocuments userId query_type;
     res_json (history_json interactions (Math_ceil_div total limit) page
                 total))
    (λ _, res_status_json 500 (message (lit "Server error"))).

(** *** Feedback *)

Record FeedbackBody := {
  fbb_helpful : option bool;
  fbb_rating : option N;
  fbb_comment : option jsstring
}.

(** [router.post('/feedback/:interactionId', auth, ...)] *)
Definition post_feedback (userId : ObjectId) (interactionId : ObjectId)
    (body : FeedbackBody) : M Response :=
  try_catch
    (let helpful := fbb_helpful body in
     let rating := fbb_rating body in
     let comment := fbb_comment body in
     interaction ← AIInteraction_findById interactionId;
     match interaction with
     | None => res_status_json 404 (message (lit "Interaction not found"))
     | Some interaction =>
         if negb (user interaction =? userId) then
           res_status_json 403 (message (lit "Not authorized"))
         else
           let interaction :=
             setFeedback {| helpful := helpful; fb_rating := rating;
                            comment := comment |} interaction in
           _ ← save interactionId interaction;
           res_json (message (lit "Feedback saved successfully"))
     end)
    (λ _, res_status_json 500 (message (lit "Server error"))).

(** ** Specification vocabulary

    The predicates the theorems are stated with. None of them is used by
    the model of the code above. *)

(** [p] occurs in [s] as a substring. *)
Definition Contains (s p : jsstring) : Prop :=
  ∃ pre post, s = pre ++ p ++ post.

(** The lines of a text: the pieces between its newline characters. *)
Definition IsLinesOf (ls : list jsstring) (s : jsstring) : Prop :=
  ls ≠ [] ∧ join [10] ls = s ∧ Forall (λ l, 10 ∉ l) ls.

(** ASCII lower case, and containment of a keyword whatever the case of
    the letters: the reading of the line-keyword rules the specification
    gives. *)
Definition toLowerAscii (c : N) : N :=
  if (65 <=? c) && (c <=? 90) then c + 32 else c.

Definition spec_ContainsCI (s p : jsstring) : Prop :=
  Contains (toLowerAscii <$> s) (toLowerAscii <$> p).

(** The words a regular expression of the fragment matches. *)
Definition InClass (c : cclass) (x : N) : Prop := c x = true.

Fixpoint Matches (r : list atom) (m : jsstring) : Prop :=
  match r with
  | [] => m = []
  | One c :: r' => ∃ x m', m = x :: m' ∧ InClass c x ∧ Matches r' m'
  | LazyStar c :: r' | Star c :: r' =>
      ∃ a b, m = a ++ b ∧ Forall (InClass c) a ∧ Matches r' b
  | Plus c :: r' =>
      ∃ x a b, m = x :: a ++ b ∧ InClass c x ∧ Forall (InClass c) a
               ∧ Matches r' b
  | Opt c :: r' =>
      Matches r' m ∨ ∃ x m', m = x :: m' ∧ InClass c x ∧ Matches r' m'
  | Alt alts :: r' =>
      ∃ cs w b, cs ∈ alts ∧ Forall2 InClass cs w ∧ m = w ++ b
                ∧ Matches r' b
  end.

(** A continuation implements a language when the prefixes it accepts are
    words of the language, and it accepts some prefix of every string that
    starts with a word of the language. *)
Definition Implements (k : Continuation) (L : jsstring → Prop) : Prop :=
  (∀ s n, k s = Some n → ∃ m rest, s = m ++ rest ∧ length m = n ∧ L m) ∧
  (∀ m rest, L m → is_Some (k (m ++ rest))).

(** A word of the language [L] occurs in [s] right after [pre]. *)
Definition Occurs (L : jsstring → Prop) (s pre m : jsstring) : Prop :=
  ∃ post, s = pre ++ m ++ post ∧ L m.

(** No word of [L] occurs further left than [m]. *)
Definition Leftmost (L : jsstring → Prop) (s pre m : jsstring) : Prop :=
  Occurs L s pre m ∧
  ∀ pre' m', Occurs L s pre' m' → (length pre ≤ length pre')%nat.

(** The first match, the shortest one at its place: what a pattern whose
    only choice is a lazy quantifier returns. *)
Definition FirstShortest (L : jsstring → Prop) (s m : jsstring) : Prop :=
  ∃ pre, Leftmost L s pre m ∧
         ∀ m', Occurs L s pre m' → (length m ≤ length m')%nat.

(** The words of the two complexity patterns, spelled out: the keyword in
    any case, anything on the same line, then a capital or small O, an
    opening parenthesis, a non-empty body without closing parenthesis, and
    the closing parenthesis. *)
Definition SameLetters (w kw : jsstring) : Prop :=
  Forall2 (λ x k, x = k ∨ x = k - 32) w kw.

Definition ComplexityPhrase (kw m : jsstring) : Prop :=
  ∃ w mid o body,
    m = w ++ mid ++ [o; 40] ++ body ++ [41] ∧
    SameLetters w kw ∧
    Forall (λ x, isLineTerminator x = false) mid ∧
    (o = 79 ∨ o = 111) ∧
    body ≠ [] ∧ 41 ∉ body.

(** The atoms of [/kw.*?O\([^)]+\)/i]. *)
Definition phraseAtoms (kw : jsstring) : list atom :=
  (One <$> (ci <$> kw)) ++
  [LazyStar dot; One (ci 111); One (chr 40); Plus (notc 41); One (chr 41)].

(** The part of a phrase from the letter O on. *)
Definition BigO (t : jsstring) : Prop :=
  ∃ o body, t = [o; 40] ++ body ++ [41] ∧ (o = 79 ∨ o = 111)
            ∧ body ≠ [] ∧ 41 ∉ body.

(** A line that starts with a decimal number and a period. *)
Definition StartsNumbered (line : jsstring) : Prop :=
  ∃ ds rest, ds ≠ [] ∧ Forall (λ x, 48 ≤ x ≤ 57) ds
             ∧ line = ds ++ [46] ++ rest.

(** What the pattern of [stripTags] matches: the run of characters from
    an opening angle bracket to the next closing one. *)
Definition BracketSpan (t : jsstring) : Prop :=
  ∃ inner, t = [60] ++ inner ++ [62] ∧ 62 ∉ inner.

Definition SpanFree (s : jsstring) : Prop :=
  ∀ pre t, ¬ Occurs BracketSpan s pre t.

(** [out] is [s] read from the left with every such run deleted: where a
    run starts it is dropped whole, and a character that starts none is
    kept. *)
Inductive SpansDeleted : jsstring → jsstring → Prop :=
| sd_nil : SpansDeleted [] []
| sd_span t s out :
    BracketSpan t → SpansDeleted s out → SpansDeleted (t ++ s) out
| sd_keep x s out :
    (∀ t rest, x :: s = t ++ rest → ¬ BracketSpan t) →
    SpansDeleted s out → SpansDeleted (x :: s) (x :: out).

(** *** HTML tags

    The tags of HTML, as the tokenizer of the HTML standard finds them in
    a text: a start or end tag runs from a [<] that a letter follows
    (after a [/] for an end tag) to the next [>] outside a quoted
    attribute value. The states are the tokenizer's, for the data state
    and the states of a tag. A [<] that opens no tag is text; comments
    and declarations are no tags and stay as they are, and the text of a
    script or style element is read like any other. *)
Inductive TagState :=
| Data | TagOpen | EndTagOpen | TagName | BeforeAttributeName
| AttributeName | AfterAttributeName | BeforeAttributeValue
| DoubleQuoted | SingleQuoted | Unquoted | AfterQuoted | SelfClosing.

Definition asciiAlpha (x : N) : bool :=
  ((65 <=? x) && (x <=? 90)) || ((97 <=? x) && (x <=? 122)).

Definition htmlSpace (x : N) : bool :=
  (x =? 9) || (x =? 10) || (x =? 12) || (x =? 13) || (x =? 32).

(** The characters [held] turned out to open no tag: they are text, and
    [x] after them is read in the data state. *)
Definition asText (held : jsstring) (x : N) : TagState * jsstring :=
  if x =? 60 then (TagOpen, held) else (Data, held ++ [x]).

(** Where a character leads that is read before an attribute name. *)
Definition attribute (x : N) : TagState :=
  if htmlSpace x then BeforeAttributeName
  else if x =? 47 then SelfClosing
  else if x =? 62 then Data
  else AttributeName.

(** One character: the next state and the text that is emitted. *)
Definition step (st : TagState) (x : N) : TagState * jsstring :=
  match st with
  | Data => asText [] x
  | TagOpen =>
      if asciiAlpha x then (TagName, [])
      else if x =? 47 then (EndTagOpen, [])
      else asText [60] x
  | EndTagOpen =>
      if asciiAlpha x then (TagName, []) else asText [60; 47] x
  | TagName =>
      (if htmlSpace x then BeforeAttributeName
       else if x =? 47 then SelfClosing
       else if x =? 62 then Data
       else TagName, [])
  | BeforeAttributeName | AfterQuoted | SelfClosing => (attribute x, [])
  | AttributeName | AfterAttributeName =>
      (if htmlSpace x then AfterAttributeName
       else if x =? 47 then SelfClosing
       else if x =? 62 then Data
       else if x =? 61 then BeforeAttributeValue
       else AttributeName, [])
  | BeforeAttributeValue =>
      (if htmlSpace x then BeforeAttributeValue
       else if x =? 34 then DoubleQuoted
       else if x =? 39 then SingleQuoted
       else if x =? 62 then Data
       else Unquoted, [])
  | DoubleQuoted => (if x =? 34 then AfterQuoted else DoubleQuoted, [])
  | SingleQuoted => (if x =? 39 then AfterQuoted else SingleQuoted, [])
  | Unquoted =>
      (if htmlSpace x then BeforeAttributeName
       else if x =? 62 then Data
       else Unquoted, [])
  end.

(** At the end of the text a tag that was not closed is dropped, and
    characters held back are text. *)
Definition atEnd (st : TagState) : jsstring :=
  match st with
  | TagOpen => [60]
  | EndTagOpen => [60; 47]
  | _ => []
  end.

Fixpoint withoutTags_from (st : TagState) (s : jsstring) : jsstring :=
  match s with
  | [] => atEnd st
  | x :: s => (step st x).2 ++ withoutTags_from (step st x).1 s
  end.

(** A text with its HTML tags removed and its text content retained, as
    the specification asks of a description. *)
Definition spec_withoutTags (s : jsstring) : jsstring :=
  withoutTags_from Data s.

(** Markup in which the tags are the runs between angle brackets: every
    [<] opens a tag, no quoted attribute value holds a [>], and the last
    tag is closed. *)
Definition bracketsAsTags (st : TagState) (x : N) : bool :=
  match st with
  | TagOpen => asciiAlpha x || (x =? 47)
  | EndTagOpen => asciiAlpha x
  | DoubleQuoted | SingleQuoted => negb (x =? 62)
  | _ => true
  end.

Fixpoint simple_from (st : TagState) (s : jsstring) : bool :=
  match s with
  | [] => match st with Data => true | _ => false end
  | x :: s => bracketsAsTags st x && simple_from (step st x).1 s
  end.

Definition simpleMarkup (s : jsstring) : bool := simple_from Data s.

Definition insideTag (st : TagState) : bool :=
  match st with Data | TagOpen | EndTagOpen => false | _ => true end.

(** The items of an array with a comma and a space between them. *)
Definition spec_commaSeparated (items : list jsstring) : jsstring :=
  match items with
  | [] => []
  | item :: items => item ++ concat ((λ i, lit ", " ++ i) <$> items)
  end.

(** A prompt is laid out as sections, each once and in this order, with
    nothing but white space before, between and after them. *)
Definition Blank (g : jsstring) : Prop := Forall (InClass isWhiteSpace) g.

Fixpoint weave (gaps sections : list jsstring) : jsstring :=
  match gaps, sections with
  | g :: gaps', s :: sections' => g ++ s ++ weave gaps' sections'
  | g :: _, [] => g
  | [], _ => []
  end.

Definition LaidOut (sections : list jsstring) (prompt : jsstring) : Prop :=
  ∃ gaps, length gaps = S (length sections) ∧ Forall Blank gaps
          ∧ prompt = weave gaps sections.

(** The answers of the handlers that carry only a message. *)
Definition notConfigured : Response :=
  {| status := 500; json := message (lit "AI service not configured") |}.

Definition problemNotFound : Response :=
  {| status := 404; json := message (lit "Problem not found") |}.

(** The tokens an interaction records for a reply, as the specification
    words it. *)
Definition spec_tokens (u : option Usage) : N :=
  match u with
  | None => 0
  | Some u => default 0 (total_tokens u)
  end.

(** What a successful call of the completion service leaves behind. *)
Definition afterCall (env : Env) (prompt : jsstring) (w : World) : World :=
  tick (latency env prompt) (log (CompletionCall prompt) w).

(** The reads of the problem and user stores. *)
Definition isLookup (e : Event) : Prop :=
  match e with
  | ProblemFindById _ | UserFindById _ => True
  | _ => False
  end.

(** Between [w] and [w'] one lookup was made, the completion service was
    called once and answered, and exactly one interaction was written: a
    new document of the caller, of the given type, holding the reply and
    its token count. *)
Definition PersistedOne (env : Env) (userId : ObjectId) (ty : jsstring)
    (w w' : World) : Prop :=
  ∃ id i lookup prompt data,
    axios_post env prompt = Some data ∧
    interactions w !! id = None ∧
    interactions w' = <[id := i]> (interactions w) ∧
    trace w' = trace w ++ [lookup; CompletionCall prompt; InteractionSave id] ∧
    isLookup lookup ∧
    user i = userId ∧ type i = ty ∧
    head (choices data) = Some (response i) ∧
    tokens_used i = spec_tokens (usage data) ∧
    feedback i = None.

Definition roadmapFailed : Response :=
  {| status := 500; json := message (lit "Failed to generate roadmap") |}.

Definition interactionNotFound : Response :=
  {| status := 404; json := message (lit "Interaction not found") |}.

Definition notAuthorized : Response :=
  {| status := 403; json := message (lit "Not authorized") |}.

Definition feedbackSaved : Response :=
  {| status := 200; json := message (lit "Feedback saved successfully") |}.

(** The object [{ helpful, rating, comment }] of a feedback request. *)
Definition feedbackOf (body : FeedbackBody) : Feedback :=
  {| helpful := fbb_helpful body; fb_rating := fbb_rating body;
     comment := fbb_comment body |}.

(** The world after a feedback was saved on interaction [id]. *)
Definition withFeedback (id : ObjectId) (i : AIInteraction)
    (body : FeedbackBody) (w : World) : World :=
  log (InteractionSave id)
    (store id (setFeedback (feedbackOf body) i)
       (log (InteractionFindById id) w)).

(** The documents a history query is about: the caller's, of the type
    asked for when one is. *)
Definition Selects (owner : ObjectId) (ty : option jsstring)
    (i : AIInteraction) : Prop :=
  user i = owner ∧ ∀ t, ty = Some t → type i = t.

(** The sections of the four prompts, in the order the specification
    gives them; [cleaned] is the description of the problem without its
    tags. The first is the fenced block of the code under review. *)
Definition fenced (language code : jsstring) : jsstring :=
  lit "Code:
```" ++ language ++ lit "
" ++ code ++ lit "
```".

Definition spec_codeReviewSections (language code title cleaned : jsstring)
    : list jsstring :=
  [ lit "As a coding mentor, review this " ++ language ++
      lit " code for the problem " ++ dquote ++ title ++ dquote ++ lit ":";
    lit "Problem Description: " ++ cleaned;
    fenced language code;
    lit "Please provide:";
    lit "1. Code quality assessment (readability, structure, best practices)";
    lit "2. Time and space complexity analysis";
    lit "3. Potential bugs or edge cases missed";
    lit "4. Suggestions for improvement";
    lit "5. Alternative approaches if applicable";
    lit "Keep the response concise but comprehensive." ].

Definition spec_roadmapSections (level time goals topics solved rating
    : jsstring) : list jsstring :=
  [ lit "Create a personalized coding learning roadmap for a " ++ level ++
      lit " level programmer.";
    lit "User Profile:";
    lit "- Current Level: " ++ level;
    lit "- Goals: " ++ goals;
    lit "- Time Commitment: " ++ time ++ lit " hours per week";
    lit "- Preferred Topics: " ++ topics;
    lit "- Problems Solved: " ++ solved;
    lit "- Current Rating: " ++ rating;
    lit "Please provide:";
    lit "1. A structured learning path with milestones";
    lit "2. Recommended topics and concepts to study";
    lit "3. Practice problem categories and difficulty progression";
    lit "4. Estimated timeline for each phase";
    lit "5. Resources and tips for effective learning";
    lit "Format as a detailed roadmap with clear phases and actionable steps." ].

Definition spec_hintSections (title cleaned difficulty language : jsstring)
    (currentCode : option jsstring) : list jsstring :=
  [ lit "Provide a helpful hint for solving this coding problem. Don't give away the complete solution, but guide the user in the right direction.";
    lit "Problem: " ++ title;
    lit "Description: " ++ cleaned;
    lit "Difficulty: " ++ difficulty ] ++
  match currentCode with
  | Some (c :: code) =>
      [ lit "Current attempt:
```" ++ language ++ lit "
" ++ (c :: code) ++ lit "
```" ]
  | _ => []
  end ++
  [ lit "Provide:";
    lit "1. A conceptual hint about the approach";
    lit "2. Key insights or patterns to recognize";
    lit "3. Suggested next steps";
    lit "4. Common pitfalls to avoid";
    lit "Keep it encouraging and educational without spoiling the solution." ].

Definition spec_debugSections (language code error : jsstring)
    (problem : option (jsstring * jsstring)) : list jsstring :=
  [ lit "Help debug this " ++ language ++
      lit " code that's encountering an error." ] ++
  match problem with
  | Some (title, cleaned) =>
      [ lit "Problem: " ++ title; lit "Description: " ++ cleaned ]
  | None => []
  end ++
  [ fenced language code;
    lit "Error: " ++ error;
    lit "Please provide:";
    lit "1. Explanation of what's causing the error";
    lit "2. Step-by-step debugging approach";
    lit "3. Specific fixes needed";
    lit "4. Prevention tips for similar issues";
    lit "Be clear and educational in your explanation." ].

(** The gaps of the templates: line breaks, and the indentation before the
    closing backquote. *)
Definition nl : jsstring := [10].

Definition tail_gap : jsstring := lit "
    ".

(** *** Further vocabulary *)

(** The completion service fails on a prompt: the request is rejected, or
    the reply has no choice. *)
Definition ServiceFails (env : Env) (prompt : jsstring) : Prop :=
  match axios_post env prompt with
  | Some data => choices data = []
  | None => True
  end.

(** Two documents that differ at most in their feedback. *)
Definition SameButFeedback (i i' : AIInteraction) : Prop :=
  user i' = user i ∧ type i' = type i ∧ context i' = context i ∧
  query i' = query i ∧ response i' = response i ∧
  tokens_used i' = tokens_used i ∧ response_time i' = response_time i ∧
  createdAt i' = createdAt i.

(** A world that a handler may leave behind when it starts in [w]: the
    problems and the users are as before, no interaction is gone, and the
    interactions that were there differ at most in their feedback; the
    clock did not go back and the trace was only added to. *)
Definition Extends (w w' : World) : Prop :=
  problems w' = problems w ∧ users w' = users w ∧
  (∀ id i, interactions w !! id = Some i →
     ∃ i', interactions w' !! id = Some i' ∧ SameButFeedback i i') ∧
  now w ≤ now w' ∧ trace w `prefix_of` trace w'.

Definition codeReviewFailed : Response :=
  {| status := 500; json := message (lit "Failed to analyze code") |}.

Definition hintFailed : Response :=
  {| status := 500; json := message (lit "Failed to generate hint") |}.

Definition debugFailed : Response :=
  {| status := 500; json := message (lit "Failed to provide debug help") |}.

(** The handler run [r], started in [w], returned an answer, either with
    status 200 or one of the error answers [errors], a status with a bare
    message, and left a world that extends [w]. *)
Definition Answers (r : Outcome Response * World) (w : World)
    (errors : list (nat * jsstring)) : Prop :=
  ∃ resp w', r = (Return resp, w') ∧ Extends w w' ∧
             (status resp = 200%nat ∨
              ∃ m, (status resp, m) ∈ errors ∧ json resp = message m).

(** The error answers of the six routes. *)
Definition codeReviewErrors : list (nat * jsstring) :=
  [ (500%nat, lit "AI service not configured");
    (404%nat, lit "Problem not found");
    (500%nat, lit "Failed to analyze code") ].

Definition roadmapErrors : list (nat * jsstring) :=
  [ (500%nat, lit "AI service not configured");
    (500%nat, lit "Failed to generate roadmap") ].

Definition hintErrors : list (nat * jsstring) :=
  [ (500%nat, lit "AI service not configured");
    (404%nat, lit "Problem not found");
    (500%nat, lit "Failed to generate hint") ].

Definition debugErrors : list (nat * jsstring) :=
  [ (500%nat, lit "AI service not configured");
    (500%nat, lit "Failed to provide debug help") ].

Definition historyErrors : list (nat * jsstring) :=
  [ (500%nat, lit "Server error") ].

Definition feedbackErrors : list (nat * jsstring) :=
  [ (404%nat, lit "Interaction not found");
    (403%nat, lit "Not authorized");
    (500%nat, lit "Server error") ].

(** The interaction a generation handler writes. *)
Definition recordOf (env : Env) (userId : ObjectId) (ty : jsstring)
    (ctx : Context) (query : jsstring) (prompt c : jsstring)
    (data : ApiData) (w : World) : AIInteraction :=
  {| user := userId; type := ty; context := ctx; query := query;
     response := c; tokens_used := spec_tokens (usage data);
     response_time := latency env prompt; feedback := None;
     createdAt := now w + latency env prompt |}.

(** The world after a generation handler that looked something up in
    [w0], called the service with [prompt] and wrote [i]. *)
Definition recorded (env : Env) (prompt : jsstring) (i : AIInteraction)
    (w0 : World) : World :=
  let id := fresh (dom (interactions w0)) in
  log (InteractionSave id) (store id i (afterCall env prompt w0)).

(** The page and the total an answer of the history route carries. *)
Definition historyItems (r : Outcome Response * World) : list HistoryItem :=
  match r.1 with
  | Return {| json := history_json items _ _ _ |} => items
  | _ => []
  end.

Definition historyTotal (r : Outcome Response * World) : option nat :=
  match r.1 with
  | Return {| json := history_json _ _ _ total |} => Some total
  | _ => None
  end.

(** The query for page [k + 1] with [limit] documents to a page. *)
Definition pageQuery (k : nat) (limit : positive) (ty : option jsstring)
    : HistoryQuery :=
  {| q_page := Some (Pos.of_succ_nat k); q_limit := Some limit;
     q_type := ty |}.

(** The number of documents of a collection that a query selects. *)
Definition count (owner : ObjectId) (ty : option jsstring)
    (m : gmap N AIInteraction) : nat :=
  length (filter (λ i, matchesQuery owner ty i = true) (map_to_list m).*2).

(** A handler run answered 200. *)
Definition answered200 (r : Outcome Response * World) : bool :=
  match r.1 with
  | Return resp => Nat.eqb (status resp) 200
  | Throw _ => false
  end.

(** An interaction of [userId] of type [route] is one that the history
    query of [owner] for the type [ty] selects. *)
Definition entersHistory (userId : ObjectId) (route : jsstring)
    (owner : ObjectId) (ty : option jsstring) : bool :=
  (userId =? owner) &&
  match ty with
  | Some t => bool_decide (route = t)
  | None => true
  end.

(** The total of a history query after the run [r] is its total before,
    plus one when [r] answered 200 on the route [route] for a caller whose
    interactions of that type the query selects. *)
Definition GrowsBy (userId : ObjectId) (route : jsstring)
    (owner : ObjectId) (q : HistoryQuery) (w : World)
    (r : Outcome Response * World) : Prop :=
  let ty := if falsy (q_type q) then None else q_type q in
  historyTotal (get_history owner q r.2)
  = (λ t, t + (if answered200 r && entersHistory userId route owner ty
               then 1 else 0))%nat
    <$> historyTotal (get_history owner q w).

(** A generation handler either answers 200 and has written one new
    interaction of the caller and of its route, or answers otherwise and
    has written none. *)
Definition WroteIff200 (userId : ObjectId) (route : jsstring) (w : World)
    (r : Outcome Response * World) : Prop :=
  ∃ resp w', r = (Return resp, w') ∧
    ((status resp ≠ 200%nat ∧ interactions w' = interactions w) ∨
     (status resp = 200%nat ∧
      ∃ id i, interactions w !! id = None ∧
              interactions w' = <[id := i]> (interactions w) ∧
              user i = userId ∧ type i = route)).

(** A string with no white space at its two ends. *)
Definition NoOuterSpace (x : jsstring) : Prop :=
  (∀ c t, x = c :: t → isWhiteSpace c = false) ∧
  (∀ t c, x = t ++ [c] → isWhiteSpace c = false).

(** [x] is the line [line] without the white space around it. *)
Definition Trimmed (line x : jsstring) : Prop :=
  ∃ a b, line = a ++ x ++ b ∧ Blank a ∧ Blank b ∧ NoOuterSpace x.

(** A keyword with no white space in it, as all those of the module. *)
Definition Solid (kw : jsstring) : Prop :=
  kw ≠ [] ∧ Forall (λ c, isWhiteSpace c = false) kw.

(** The items an extractor returned are at most [cap], and each is a line
    of the text without the white space around it, and satisfies [Q]. *)
Definition ItemsOf (content : jsstring) (cap : nat) (Q : jsstring → Prop)
    (items : list jsstring) : Prop :=
  (length items ≤ cap)%nat ∧
  ∀ x, x ∈ items →
    10 ∉ x ∧ Q x ∧ ∃ line, line ∈ split 10 content ∧ Trimmed line x.

Definition suggestionWords : list jsstring :=
  [lit "suggestion"; lit "improve"; lit "consider"].

Definition approachWords : list jsstring :=
  [lit "approach"; lit "strategy"; lit "method"].

Definition fixWords : list jsstring :=
  [lit "fix"; lit "change"; lit "replace"].

Definition HasOneOf (kws : list jsstring) (x : jsstring) : Prop :=
  ∃ kw, kw ∈ kws ∧ Contains x kw.

(** The first match, the longest one at its place: what a pattern whose
    choices are greedy quantifiers returns. *)
Definition FirstLongest (L : jsstring → Prop) (s m : jsstring) : Prop :=
  ∃ pre, Leftmost L s pre m ∧
         ∀ m', Occurs L s pre m' → (length m' ≤ length m)%nat.

(** The words of the duration pattern: a decimal number, white space or
    none, one of the three units in any case, and an s or none. *)
Definition Unit_ (w : jsstring) : Prop :=
  SameLetters w (lit "week") ∨ SameLetters w (lit "month")
  ∨ SameLetters w (lit "day").

Definition DurationPhrase (m : jsstring) : Prop :=
  ∃ ds sp w o,
    m = ds ++ sp ++ w ++ o ∧
    ds ≠ [] ∧ Forall (λ x, 48 ≤ x ≤ 57) ds ∧
    Forall (InClass isWhiteSpace) sp ∧
    Unit_ w ∧
    (o = [] ∨ o = [115] ∨ o = [83]).

Definition units : list (list cclass) :=
  [word_ci "week"; word_ci "month"; word_ci "day"].

(** The number of code units the optional s takes. *)
Definition plural (t : jsstring) : nat :=
  match t with
  | x :: _ => if ci 115 x then 1 else 0
  | [] => 0
  end.

(** No interaction of the store is dated after the clock. *)
Definition WellDated (w : World) : Prop :=
  ∀ id i, interactions w !! id = Some i → createdAt i ≤ now w.

(** The run [r], started in [w], answered 200 and wrote one interaction,
    new to the store, of the caller, dated with the clock after the
    call, which took some time; or it answered otherwise. *)
Definition WroteNewest (env : Env) (userId : ObjectId) (w : World)
    (r : Outcome Response * World) : Prop :=
  ∀ resp w', r = (Return resp, w') → status resp = 200%nat →
    ∃ id i prompt,
      interactions w !! id = None ∧
      interactions w' = <[id := i]> (interactions w) ∧
      problems w' = problems w ∧
      user i = userId ∧
      createdAt i = now w + latency env prompt ∧
      now w' = now w + latency env prompt.

(** The first document of the first page of a user's history. *)
Definition newestOf (userId : ObjectId) (limit : positive) (w : World)
    : option AIInteraction :=
  head (item <$> historyItems (get_history userId (pageQuery 0 limit None) w)).

(** ** Example data

    Stores, services and requests the theorems are run on. *)

(** An empty store, and a process without the credential. *)
Definition noWorld : World :=
  {| problems := ∅; users := ∅; interactions := ∅; now := 0; trace := [] |}.

Definition noService : Env :=
  {| OPENAI_API_KEY := None; axios_post := λ _, None; latency := λ _, 0 |}.

Definition someService : Env :=
  {| OPENAI_API_KEY := Some (lit "sk-test"); axios_post := λ _, None;
     latency := λ _, 0 |}.

(** A service that answers every prompt with one suggestion and no usage
    data, in 120 milliseconds. *)
Definition mentor : Env :=
  {| OPENAI_API_KEY := Some (lit "sk-test");
     axios_post := λ _, Some {| choices := [lit "consider a hash map"];
                                usage := None |};
     latency := λ _, 120 |}.

Definition twoSum : Problem :=
  {| title := lit "Two Sum";
     description := lit "<p>Find <b>two</b> numbers.</p>";
     difficulty := lit "Easy" |}.

Definition oneProblem : World :=
  {| problems := {[ 7 := twoSum ]}; users := ∅; interactions := ∅;
     now := 1000; trace := [] |}.

Definition reviewRequest : CodeReviewBody :=
  {| cr_code := Some (lit "return 1"); cr_language := Some (lit "js");
     cr_problemId := Some 7 |}.

Definition aHint : AIInteraction :=
  {| user := 1; type := lit "hint"; context := emptyContext;
     query := lit "Hint request"; response := lit "think of a stack";
     tokens_used := 12; response_time := 120; feedback := None;
     createdAt := 1000 |}.

Definition oneHint : World :=
  {| problems := ∅; users := ∅; interactions := {[ 5 := aHint ]};
     now := 2000; trace := [] |}.

Definition thumbsUp : FeedbackBody :=
  {| fbb_helpful := Some true; fbb_rating := Some 5; fbb_comment := None |}.

(** A store with 45 hints of user 1, written one millisecond apart, and
    two interactions of user 2. *)
Definition hintAt (owner : ObjectId) (k : nat) : AIInteraction :=
  {| user := owner; type := lit "hint"; context := emptyContext;
     query := lit "Hint request"; response := lit "think of a stack";
     tokens_used := 12; response_time := 120; feedback := None;
     createdAt := 1000 + N.of_nat k |}.

Definition busyWorld : World :=
  {| problems := ∅; users := ∅;
     interactions :=
       list_to_map (((λ k, (N.of_nat k, hintAt 1 k)) <$> seq 0 45) ++
                    ((λ k, (N.of_nat k, hintAt 2 k)) <$> seq 45 2));
     now := 5000; trace := [] |}.

Definition thirdPage : HistoryQuery :=
  {| q_page := Some 3%positive; q_limit := Some 20%positive;
     q_type := None |}.

(** A description without markup that compares with angle brackets, and
    one whose tag has a closing bracket inside an attribute value. *)
Definition comparison : Problem :=
  {| title := lit "In Order";
     description := lit "Return true if a < b and c > d, else false.";
     difficulty := lit "Easy" |}.

Definition linked : Problem :=
  {| title := lit "Links";
     description := lit "<a title=" ++ dquote ++ lit "x>y" ++ dquote
                      ++ lit ">link</a>";
     difficulty := lit "Easy" |}.

(** A review request whose code is the heading of a section. *)
Definition echoedPrompt : jsstring :=
  codeReviewPrompt (Some (lit "js")) (Some (lit "Please provide:")) twoSum.

(** A store with one problem and one older hint of user 1. *)
Definition hintedWorld : World :=
  {| problems := {[ 7 := twoSum ]}; users := ∅;
     interactions := {[ 5 := aHint ]}; now := 2000; trace := [] |}.

(** ** Facts about strings *)

Section strings.
Implicit Types s p l : jsstring.

Lemma startsWith_spec s p :
  startsWith s p = true ↔ ∃ post, s = p ++ post.
Proof.
  revert s. induction p as [|a p IH]; intros [|b s]; simpl.
  - split; [by exists [] | done].
  - split; [by exists (b :: s) | done].
  - split; [done | by intros [? ?]].
  - rewrite andb_true_iff, N.eqb_eq, IH. split.
    + intros [-> [post ->]]. by exists post.
    + intros [post [= -> ->]]. eauto.
Qed.

Lemma includes_spec s p : includes s p = true ↔ Contains s p.
Proof.
  unfold Contains. induction s as [|b s IH].
  - cbn [includes]. rewrite orb_false_r, startsWith_spec. split.
    + intros [post ->]. by exists [], post.
    + intros (pre & post & H). symmetry in H.
      apply app_eq_nil in H as [-> H]. apply app_eq_nil in H as [-> ->].
      by exists [].
  - cbn [includes]. rewrite orb_true_iff, startsWith_spec, IH. split.
    + intros [[post ->] | (pre & post & ->)].
      * by exists [], post.
      * by exists (b :: pre), post.
    + intros ([|x pre] & post & H); simpl in H.
      * left. by exists post.
      * right. injection H as -> ->. by exists pre, post.
Qed.

#[global] Instance Contains_dec s p : Decision (Contains s p).
Proof.
  refine (cast_if (decide (includes s p = true)));
    by rewrite <- includes_spec.
Defined.

Lemma split_nonempty sep s : split sep s ≠ [].
Proof. destruct s as [|c s]; simpl; [done|]. by repeat case_match. Qed.

Lemma join_cons sep l ls :
  ls ≠ [] → join sep (l :: ls) = l ++ sep ++ join sep ls.
Proof. by destruct ls. Qed.

Lemma split_lines s : IsLinesOf (split 10 s) s.
Proof.
  split; [apply split_nonempty|].
  induction s as [|c s [IH1 IH2]]; simpl.
  - split; [done|]. repeat constructor. apply not_elem_of_nil.
  - destruct (N.eqb_spec c 10) as [->|Hc].
    + split.
      * rewrite join_cons by apply split_nonempty. by rewrite IH1.
      * constructor; [apply not_elem_of_nil | done].
    + pose proof (split_nonempty 10 s) as Hne.
      destruct (split 10 s) as [|l ls]; [done|]. split.
      * destruct ls as [|l' ls]; simpl in *; by rewrite <- IH1.
      * inversion IH2 as [|? ? Hl Hls]; subst. constructor; [|done].
        rewrite not_elem_of_cons. done.
Qed.

Lemma foldl_pushIf cond acc (ls : list jsstring) :
  foldl (pushIf cond) acc ls
  = acc ++ (trim <$> filter (λ l, cond l = true) ls).
Proof.
  revert acc. induction ls as [|l ls IH]; intros acc; simpl.
  - by rewrite app_nil_r.
  - rewrite IH. unfold pushIf. rewrite filter_cons.
    case_decide as Hc.
    + rewrite Hc. by rewrite <- app_assoc.
    + by apply not_true_is_false in Hc as ->.
Qed.

End strings.

(** ** The backtracking matcher finds the matches *)

Section matcher.
Implicit Types (c : cclass) (k : Continuation) (s m : jsstring).

Lemma seq_here_one c k s n :
  seq_here [c] k s = Some n ↔
  ∃ x s' n', s = x :: s' ∧ InClass c x ∧ k s' = Some n' ∧ n = S n'.
Proof.
  unfold InClass. destruct s as [|x s]; simpl.
  { split; [done | by intros (? & ? & ? & ? & _)]. }
  destruct (c x) eqn:Hx.
  - destruct (k s) as [n'|] eqn:Hk; simpl.
    + split; [intros [= <-]; by exists x, s, n'|].
      intros (? & ? & ? & [= <- <-] & _ & ? & ->). congruence.
    + split; [done|]. intros (? & ? & ? & [= <- <-] & _ & ? & _).
      congruence.
  - split; [done|]. intros (? & ? & ? & [= <- <-] & ? & _). congruence.
Qed.

Lemma implements_one c k L :
  Implements k L →
  Implements (seq_here [c] k)
    (λ m, ∃ x m', m = x :: m' ∧ InClass c x ∧ L m').
Proof.
  intros [Hs Hc]. split.
  - intros s n (x & s' & n' & -> & Hx & Hk & ->)%seq_here_one.
    destruct (Hs _ _ Hk) as (m & rest & -> & <- & HL).
    exists (x :: m), rest. split_and!; [done..|]. by exists x, m.
  - intros m rest (x & m' & -> & Hx & HL).
    destruct (Hc m' rest HL) as [n Hn].
    exists (S n). apply seq_here_one. by exists x, (m' ++ rest), n.
Qed.

Lemma lazy_star_here c k s n : k s = Some n → lazy_star c k s = Some n.
Proof. intros Hk. destruct s; simpl; by rewrite Hk. Qed.

Lemma greedy_star_here c k s :
  is_Some (k s) → is_Some (greedy_star c k s).
Proof.
  intros Hk. destruct s as [|x s]; simpl; [done|].
  destruct (c x); [|done]. by destruct (greedy_star c k s).
Qed.

Lemma implements_lazy_star c k L :
  Implements k L →
  Implements (lazy_star c k)
    (λ m, ∃ a b, m = a ++ b ∧ Forall (InClass c) a ∧ L b).
Proof.
  intros [Hs Hc]. split.
  - intros s. induction s as [|x s IH]; intros n; simpl.
    + destruct (k []) as [n'|] eqn:Hk; [|done]. intros [= <-].
      destruct (Hs _ _ Hk) as (m & rest & E & <- & HL).
      exists m, rest. split_and!; [done..|]. by exists [], m.
    + destruct (k (x :: s)) as [n'|] eqn:Hk.
      * intros [= <-].
        destruct (Hs _ _ Hk) as (m & rest & E & <- & HL).
        exists m, rest. split_and!; [done..|]. by exists [], m.
      * destruct (c x) eqn:Hx; [|done].
        destruct (lazy_star c k s) as [n'|] eqn:Hl; [|done].
        intros [= <-].
        destruct (IH _ eq_refl) as (m & rest & -> & <- & a & b & -> & Ha & HL).
        exists (x :: a ++ b), rest. split_and!; [done..|].
        exists (x :: a), b. split_and!; [done| |done]. by constructor.
  - intros m rest (a & b & -> & Ha & HL).
    induction Ha as [|x a Hx Ha IH]; simpl.
    + destruct (Hc b rest HL) as [n0 Hn]. exists n0.
      by apply lazy_star_here.
    + rewrite <- app_assoc in *.
      destruct (k (x :: a ++ b ++ rest)); [eauto|].
      rewrite Hx. destruct IH as [n0 ->]. eauto.
Qed.

Lemma implements_greedy_star c k L :
  Implements k L →
  Implements (greedy_star c k)
    (λ m, ∃ a b, m = a ++ b ∧ Forall (InClass c) a ∧ L b).
Proof.
  intros [Hs Hc]. split.
  - assert (Hbase : ∀ s n, k s = Some n →
      ∃ m rest, s = m ++ rest ∧ length m = n ∧
        ∃ a b, m = a ++ b ∧ Forall (InClass c) a ∧ L b).
    { intros s n Hk. destruct (Hs _ _ Hk) as (m & rest & E & <- & HL).
      exists m, rest. split_and!; [done..|]. by exists [], m. }
    intros s. induction s as [|x s IH]; intros n; simpl; [by apply Hbase|].
    destruct (c x) eqn:Hx; [|by apply Hbase].
    destruct (greedy_star c k s) as [n'|] eqn:Hg; [|by apply Hbase].
    intros [= <-].
    destruct (IH _ eq_refl) as (m & rest & -> & <- & a & b & -> & Ha & HL).
    exists (x :: a ++ b), rest. split_and!; [done..|].
    exists (x :: a), b. split_and!; [done| |done]. by constructor.
  - intros m rest (a & b & -> & Ha & HL).
    induction Ha as [|x a Hx Ha IH]; simpl.
    + apply greedy_star_here, Hc, HL.
    + rewrite <- app_assoc in *. rewrite Hx. destruct IH as [n0 ->]. eauto.
Qed.

Lemma seq_here_spec cs k s n :
  seq_here cs k s = Some n ↔
  ∃ w s' n', s = w ++ s' ∧ Forall2 InClass cs w ∧ k s' = Some n'
             ∧ n = (length w + n')%nat.
Proof.
  revert s n. induction cs as [|c cs IH]; intros s n; simpl.
  - split.
    + intros Hk. exists [], s, n. split_and!; [done|constructor|done..].
    + intros (w & s' & n' & -> & Hw & Hk & ->).
      by apply Forall2_nil_inv_l in Hw as ->.
  - destruct s as [|x s].
    + split; [done|]. intros (w & s' & n' & E & Hw & _).
      apply Forall2_cons_inv_l in Hw as (? & ? & _ & _ & ->). done.
    + unfold InClass at 1. destruct (c x) eqn:Hx.
      * destruct (seq_here cs k s) as [n0|] eqn:Hq; simpl.
        -- apply IH in Hq as (w & s' & n' & -> & Hw & Hk & ->). split.
           ++ intros [= <-]. exists (x :: w), s', n'.
              split_and!; [done| |done..]. by constructor.
           ++ intros (w2 & s2 & n2 & E & Hw2 & Hk2 & ->).
              apply Forall2_cons_inv_l in Hw2 as (y & w3 & Hy & Hw3 & ->).
              simpl in E. injection E as <- E.
              assert (seq_here cs k (w ++ s') = Some (length w3 + n2)%nat)
                as Hq2.
              { apply IH. exists w3, s2, n2. by rewrite E. }
              assert (seq_here cs k (w ++ s') = Some (length w + n')%nat)
                as Hq1.
              { apply IH. by exists w, s', n'. }
              simpl. congruence.
        -- split; [done|]. intros (w2 & s2 & n2 & E & Hw2 & Hk2 & ->).
           apply Forall2_cons_inv_l in Hw2 as (y & w3 & Hy & Hw3 & ->).
           simpl in E. injection E as <- ->.
           assert (is_Some (seq_here cs k (w3 ++ s2))) as [? ?]; [|congruence].
           eexists. apply IH. by exists w3, s2, n2.
      * split; [done|]. intros (w2 & s2 & n2 & E & Hw2 & Hk2 & ->).
        apply Forall2_cons_inv_l in Hw2 as (y & w3 & Hy & Hw3 & ->).
        simpl in E. injection E as <- ->. unfold InClass in Hy. congruence.
Qed.

Lemma implements_alt alts k L :
  Implements k L →
  Implements (alt_here alts k)
    (λ m, ∃ cs w b, cs ∈ alts ∧ Forall2 InClass cs w ∧ m = w ++ b ∧ L b).
Proof.
  intros [Hs Hc]. split.
  - intros s n. induction alts as [|a alts IH]; simpl; [done|].
    destruct (seq_here a k s) as [n0|] eqn:Hq.
    + intros [= <-].
      apply seq_here_spec in Hq as (w & s' & n' & -> & Hw & Hk & ->).
      destruct (Hs _ _ Hk) as (m & rest & -> & <- & HL).
      exists (w ++ m), rest. rewrite length_app, <- app_assoc.
      split_and!; [done..|]. exists a, w, m. split_and!; [left|done..].
    + intros H. destruct (IH H) as (m & rest & -> & <- & cs & w & b & Hin & ?).
      exists m, rest. split_and!; [done..|].
      exists cs, w, b. split; [by right | done].
  - intros m rest (cs & w & b & Hin & Hw & -> & HL).
    induction alts as [|a alts IH]; [by apply elem_of_nil in Hin|].
    simpl. destruct (seq_here a k ((w ++ b) ++ rest)) eqn:Hq; [eauto|].
    apply elem_of_cons in Hin as [<- | Hin]; [|eauto].
    destruct (Hc b rest HL) as [n Hn].
    assert (seq_here cs k ((w ++ b) ++ rest) = Some (length w + n)%nat)
      as Hq'; [|congruence].
    apply seq_here_spec. exists w, (b ++ rest), n. by rewrite <- app_assoc.
Qed.

Lemma match_here_implements r : Implements (match_here r) (Matches r).
Proof.
  induction r as [|a r IH]; [|destruct a as [c|c|c|c|c|alts]];
    cbn [match_here Matches].
  - split.
    + intros s n [= <-]. by exists [], s.
    + intros m rest ->. eauto.
  - by apply implements_one.
  - by apply implements_lazy_star.
  - by apply implements_greedy_star.
  - pose proof (implements_one c _ _ (implements_greedy_star c _ _ IH))
      as [Hs Hc].
    split.
    + intros s n Hn.
      destruct (Hs _ _ Hn) as (m & rest & -> & <- & x & m' & -> & Hx & a & b
                               & -> & Ha & Hb).
      exists (x :: a ++ b), rest. split_and!; [done..|].
      exists x, a, b. done.
    + intros m rest (x & a & b & -> & Hx & Ha & Hb). apply Hc.
      exists x, (a ++ b). split_and!; [done..|]. by exists a, b.
  - pose proof (implements_one c _ _ IH) as [Hs1 Hc1].
    destruct IH as [Hs Hc]. split.
    + intros s n.
      destruct (seq_here [c] (match_here r) s) as [n'|] eqn:Hq.
      * intros [= <-].
        destruct (Hs1 _ _ Hq) as (m & rest & -> & <- & H).
        exists m, rest. split_and!; [done..|]. by right.
      * intros Hn. destruct (Hs _ _ Hn) as (m & rest & -> & <- & H).
        exists m, rest. split_and!; [done..|]. by left.
    + intros m rest [Hm | Hm].
      * destruct (seq_here [c] (match_here r) (m ++ rest)); eauto.
      * destruct (Hc1 m rest Hm) as [n ->]. eauto.
  - by apply implements_alt.
Qed.

End matcher.

(** ** Where the search stops *)

Section search.
Implicit Types (r : list atom) (s m : jsstring).

Lemma search_Some r s i n :
  search r s = Some (i, n) →
  (i ≤ length s)%nat ∧ match_here r (drop i s) = Some n ∧
  ∀ j, (j < i)%nat → match_here r (drop j s) = None.
Proof.
  revert i. induction s as [|x s IH]; intros i; cbn [search].
  - destruct (match_here r []) eqn:Hm; [|done]. intros [= <- <-].
    split_and!; [done..|]. intros j Hj. lia.
  - destruct (match_here r (x :: s)) eqn:Hm.
    + intros [= <- <-]. split_and!; [simpl; lia | done |]. intros j Hj. lia.
    + destruct (search r s) as [[i' n']|] eqn:Hs; [|done].
      intros [= <- <-]. destruct (IH _ eq_refl) as (Hi & Hn & Hj).
      split_and!; [simpl; lia | done |].
      intros [|j] Hlt; [done|]. apply Hj. lia.
Qed.

Lemma search_None r s j :
  search r s = None → (j ≤ length s)%nat → match_here r (drop j s) = None.
Proof.
  revert j. induction s as [|x s IH]; intros j; cbn [search].
  - destruct (match_here r []) eqn:Hm; [done|]. intros _ Hj.
    by rewrite drop_nil.
  - destruct (match_here r (x :: s)) eqn:Hm; [done|].
    destruct (search r s) as [[i' n']|] eqn:Hs; [done|]. intros _.
    destruct j as [|j]; [done|]. simpl. intros Hj. apply IH; [done|lia].
Qed.

Lemma occurs_match_here r s pre m :
  Occurs (Matches r) s pre m →
  is_Some (match_here r (drop (length pre) s)).
Proof.
  intros (post & -> & Hm). rewrite drop_app_length.
  by apply match_here_implements.
Qed.

Lemma occurs_length L s pre m :
  Occurs L s pre m → (length pre ≤ length s)%nat.
Proof. intros (post & -> & _). rewrite length_app. lia. Qed.

Lemma search_leftmost r s i n :
  search r s = Some (i, n) →
  Leftmost (Matches r) s (take i s) (take n (drop i s)).
Proof.
  intros (Hi & Hn & Hj)%search_Some.
  destruct (match_here_implements r) as [Hs _].
  destruct (Hs _ _ Hn) as (m & rest & E & <- & Hm). split.
  - exists rest. rewrite E, take_app_length, <- E.
    by rewrite take_drop.
  - intros pre' m' Hocc. rewrite length_take_le by done.
    destruct (decide (length pre' < i)%nat) as [Hlt|]; [|lia].
    apply occurs_match_here in Hocc as [? Hocc]. rewrite Hj in Hocc; done.
Qed.

Lemma search_None_occurs r s pre m :
  search r s = None → ¬ Occurs (Matches r) s pre m.
Proof.
  intros Hs Hocc. pose proof (occurs_length _ _ _ _ Hocc) as Hlen.
  apply occurs_match_here in Hocc as [? Hocc].
  rewrite (search_None _ _ _ Hs Hlen) in Hocc. done.
Qed.

(** Two first matches of the same kind are the same match. *)
Lemma FirstShortest_unique L s m1 m2 :
  FirstShortest L s m1 → FirstShortest L s m2 → m1 = m2.
Proof.
  intros (p1 & [Ho1 Hl1] & Hs1) (p2 & [Ho2 Hl2] & Hs2).
  pose proof (Hl1 _ _ Ho2). pose proof (Hl2 _ _ Ho1).
  assert (p1 = p2) as <-.
  { destruct Ho1 as (q1 & E1 & _), Ho2 as (q2 & E2 & _).
    rewrite E1 in E2. apply app_inj_1 in E2 as [? _]; [done|lia]. }
  pose proof (Hs1 _ Ho2). pose proof (Hs2 _ Ho1).
  destruct Ho1 as (q1 & E1 & _), Ho2 as (q2 & E2 & _).
  rewrite E1 in E2. apply app_inv_head in E2.
  apply app_inj_1 in E2 as [? _]; [done|lia].
Qed.

(** What [s.match(r)] returns for an unanchored pattern. *)
Lemma match_unanchored_Some (re : regex) s m :
  anchored re = false →
  match_ s re = Some m →
  ∃ i n, search (atoms re) s = Some (i, n) ∧ m = take n (drop i s).
Proof.
  unfold match_, exec. intros ->.
  destruct (search (atoms re) s) as [[i n]|]; [|done].
  intros [= <-]. by exists i, n.
Qed.

Lemma match_unanchored_None (re : regex) s :
  anchored re = false →
  match_ s re = None → search (atoms re) s = None.
Proof.
  unfold match_, exec. intros ->.
  by destruct (search (atoms re) s) as [[i n]|].
Qed.

End search.

(** ** Which match a quantifier picks *)

Section priority.
Implicit Types (c : cclass) (k : Continuation) (s m : jsstring).

(** A lazy star hands over to its continuation at the first place where
    the continuation succeeds. *)
Lemma lazy_star_first c k s n :
  lazy_star c k s = Some n →
  ∃ j n', n = (j + n')%nat ∧ (j ≤ length s)%nat
          ∧ k (drop j s) = Some n'
          ∧ ∀ j', (j' < j)%nat → k (drop j' s) = None.
Proof.
  revert n. induction s as [|x s IH]; intros n; simpl.
  - destruct (k []) eqn:Hk; [|done]. intros [= ->].
    exists 0%nat, n. split_and!; [done..|]. intros; lia.
  - destruct (k (x :: s)) eqn:Hk.
    + intros [= ->]. exists 0%nat, n. split_and!; [done|lia|done|].
      intros; lia.
    + destruct (c x); [|done].
      destruct (lazy_star c k s) as [n0|]; [|done]. intros [= <-].
      destruct (IH _ eq_refl) as (j & n' & -> & Hj & Hkj & Hfirst).
      exists (S j), n'. split_and!; [done|lia|done|].
      intros [|j'] Hlt; [done|]. apply Hfirst. lia.
Qed.

Lemma split_at_first (x : N) (a b a' b' : jsstring) :
  x ∉ a → x ∉ a' → a ++ x :: b = a' ++ x :: b' → a = a' ∧ b = b'.
Proof.
  revert a'. induction a as [|y a IH]; intros [|y' a'] Ha Ha'; simpl.
  - by intros [= ->].
  - intros [= -> _]. exfalso. apply Ha'. by left.
  - intros [= -> _]. exfalso. apply Ha. by left.
  - intros [= -> E]. apply not_elem_of_cons in Ha as [_ Ha].
    apply not_elem_of_cons in Ha' as [_ Ha'].
    destruct (IH _ Ha Ha' E) as [-> ->]. done.
Qed.

End priority.

(** ** The two complexity patterns *)

Section complexity.
Implicit Types (kw s m w : jsstring) (r : list atom).

Lemma InClass_ci k x : InClass (ci k) x ↔ x = k ∨ x = k - 32.
Proof.
  unfold InClass, ci. by rewrite orb_true_iff, !N.eqb_eq.
Qed.

Lemma InClass_chr k x : InClass (chr k) x ↔ x = k.
Proof. unfold InClass, chr. by rewrite N.eqb_eq. Qed.

Lemma InClass_notc k x : InClass (notc k) x ↔ x ≠ k.
Proof.
  unfold InClass, notc. rewrite negb_true_iff. by rewrite N.eqb_neq.
Qed.

Lemma Forall_notc k (l : jsstring) : Forall (InClass (notc k)) l ↔ k ∉ l.
Proof.
  rewrite Forall_forall. split.
  - intros H Hin. by apply H, InClass_notc in Hin.
  - intros H x Hin. apply InClass_notc. by intros ->.
Qed.

Lemma SameLetters_ci w kw : Forall2 InClass (ci <$> kw) w ↔ SameLetters w kw.
Proof.
  unfold SameLetters. rewrite Forall2_fmap_l. split; intros H.
  - apply Forall2_flip. eapply Forall2_impl; [done|].
    intros k x Hx. by apply InClass_ci.
  - apply Forall2_flip in H. eapply Forall2_impl; [done|].
    intros k x Hx. by apply InClass_ci.
Qed.

Lemma Matches_ones (cs : list cclass) r m :
  Matches ((One <$> cs) ++ r) m ↔
  ∃ w b, m = w ++ b ∧ Forall2 InClass cs w ∧ Matches r b.
Proof.
  revert m. induction cs as [|c cs IH]; intros m; simpl.
  - split.
    + intros H. exists [], m. split_and!; [done|constructor|done].
    + intros (w & b & -> & ->%Forall2_nil_inv_l & H). done.
  - split.
    + intros (x & m' & -> & Hx & (w & b & -> & Hw & Hb)%IH).
      exists (x :: w), b. split_and!; [done| |done]. by constructor.
    + intros (w & b & -> & Hw & Hb).
      apply Forall2_cons_inv_l in Hw as (x & w' & Hx & Hw' & ->).
      exists x, (w' ++ b). split_and!; [done..|]. apply IH.
      by exists w', b.
Qed.

Lemma match_here_ones (cs : list cclass) r s n :
  match_here ((One <$> cs) ++ r) s = Some n →
  ∃ w s' n', s = w ++ s' ∧ Forall2 InClass cs w
             ∧ match_here r s' = Some n' ∧ n = (length w + n')%nat.
Proof.
  revert s n. induction cs as [|c cs IH]; intros s n.
  - intros H. exists [], s, n. split_and!; [done|constructor|done..].
  - cbn [fmap list_fmap app match_here].
    intros (x & s' & n' & -> & Hx & Hk & ->)%seq_here_one.
    destruct (IH _ _ Hk) as (w & s'' & n'' & -> & Hw & Hk' & ->).
    exists (x :: w), s'', n''. split_and!; [done| |done..].
    by constructor.
Qed.

Lemma Matches_bigO t :
  Matches [One (ci 111); One (chr 40); Plus (notc 41); One (chr 41)] t
  ↔ BigO t.
Proof.
  cbn [Matches]. split.
  - intros (o & ? & -> & Ho%InClass_ci & p & ? & -> & ->%InClass_chr
            & x & a & ? & -> & Hx%InClass_notc & Ha%Forall_notc
            & q & ? & -> & ->%InClass_chr & ->).
    exists o, (x :: a). split_and!; [done|..].
    + destruct Ho as [-> | ->]; [by right | by left].
    + done.
    + by apply not_elem_of_cons.
  - intros (o & body & -> & Ho & Hne & Hbody).
    destruct body as [|x a]; [done|].
    apply not_elem_of_cons in Hbody as [Hx Ha].
    exists o, (40 :: x :: a ++ [41]). split_and!; [done|..].
    { apply InClass_ci. destruct Ho as [-> | ->]; [by right | by left]. }
    exists 40, (x :: a ++ [41]). split_and!; [done..|].
    exists x, a, [41]. split_and!; [done|by apply InClass_notc|
                                    by apply Forall_notc|].
    by exists 41, [].
Qed.

Lemma Matches_phrase kw m :
  Matches (phraseAtoms kw) m ↔ ComplexityPhrase kw m.
Proof.
  unfold phraseAtoms, ComplexityPhrase. rewrite Matches_ones.
  cbn [Matches]. split.
  - intros (w & ? & -> & Hw%SameLetters_ci & mid & t & -> & Hmid & Ht).
    apply Matches_bigO in Ht as (o & body & -> & Ho & Hne & Hbody).
    exists w, mid, o, body. split_and!; try done.
    eapply Forall_impl; [done|]. intros x. unfold InClass, dot.
    by rewrite negb_true_iff.
  - intros (w & mid & o & body & -> & Hw & Hmid & Ho & Hne & Hbody).
    exists w, (mid ++ [o; 40] ++ body ++ [41]).
    split_and!; [done|by apply SameLetters_ci|].
    exists mid, ([o; 40] ++ body ++ [41]). split_and!; [done|..].
    + eapply Forall_impl; [done|]. intros x. unfold InClass, dot.
      by rewrite negb_true_iff.
    + apply Matches_bigO. by exists o, body.
Qed.

(** The closing parenthesis of a match is the first one the text has
    after the opening one. *)
Lemma first_close (A body rest A' rest' : jsstring) :
  41 ∉ body →
  A ++ body ++ 41 :: rest = A' ++ 41 :: rest' →
  (length A ≤ length A')%nat →
  (length (A ++ body) ≤ length A')%nat.
Proof.
  intros Hbody E Hlen.
  destruct (decide (length A' < length (A ++ body))%nat) as [Hlt|]; [|lia].
  exfalso. apply Hbody.
  assert ((A ++ body ++ 41 :: rest) !! length A' = Some 41) as Hlook.
  { rewrite E. by rewrite list_lookup_middle. }
  rewrite app_assoc, lookup_app_l in Hlook by done.
  rewrite lookup_app_r in Hlook by done.
  by apply list_elem_of_lookup_2 in Hlook.
Qed.

Lemma phrase_shortest kw s n m' post' :
  match_here (phraseAtoms kw) s = Some n →
  s = m' ++ post' → ComplexityPhrase kw m' →
  (n ≤ length m')%nat.
Proof.
  intros (w & s' & n' & -> & Hw & Hk & ->)%match_here_ones E
         (w' & mid' & o' & body' & -> & Hw' & Hmid' & Ho' & Hne' & Hbody').
  apply SameLetters_ci in Hw'.
  pose proof (Forall2_length _ _ _ Hw) as Hlw.
  pose proof (Forall2_length _ _ _ Hw') as Hlw'.
  rewrite <- !app_assoc in E.
  apply app_inj_1 in E as [<- ->]; [|congruence].
  cbn [match_here] in Hk.
  apply lazy_star_first in Hk as (j & n'' & -> & Hj & Hk & Hfirst).
  destruct (match_here_implements
              [One (ci 111); One (chr 40); Plus (notc 41); One (chr 41)])
    as [Hsound Hcomplete].
  assert (j ≤ length mid')%nat as Hjm.
  { destruct (decide (length mid' < j)%nat) as [Hlt|]; [|lia].
    specialize (Hfirst _ Hlt). rewrite drop_app_length in Hfirst.
    destruct (Hcomplete ([o'; 40] ++ body' ++ [41]) post') as [? Hc].
    { apply Matches_bigO. by exists o', body'. }
    rewrite <- !app_assoc in Hc. simpl in *. congruence. }
  destruct (Hsound _ _ Hk) as (t & rest & E & <- & Ht).
  apply Matches_bigO in Ht as (o & body & -> & Ho & Hne & Hbody).
  set (s' := mid' ++ [o'; 40] ++ body' ++ [41] ++ post') in *.
  assert (s' = (take j s' ++ [o; 40]) ++ body ++ 41 :: rest) as E1.
  { rewrite <- (take_drop j s') at 1. rewrite E.
    by rewrite <- !app_assoc. }
  assert (s' = (mid' ++ [o'; 40] ++ body') ++ 41 :: post') as E2.
  { unfold s'. by rewrite <- !app_assoc. }
  rewrite E1 in E2.
  apply first_close in E2; [|done|].
  - rewrite !length_app, length_take_le in E2 by done.
    rewrite !length_app. simpl in *. lia.
  - rewrite !length_app, length_take_le by done. simpl. lia.
Qed.

Lemma Leftmost_ext (L L' : jsstring → Prop) s pre m :
  (∀ x, L x ↔ L' x) → Leftmost L s pre m → Leftmost L' s pre m.
Proof.
  intros HL [(post & E & Hm) Hleft]. split.
  - exists post. split; [done|]. by apply HL.
  - intros pre' m' (post' & E' & Hm'). apply (Hleft pre' m').
    exists post'. split; [done|]. by apply HL.
Qed.

Lemma match_phrase_Some (re : regex) kw content m :
  anchored re = false → atoms re = phraseAtoms kw →
  match_ content re = Some m →
  FirstShortest (ComplexityPhrase kw) content m.
Proof.
  intros Hanch Hatoms (i & n & Hs & ->)%match_unanchored_Some; [|done].
  rewrite Hatoms in Hs. exists (take i content). split.
  - eapply Leftmost_ext; [apply Matches_phrase|]. by apply search_leftmost.
  - intros m' (post' & E & Hm').
    apply search_Some in Hs as (Hi & Hn & _).
    assert (drop i content = m' ++ post') as Hd.
    { rewrite E at 1. rewrite drop_app_length'; [done|].
      by rewrite length_take_le. }
    pose proof (phrase_shortest _ _ _ _ _ Hn Hd Hm').
    rewrite length_take. lia.
Qed.

Lemma match_phrase_None (re : regex) kw content pre m :
  anchored re = false → atoms re = phraseAtoms kw →
  match_ content re = None →
  ¬ Occurs (ComplexityPhrase kw) content pre m.
Proof.
  intros Hanch Hatoms Hs%match_unanchored_None; [|done].
  rewrite Hatoms in Hs. intros (post & E & Hm).
  apply (search_None_occurs _ _ pre m Hs). exists post.
  split; [done|]. by apply Matches_phrase.
Qed.

Lemma match_phrase_iff (re : regex) kw content :
  anchored re = false → atoms re = phraseAtoms kw →
  (∀ m, match_ content re = Some m
        ↔ FirstShortest (ComplexityPhrase kw) content m) ∧
  (match_ content re = None
   ↔ ∀ pre m, ¬ Occurs (ComplexityPhrase kw) content pre m).
Proof.
  intros Hanch Hatoms. split.
  - intros m. split; [by apply match_phrase_Some|].
    intros Hfirst. destruct (match_ content re) as [m2|] eqn:Hm.
    + f_equal. eapply FirstShortest_unique; [|done].
      by eapply match_phrase_Some.
    + destruct Hfirst as (pre & [Hocc _] & _).
      by eapply match_phrase_None in Hocc.
  - split.
    + intros Hnone pre m. by eapply match_phrase_None.
    + intros Hno. destruct (match_ content re) as [m|] eqn:Hm; [|done].
      eapply match_phrase_Some in Hm as (pre & [Hocc _] & _); [|done..].
      by apply Hno in Hocc.
Qed.

End complexity.

(** The line rules as the specification words them. *)
#[global] Instance spec_ContainsCI_dec s p : Decision (spec_ContainsCI s p).
Proof. unfold spec_ContainsCI. apply _. Defined.

Definition spec_extractSuggestions (content : jsstring) : list jsstring :=
  take 5 (trim <$> filter (λ l, spec_ContainsCI l (lit "suggestion")
                                ∨ spec_ContainsCI l (lit "improve")
                                ∨ spec_ContainsCI l (lit "consider"))
                     (split 10 content)).

(** ** The line-keyword extractors *)

Section lines.
Implicit Types (content line : jsstring).

Lemma or3_true (a b c : bool) (A B C : Prop) :
  (a = true ↔ A) → (b = true ↔ B) → (c = true ↔ C) →
  a || b || c = true ↔ A ∨ B ∨ C.
Proof. rewrite !orb_true_iff. tauto. Qed.

Lemma suggestionLine_spec line :
  suggestionLine line = true ↔
  Contains line (lit "suggestion") ∨ Contains line (lit "improve")
  ∨ Contains line (lit "consider").
Proof. apply or3_true; apply includes_spec. Qed.

Lemma approachLine_spec line :
  approachLine line = true ↔
  Contains line (lit "approach") ∨ Contains line (lit "strategy")
  ∨ Contains line (lit "method").
Proof. apply or3_true; apply includes_spec. Qed.

Lemma fixLine_spec line :
  fixLine line = true ↔
  Contains line (lit "fix") ∨ Contains line (lit "change")
  ∨ Contains line (lit "replace").
Proof. apply or3_true; apply includes_spec. Qed.

Lemma collect_spec (cond : jsstring → bool) (P : jsstring → Prop)
    `{!∀ l, Decision (P l)} n content :
  (∀ l, cond l = true ↔ P l) →
  slice0 n (foldl (pushIf cond) [] (split 10 content))
  = take n (trim <$> filter P (split 10 content)).
Proof.
  intros HP. unfold slice0. rewrite foldl_pushIf. simpl.
  f_equal. f_equal. by apply list_filter_iff.
Qed.

(** C1, as amended: the three line-keyword extractors return the first 5,
    3 and 5 lines of the text, in text order and trimmed, that contain one
    of their keywords spelled in lower case; the match is case-sensitive. *)
Theorem line_extractors_case_sensitive content :
  IsLinesOf (split 10 content) content ∧
  extractSuggestions content
  = take 5 (trim <$> filter (λ l, Contains l (lit "suggestion")
                                  ∨ Contains l (lit "improve")
                                  ∨ Contains l (lit "consider"))
                       (split 10 content)) ∧
  extractApproach content
  = take 3 (trim <$> filter (λ l, Contains l (lit "approach")
                                  ∨ Contains l (lit "strategy")
                                  ∨ Contains l (lit "method"))
                       (split 10 content)) ∧
  extractFixes content
  = take 5 (trim <$> filter (λ l, Contains l (lit "fix")
                                  ∨ Contains l (lit "change")
                                  ∨ Contains l (lit "replace"))
                       (split 10 content)).
Proof.
  split; [apply split_lines|].
  unfold extractSuggestions, extractApproach, extractFixes. split_and!.
  - apply collect_spec, suggestionLine_spec.
  - apply collect_spec, approachLine_spec.
  - apply collect_spec, fixLine_spec.
Qed.

(** C1, as stated, fails: a line that has a keyword with a capital letter
    is a match for the specification and none for the code. *)
Lemma line_extractors_not_case_insensitive :
  let content := lit "Suggestion: use a hash map" in
  spec_extractSuggestions content = [content] ∧
  extractSuggestions content = [] ∧
  extractSuggestions content ≠ spec_extractSuggestions content.
Proof. split_and!; [by vm_compute..|]. by vm_compute. Qed.

End lines.

(** ** Roadmap phases *)

Lemma InClass_digit x : InClass digit x ↔ 48 ≤ x ≤ 57.
Proof.
  unfold InClass, digit. rewrite andb_true_iff, !N.leb_le. done.
Qed.

Lemma numbered_spec (line : jsstring) :
  is_Some (match_ line numberedRe) ↔ StartsNumbered line.
Proof.
  unfold match_, exec, numberedRe. cbn [anchored atoms].
  destruct (match_here_implements [Plus digit; One (chr 46)]) as [Hs Hc].
  split.
  - destruct (match_here _ line) as [n|] eqn:Hm; [intros _|by intros [? ?]].
    destruct (Hs _ _ Hm) as (m & rest & -> & _ & x & a & b & -> & Hx & Ha
                             & y & ? & -> & ->%InClass_chr & ->).
    exists (x :: a), rest. split_and!; [done| |].
    + constructor; [by apply InClass_digit|].
      eapply Forall_impl; [done|]. intros z. apply InClass_digit.
    + simpl. by rewrite <- app_assoc.
  - intros (ds & rest & Hne & Hds & ->).
    destruct ds as [|x a]; [done|]. inversion Hds as [|? ? Hx Ha]; subst.
    destruct (Hc (x :: a ++ [46]) rest) as [n Hn].
    { exists x, a, [46]. split_and!; [done|by apply InClass_digit| |].
      - eapply Forall_impl; [done|]. intros z. apply InClass_digit.
      - by exists 46, []. }
    replace ((x :: a) ++ [46] ++ rest) with ((x :: a ++ [46]) ++ rest)
      by (simpl; by rewrite <- app_assoc).
    rewrite Hn. by eexists.
Qed.

#[global] Instance StartsNumbered_dec line : Decision (StartsNumbered line).
Proof.
  refine (cast_if (decide (is_Some (match_ line numberedRe))));
    by rewrite <- numbered_spec.
Defined.

(** The phase rule with the lines collected verbatim, as the specification
    words it. *)
Definition spec_extractRoadmapPhases (content : jsstring) : list jsstring :=
  take 10 (filter (λ l, StartsNumbered l ∨ Contains l (lit "Phase")
                        ∨ Contains l (lit "Week"))
             (split 10 content)).

Lemma phaseLine_spec line :
  phaseLine line = true ↔
  StartsNumbered line ∨ Contains line (lit "Phase")
  ∨ Contains line (lit "Week").
Proof.
  apply or3_true; [|apply includes_spec..].
  rewrite bool_decide_eq_true. apply numbered_spec.
Qed.

(** C8, as amended: the phases are the first 10 lines of the text, in text
    order, that start with a decimal number and a period or contain Phase
    or Week spelled this way, each with the white space at its two ends
    removed. *)
Theorem extractRoadmapPhases_trimmed content :
  IsLinesOf (split 10 content) content ∧
  extractRoadmapPhases content
  = take 10 (trim <$> filter (λ l, StartsNumbered l
                                   ∨ Contains l (lit "Phase")
                                   ∨ Contains l (lit "Week"))
                        (split 10 content)).
Proof.
  split; [apply split_lines|].
  unfold extractRoadmapPhases. apply collect_spec, phaseLine_spec.
Qed.

(** C8, as stated, fails: an indented line is not collected verbatim. *)
Lemma extractRoadmapPhases_not_verbatim :
  let content := lit "  Phase 1: arrays  " in
  spec_extractRoadmapPhases content = [content] ∧
  extractRoadmapPhases content = [lit "Phase 1: arrays"] ∧
  extractRoadmapPhases content ≠ spec_extractRoadmapPhases content.
Proof. split_and!; [by vm_compute..|]. by vm_compute. Qed.

(** ** Complexity *)

(** C2: without the substring O( the result has no key; with it, [time] is
    the first match of the time pattern and [space] the first match of the
    space pattern, the shortest at its place, and a key is absent exactly
    when the text has no match of its pattern. *)
Theorem extractComplexity_first_matches content :
  (¬ Contains content (lit "O(") →
   extractComplexity content = {| time := None; space_ := None |}) ∧
  (Contains content (lit "O(") →
   (∀ m, time (extractComplexity content) = Some m
         ↔ FirstShortest (ComplexityPhrase (lit "time")) content m) ∧
   (time (extractComplexity content) = None
    ↔ ∀ pre m, ¬ Occurs (ComplexityPhrase (lit "time")) content pre m) ∧
   (∀ m, space_ (extractComplexity content) = Some m
         ↔ FirstShortest (ComplexityPhrase (lit "space")) content m) ∧
   (space_ (extractComplexity content) = None
    ↔ ∀ pre m, ¬ Occurs (ComplexityPhrase (lit "space")) content pre m)).
Proof.
  unfold extractComplexity. split.
  - intros Hno. rewrite <- includes_spec in Hno.
    by apply not_true_is_false in Hno as ->.
  - intros Hyes. apply includes_spec in Hyes as ->.
    destruct (match_phrase_iff timeRe (lit "time") content eq_refl eq_refl)
      as [Ht1 Ht2].
    destruct (match_phrase_iff spaceRe (lit "space") content eq_refl eq_refl)
      as [Hs1 Hs2].
    destruct (match_ content timeRe) as [t|],
             (match_ content spaceRe) as [sp|]; cbn [time space_];
      split_and!; done.
Qed.

Definition exampleReview : jsstring :=
  lit "Time complexity: O(n log n), Space complexity: O(n)".

Lemma extractComplexity_first_matches_witness :
  time (extractComplexity exampleReview)
  = Some (lit "Time complexity: O(n log n)") ∧
  FirstShortest (ComplexityPhrase (lit "time")) exampleReview
    (lit "Time complexity: O(n log n)") ∧
  space_ (extractComplexity exampleReview)
  = Some (lit "Space complexity: O(n)") ∧
  extractComplexity (lit "linear time, constant space")
  = {| time := None; space_ := None |}.
Proof.
  destruct (extractComplexity_first_matches exampleReview) as [_ H].
  destruct H as (Ht & _).
  { apply includes_spec. vm_compute. reflexivity. }
  split_and!.
  - vm_compute. reflexivity.
  - apply Ht. vm_compute. reflexivity.
  - vm_compute. reflexivity.
  - apply (extractComplexity_first_matches
             (lit "linear time, constant space")).
    rewrite <- includes_spec. vm_compute. discriminate.
Defined.

(** ** The handlers *)

Ltac run :=
  unfold post_code_review, post_roadmap, post_hint, post_debug,
    post_feedback, get_history, Problem_findById, User_findById,
    AIInteraction_findById, AIInteraction_new, save_new, save, deref,
    res_json, res_status_json, try_catch, effect, get, throw,
    mbind, M_bind, mret, M_ret; cbn beta iota zeta.

Section handlers.
Variables (env : Env) (userId : ObjectId).

Lemma tokensOf_spec u : tokensOf u = spec_tokens u.
Proof.
  unfold tokensOf, spec_tokens. destruct u as [[[n|]]|]; simpl; [|done..].
  by destruct (N.eqb_spec n 0).
Qed.

Lemma callOpenAI_run prompt w :
  callOpenAI env prompt w =
  match axios_post env prompt with
  | Some data =>
      match choices data with
      | c :: _ =>
          (Return {| content := c; completion_usage := usage data;
                     completion_time := now w + latency env prompt - now w |},
           afterCall env prompt w)
      | [] => (Throw (lit "Failed to get AI response"),
               afterCall env prompt w)
      end
  | None => (Throw (lit "Failed to get AI response"), afterCall env prompt w)
  end.
Proof.
  unfold callOpenAI, Date_now. run.
  destruct (axios_post env prompt) as [data|]; [|done].
  by destruct (choices data).
Qed.

(** C6: without the credential each of the four generation endpoints
    answers 500, service not configured; the handler returns and the
    world, with its trace of lookups, calls and writes, is as before. *)
Theorem unconfigured_service_first
    (cr : CodeReviewBody) (rm : RoadmapBody) (h : HintBody) (d : DebugBody)
    (w : World) :
  falsy (OPENAI_API_KEY env) = true →
  post_code_review env userId cr w = (Return notConfigured, w) ∧
  post_roadmap env userId rm w = (Return notConfigured, w) ∧
  post_hint env userId h w = (Return notConfigured, w) ∧
  post_debug env userId d w = (Return notConfigured, w).
Proof. intros Hkey. run. by rewrite Hkey. Qed.

(** C3, as amended: a code review or a hint for a problem that does not
    exist answers 404, problem not found, when the credential is
    configured, and 500, service not configured, when it is not; either
    way the stores are as before and the trace gains no completion call
    and no write, only the lookup of the problem in the first case. *)
Theorem missing_problem_no_side_effects
    (cr : CodeReviewBody) (h : HintBody) (w : World) :
  (cr_problemId cr ≫= λ i, problems w !! i) = None →
  (h_problemId h ≫= λ i, problems w !! i) = None →
  (falsy (OPENAI_API_KEY env) = false →
   post_code_review env userId cr w
   = (Return problemNotFound, log (ProblemFindById (cr_problemId cr)) w) ∧
   post_hint env userId h w
   = (Return problemNotFound, log (ProblemFindById (h_problemId h)) w)) ∧
  (falsy (OPENAI_API_KEY env) = true →
   post_code_review env userId cr w = (Return notConfigured, w) ∧
   post_hint env userId h w = (Return notConfigured, w)).
Proof.
  intros Hcr Hh. unfold mbind in Hcr, Hh.
  split; intros Hkey; run; rewrite Hkey; [|done].
  cbn [problems log]. by rewrite Hcr, Hh.
Qed.

End handlers.

Lemma unconfigured_service_first_witness :
  post_debug noService 1
    {| d_code := None; d_language := None; d_error := None;
       d_problemId := None |} noWorld
  = (Return notConfigured, noWorld).
Proof.
  apply (unconfigured_service_first noService 1
           {| cr_code := None; cr_language := None; cr_problemId := None |}
           {| rm_goals := None; rm_currentLevel := None;
              rm_timeCommitment := None; rm_preferredTopics := None |}
           {| h_problemId := None; h_currentCode := None;
              h_language := None |}).
  reflexivity.
Defined.

Lemma missing_problem_no_side_effects_witness :
  post_hint someService 1
    {| h_problemId := Some 7; h_currentCode := None; h_language := None |}
    noWorld
  = (Return problemNotFound, log (ProblemFindById (Some 7)) noWorld).
Proof.
  apply (missing_problem_no_side_effects someService 1
           {| cr_code := None; cr_language := None; cr_problemId := Some 7 |}
           {| h_problemId := Some 7; h_currentCode := None;
              h_language := None |} noWorld);
    reflexivity.
Defined.

(** C3, as stated, fails: without the credential the answer for a problem
    that does not exist is 500, not 404. *)
Lemma missing_problem_unconfigured_not_404 :
  let body := {| cr_code := Some (lit "x"); cr_language := Some (lit "js");
                 cr_problemId := Some 7 |} in
  problems noWorld !! 7 = None ∧
  post_code_review noService 1 body noWorld = (Return notConfigured, noWorld) ∧
  status notConfigured ≠ 404%nat.
Proof. split_and!; [done| by vm_compute | by vm_compute]. Qed.

Section generation.
Variables (env : Env) (userId : ObjectId).

Lemma fresh_interaction (w : World) :
  interactions w !! fresh (dom (interactions w)) = None.
Proof. apply not_elem_of_dom, is_fresh. Qed.

(** Inversion of a run that returned, one step of the program at a time. *)
Lemma bind_inv {A B} (m : M A) (f : A → M B) w b w2 :
  (m ≫= f) w = (Return b, w2) →
  ∃ a w1, m w = (Return a, w1) ∧ f a w1 = (Return b, w2).
Proof.
  unfold mbind, M_bind. destruct (m w) as [[a|e] w1]; [|done].
  intros H. by exists a, w1.
Qed.

Lemma try_catch_ok (m : M Response) msg w resp w' :
  try_catch m (λ _, res_status_json 500 (message msg)) w = (Return resp, w') →
  status resp = 200%nat →
  m w = (Return resp, w').
Proof.
  unfold try_catch. destruct (m w) as [[a|e] w1]; [done|].
  intros [= <- <-]. done.
Qed.

Lemma Problem_findById_inv id w a w' :
  Problem_findById id w = (Return a, w') →
  a = (id ≫= λ i, problems w !! i) ∧ w' = log (ProblemFindById id) w.
Proof. by intros [= <- <-]. Qed.

Lemma User_findById_inv id w a w' :
  User_findById id w = (Return a, w') →
  a = users w !! id ∧ w' = log (UserFindById id) w.
Proof. by intros [= <- <-]. Qed.

Lemma deref_inv {A} (x : option A) w a w' :
  deref x w = (Return a, w') → x = Some a ∧ w' = w.
Proof. destruct x; [by intros [= <- <-] | done]. Qed.

Lemma callOpenAI_inv prompt w r w' :
  callOpenAI env prompt w = (Return r, w') →
  ∃ data, axios_post env prompt = Some data ∧
          head (choices data) = Some (content r) ∧
          completion_usage r = usage data ∧
          w' = afterCall env prompt w.
Proof.
  rewrite callOpenAI_run.
  destruct (axios_post env prompt) as [data|]; [|done].
  destruct (choices data) as [|c cs] eqn:Hc; [done|].
  intros [= <- <-]. exists data. by rewrite Hc.
Qed.

Lemma record_inv (fields : AIInteraction) (body : Json) w resp w' :
  (interaction ← AIInteraction_new fields;
   _ ← save_new interaction;
   res_json body) w = (Return resp, w') →
  ∃ id i,
    interactions w !! id = None ∧
    interactions w' = <[id := i]> (interactions w) ∧
    trace w' = trace w ++ [InteractionSave id] ∧
    user i = user fields ∧ type i = type fields ∧
    response i = response fields ∧ tokens_used i = tokens_used fields ∧
    feedback i = feedback fields ∧
    resp = {| status := 200; json := body |}.
Proof.
  intros [= <- <-]. eexists _, _. split_and!; try done.
  apply fresh_interaction.
Qed.

Ltac step H :=
  let a := fresh "a" in
  let w1 := fresh "w" in
  let E := fresh "E" in
  apply bind_inv in H as (a & w1 & E & H);
  first
    [ apply Problem_findById_inv in E
    | apply User_findById_inv in E
    | apply deref_inv in E
    | apply callOpenAI_inv in E as (? & E) ];
  destruct_and?; simplify_eq.

Ltac recorded H lookup :=
  let id := fresh "id" in
  let i := fresh "i" in
  apply record_inv in H
    as (id & i & ? & ? & Htrace & ? & ? & ? & Htok & ? & ->);
  match goal with
  | Hpost : axios_post env ?p = Some ?data |- _ =>
      exists id, i, lookup, p, data
  end;
  cbn [afterCall tick log interactions trace user type response tokens_used
       feedback] in *;
  rewrite Htrace, Htok, tokensOf_spec, <- ?app_assoc;
  split_and!; try done; congruence.

(** C7: a generation request that succeeds has written exactly one
    interaction, and the interaction records 0 tokens when the reply
    carries no usage data or no total, and the reported total otherwise. *)
Theorem successful_generation_persists_one
    (cr : CodeReviewBody) (rm : RoadmapBody) (h : HintBody) (d : DebugBody)
    (w : World) :
  (∀ resp w', post_code_review env userId cr w = (Return resp, w') →
     status resp = 200%nat →
     PersistedOne env userId (lit "code_review") w w') ∧
  (∀ resp w', post_roadmap env userId rm w = (Return resp, w') →
     status resp = 200%nat →
     PersistedOne env userId (lit "roadmap") w w') ∧
  (∀ resp w', post_hint env userId h w = (Return resp, w') →
     status resp = 200%nat →
     PersistedOne env userId (lit "hint") w w') ∧
  (∀ resp w', post_debug env userId d w = (Return resp, w') →
     status resp = 200%nat →
     PersistedOne env userId (lit "debug_help") w w').
Proof.
  unfold PersistedOne. split_and!.
  - intros resp w' H Hok. apply try_catch_ok in H; [|done].
    cbn zeta in H. destruct (falsy (OPENAI_API_KEY env)).
    { injection H as <- <-. done. }
    step H. destruct (_ ≫= _) as [problem|]; [|injection H as <- <-; done].
    step H. recorded H (ProblemFindById (cr_problemId cr)).
  - intros resp w' H Hok. apply try_catch_ok in H; [|done].
    cbn zeta in H. destruct (falsy (OPENAI_API_KEY env)).
    { injection H as <- <-. done. }
    do 5 step H. recorded H (UserFindById userId).
  - intros resp w' H Hok. apply try_catch_ok in H; [|done].
    cbn zeta in H. destruct (falsy (OPENAI_API_KEY env)).
    { injection H as <- <-. done. }
    step H. destruct (_ ≫= _) as [problem|]; [|injection H as <- <-; done].
    step H. recorded H (ProblemFindById (h_problemId h)).
  - intros resp w' H Hok. apply try_catch_ok in H; [|done].
    cbn zeta in H. destruct (falsy (OPENAI_API_KEY env)).
    { injection H as <- <-. done. }
    do 2 step H. recorded H (ProblemFindById (d_problemId d)).
Qed.

End generation.

Lemma successful_generation_persists_one_witness :
  PersistedOne mentor 1 (lit "code_review") oneProblem
    (post_code_review mentor 1 reviewRequest oneProblem).2.
Proof.
  destruct (successful_generation_persists_one mentor 1 reviewRequest
              {| rm_goals := None; rm_currentLevel := None;
                 rm_timeCommitment := None; rm_preferredTopics := None |}
              {| h_problemId := None; h_currentCode := None;
                 h_language := None |}
              {| d_code := None; d_language := None; d_error := None;
                 d_problemId := None |} oneProblem) as [H _].
  eapply H; vm_compute; reflexivity.
Defined.

Section recorder.
Variables (env : Env) (userId : ObjectId).

(** C10: a roadmap request of a caller without a user record answers 500:
    failed to generate roadmap when the credential is configured, after
    the one lookup of the user, and service not configured when it is
    not; no completion call is made and no interaction is written. *)
Theorem roadmap_missing_user (rm : RoadmapBody) (w : World) :
  users w !! userId = None →
  (falsy (OPENAI_API_KEY env) = false →
   post_roadmap env userId rm w
   = (Return roadmapFailed, log (UserFindById userId) w)) ∧
  (falsy (OPENAI_API_KEY env) = true →
   post_roadmap env userId rm w = (Return notConfigured, w)).
Proof.
  intros Huser. split; intros Hkey; run; rewrite Hkey; [|done].
  cbn [users log]. rewrite Huser.
  by destruct (rm_goals rm), (rm_preferredTopics rm).
Qed.

Lemma post_feedback_saved id body i w :
  interactions w !! id = Some i → user i = userId →
  post_feedback userId id body w
  = (Return feedbackSaved, withFeedback id i body w).
Proof.
  intros Hi Hu. run. cbn [interactions log]. rewrite Hi.
  apply N.eqb_eq in Hu as ->. done.
Qed.

(** C4: feedback on an interaction that does not exist answers 404;
    feedback by a caller who does not own the interaction answers 403 and
    leaves the store as it was; otherwise the feedback field of the
    interaction, and nothing else in the store, is replaced by the three
    values submitted, and a second submission replaces the first. *)
Theorem attachFeedback_contract id (body body2 : FeedbackBody) (w : World) :
  (interactions w !! id = None →
   post_feedback userId id body w
   = (Return interactionNotFound, log (InteractionFindById id) w)) ∧
  (∀ i, interactions w !! id = Some i → user i ≠ userId →
   post_feedback userId id body w
   = (Return notAuthorized, log (InteractionFindById id) w) ∧
   interactions (log (InteractionFindById id) w) = interactions w) ∧
  (∀ i, interactions w !! id = Some i → user i = userId →
   ∃ w' i',
     post_feedback userId id body w = (Return feedbackSaved, w') ∧
     interactions w' = <[id := i']> (interactions w) ∧
     feedback i' = Some (feedbackOf body) ∧
     user i' = user i ∧ type i' = type i ∧ context i' = context i ∧
     query i' = query i ∧ response i' = response i ∧
     tokens_used i' = tokens_used i ∧ response_time i' = response_time i ∧
     createdAt i' = createdAt i ∧
     (∀ id', id' ≠ id → interactions w' !! id' = interactions w !! id') ∧
     ∃ w'' i'',
       post_feedback userId id body2 w' = (Return feedbackSaved, w'') ∧
       interactions w'' !! id = Some i'' ∧
       feedback i'' = Some (feedbackOf body2) ∧
       i'' = setFeedback (feedbackOf body2) i).
Proof.
  split_and!.
  - intros Hi. run. cbn [interactions log]. by rewrite Hi.
  - intros i Hi Hu. split; [|done]. run. cbn [interactions log]. rewrite Hi.
    apply N.eqb_neq in Hu as ->. done.
  - intros i Hi Hu.
    exists (withFeedback id i body w), (setFeedback (feedbackOf body) i).
    split_and!; try done.
    + by apply post_feedback_saved.
    + intros id' Hne. cbn [withFeedback interactions log store].
      by rewrite lookup_insert_ne.
    + exists (withFeedback id (setFeedback (feedbackOf body) i) body2
                (withFeedback id i body w)),
             (setFeedback (feedbackOf body2) i).
      split_and!; try done.
      * apply post_feedback_saved; [|done].
        cbn [withFeedback interactions log store]. apply lookup_insert_eq.
      * cbn [withFeedback interactions log store].
        by rewrite lookup_insert_eq.
Qed.

End recorder.

Lemma roadmap_missing_user_witness :
  post_roadmap someService 1
    {| rm_goals := Some [lit "interviews"]; rm_currentLevel := None;
       rm_timeCommitment := None; rm_preferredTopics := Some [] |} noWorld
  = (Return roadmapFailed, log (UserFindById 1) noWorld).
Proof.
  apply (roadmap_missing_user someService 1); reflexivity.
Defined.

Lemma attachFeedback_contract_witness :
  post_feedback 1 9 thumbsUp oneHint
  = (Return interactionNotFound, log (InteractionFindById 9) oneHint) ∧
  post_feedback 2 5 thumbsUp oneHint
  = (Return notAuthorized, log (InteractionFindById 5) oneHint) ∧
  ∃ w' i', post_feedback 1 5 thumbsUp oneHint = (Return feedbackSaved, w') ∧
           interactions w' = <[5 := i']> (interactions oneHint) ∧
           feedback i' = Some (feedbackOf thumbsUp).
Proof.
  split_and!.
  - apply (attachFeedback_contract 1 9 thumbsUp thumbsUp oneHint).
    reflexivity.
  - apply (attachFeedback_contract 2 5 thumbsUp thumbsUp oneHint) with aHint;
      [reflexivity | discriminate].
  - destruct (attachFeedback_contract 1 5 thumbsUp thumbsUp oneHint)
      as (_ & _ & H).
    destruct (H aHint) as (w' & i' & H1 & H2 & H3 & _);
      [reflexivity | reflexivity |].
    exists w', i'. split_and!; assumption.
Defined.

(** ** History *)

Section history.
Variable userId : ObjectId.

Lemma matchesQuery_spec ty i :
  matchesQuery userId ty i = true ↔ Selects userId ty i.
Proof.
  unfold matchesQuery, Selects. rewrite andb_true_iff, N.eqb_eq.
  destruct ty as [t|].
  - rewrite bool_decide_eq_true. split; intros [Hu Ht]; (split; [done|]).
    + by intros ? [= <-].
    + by apply Ht.
  - split; intros [Hu _]; (split; [done|]); done.
Qed.

#[global] Instance newerFirst_trans : Transitive newerFirst.
Proof. unfold newerFirst. intros i j k ? ?. lia. Qed.

#[global] Instance newerFirst_total : Total newerFirst.
Proof. unfold newerFirst. intros i j. lia. Qed.

Lemma filter_snd {A B} (P : B → Prop) (Q : A * B → Prop)
    `{!∀ x, Decision (P x)} `{!∀ x, Decision (Q x)} (l : list (A * B)) :
  (∀ kv, Q kv ↔ P kv.2) →
  filter P l.*2 = (filter Q l).*2.
Proof.
  intros HQ. induction l as [|[a b] l IH]; [done|].
  rewrite fmap_cons, !filter_cons. cbn [snd].
  destruct (decide (P b)) as [Hb|Hb], (decide (Q (a, b))) as [Hab|Hab].
  - by rewrite fmap_cons, IH.
  - destruct Hab. by apply HQ.
  - destruct Hb. by apply (HQ (a, b)).
  - done.
Qed.

Lemma Math_ceil_div_bounds (total : nat) (limit : positive) :
  (Z.of_nat total ≤ Math_ceil_div total limit * Z.pos limit
   < Z.of_nat total + Z.pos limit)%Z.
Proof.
  unfold Math_ceil_div, Qceiling, Qfloor. cbn [Qopp Qnum Qden].
  pose proof (Z.div_mod (- Z.of_nat total) (Z.pos limit)) as Hdm.
  pose proof (Z.mod_pos_bound (- Z.of_nat total) (Z.pos limit)) as Hb.
  lia.
Qed.

Lemma Math_ceil_div_45_20 : Math_ceil_div 45 20 = 3%Z.
Proof. reflexivity. Qed.

(** C5: the history answers 200 with a page of the caller's interactions,
    of the type asked for when one is: all of them sorted newest first,
    cut to the page asked for; with their number and the number of pages
    that hold them. With 45 of them and 20 to a page there are 3 pages and
    the third has 5. *)
Theorem history_page (q : HistoryQuery) (w : World) :
  let page := default 1%positive (q_page q) in
  let limit := default 20%positive (q_limit q) in
  let ty := if falsy (q_type q) then None else q_type q in
  ∃ items totalPages total docs sorted,
    get_history userId q w
    = (Return {| status := 200;
                 json := history_json items totalPages page total |},
       log (InteractionCount userId ty) (log (InteractionFind userId ty) w)) ∧
    NoDup docs.*1 ∧
    (∀ id i, (id, i) ∈ docs
             ↔ interactions w !! id = Some i ∧ Selects userId ty i) ∧
    sorted ≡ₚ docs.*2 ∧
    StronglySorted newerFirst sorted ∧
    item <$> items
    = take (Pos.to_nat limit)
        (drop ((Pos.to_nat page - 1) * Pos.to_nat limit) sorted) ∧
    total = length docs ∧
    (Z.of_nat total ≤ totalPages * Z.pos limit
     < Z.of_nat total + Z.pos limit)%Z ∧
    (total = 45%nat → limit = 20%positive →
     totalPages = 3%Z ∧ (page = 3%positive → length items = 5%nat)).
Proof.
  intros page limit ty.
  set (docs := filter (λ kv : ObjectId * AIInteraction,
                         matchesQuery userId ty kv.2 = true)
                 (map_to_list (interactions w))).
  set (sorted := merge_sort newerFirst (selected userId ty w)).
  set (page_ := take (Pos.to_nat limit * 1)
                  (drop ((Pos.to_nat page - 1) * Pos.to_nat limit) sorted)).
  assert (selected userId ty w = docs.*2) as Hsel.
  { unfold selected, docs. by apply filter_snd. }
  exists (populate w <$> page_), (Math_ceil_div (length (selected userId ty w)) limit),
    (length (selected userId ty w)), docs, sorted.
  assert (length (selected userId ty w) = length docs) as Hlen.
  { by rewrite Hsel, length_fmap. }
  assert (item <$> (populate w <$> page_)
          = take (Pos.to_nat limit)
              (drop ((Pos.to_nat page - 1) * Pos.to_nat limit) sorted))
    as Hitems.
  { rewrite <- list_fmap_compose. unfold page_.
    rewrite Nat.mul_1_r. apply list_fmap_id. }
  split_and!.
  - done.
  - unfold docs. apply (sublist_NoDup _ (map_to_list (interactions w)).*1).
    + apply NoDup_fst_map_to_list.
    + apply fmap_sublist, sublist_filter.
  - intros id i. unfold docs. rewrite list_elem_of_filter, elem_of_map_to_list.
    cbn [snd]. rewrite matchesQuery_spec. tauto.
  - unfold sorted. rewrite merge_sort_Permutation. by rewrite Hsel.
  - apply StronglySorted_merge_sort; apply _.
  - done.
  - done.
  - apply Math_ceil_div_bounds.
  - apply Math_ceil_div_bounds.
  - intros Htotal Hlimit. rewrite Htotal, Hlimit.
    split; [apply Math_ceil_div_45_20|].
    intros Hpage. rewrite <- (length_fmap item), Hitems, Hpage, Hlimit.
    rewrite length_take, length_drop.
    assert (length sorted = 45%nat) as ->; [|reflexivity].
    unfold sorted. by rewrite merge_sort_Permutation.
Qed.

End history.

Lemma history_page_witness :
  ∃ items w',
    get_history 1 thirdPage busyWorld
    = (Return {| status := 200; json := history_json items 3 3 45 |}, w') ∧
    length items = 5%nat ∧
    createdAt ∘ item <$> items = [1004; 1003; 1002; 1001; 1000].
Proof.
  destruct (history_page 1 thirdPage busyWorld)
    as (items & totalPages & total & docs & sorted & Hrun & _ & _ & _ & _
        & _ & _ & _ & H45).
  assert (∃ its tp, get_history 1 thirdPage busyWorld
                    = (Return {| status := 200;
                                 json := history_json its tp 3 45 |},
                       log (InteractionCount 1 None)
                         (log (InteractionFind 1 None) busyWorld)) ∧
                    createdAt ∘ item <$> its = [1004; 1003; 1002; 1001; 1000])
    as (its & tp & Hc & Hts).
  { eexists _, _. split; vm_compute; reflexivity. }
  rewrite Hrun in Hc. injection Hc as -> -> ->.
  destruct (H45 eq_refl eq_refl) as [-> Hlen].
  exists its, (log (InteractionCount 1 None)
                 (log (InteractionFind 1 None) busyWorld)).
  split_and!; [exact Hrun | by apply Hlen | exact Hts].
Defined.

(** ** Prompts *)

Section prompts.

Lemma blank_lit (g : jsstring) :
  forallb isWhiteSpace g = true → Blank g.
Proof.
  induction g as [|x g IH]; simpl; [constructor|].
  intros [Hx Hg]%andb_true_iff. constructor; [done | by apply IH].
Qed.

Ltac laid_out gaps :=
  exists gaps; split_and!;
  [ reflexivity
  | repeat first [apply Forall_nil_2 | apply Forall_cons_2; [apply blank_lit; vm_compute; reflexivity|]]
  | unfold spec_codeReviewSections, spec_roadmapSections, spec_hintSections,
      spec_debugSections, codeReviewPrompt, roadmapPrompt, hintPrompt,
      debugPrompt, fenced, currentAttempt;
    repeat match goal with
      | |- context [Number_toString ?x] => generalize (Number_toString x); intro
      end;
    cbn -[lit dquote nl tail_gap]; rewrite <- ?app_assoc; vm_compute;
    reflexivity ].

Lemma codeReview_laid_out language code problem :
  LaidOut (spec_codeReviewSections (str language) (str code) (title problem)
             (stripTags (description problem)))
    (codeReviewPrompt language code problem).
Proof.
  laid_out [nl; nl ++ nl; nl ++ nl; nl ++ nl; nl; nl; nl; nl; nl; nl ++ nl;
            tail_gap].
Qed.

Lemma roadmap_laid_out currentLevel timeCommitment goals topics user :
  LaidOut (spec_roadmapSections (str currentLevel) (str timeCommitment)
             (join (lit ", ") goals) (join (lit ", ") topics)
             (Number_toString (totalSolved (stats user)))
             (Number_toString (rating (stats user))))
    (roadmapPrompt currentLevel timeCommitment goals topics user).
Proof.
  laid_out [nl; nl ++ nl; nl; nl; nl; nl; nl; nl; nl ++ nl; nl; nl; nl; nl;
            nl; nl ++ nl; tail_gap].
Qed.

Lemma hint_laid_out problem currentCode language :
  LaidOut (spec_hintSections (title problem)
             (stripTags (description problem)) (difficulty problem)
             (str language) currentCode)
    (hintPrompt problem currentCode language).
Proof.
  destruct currentCode as [[|c code]|].
  - laid_out [nl; nl ++ nl; nl; nl; nl ++ nl ++ nl ++ nl; nl; nl; nl; nl;
              nl ++ nl; tail_gap].
  - laid_out [nl; nl ++ nl; nl; nl; nl ++ nl; nl ++ nl; nl; nl; nl; nl;
              nl ++ nl; tail_gap].
  - laid_out [nl; nl ++ nl; nl; nl; nl ++ nl ++ nl ++ nl; nl; nl; nl; nl;
              nl ++ nl; tail_gap].
Qed.

Lemma debug_laid_out language code error problem :
  LaidOut (spec_debugSections (str language) (str code) (str error)
             ((λ p, (title p, stripTags (description p))) <$> problem))
    (debugPrompt language code error problem).
Proof.
  destruct problem as [problem|].
  - laid_out [nl; nl ++ nl; nl; nl ++ nl; nl ++ nl; nl ++ nl; nl; nl; nl; nl;
              nl ++ nl; tail_gap].
  - laid_out [nl; nl ++ nl ++ nl ++ nl ++ nl; nl ++ nl; nl ++ nl; nl; nl; nl;
              nl; nl ++ nl; tail_gap].
Qed.

End prompts.

(** ** Stripping tags *)

Section tags.
Implicit Types (s t out : jsstring).

Lemma Matches_tag t : Matches (atoms tagRe) t ↔ BracketSpan t.
Proof.
  unfold tagRe, BracketSpan. cbn [atoms Matches]. split.
  - intros (x & ? & -> & ->%InClass_chr & a & ? & -> & Ha%Forall_notc
            & y & ? & -> & ->%InClass_chr & ->).
    by exists a.
  - intros (inner & -> & Hinner).
    exists 60, (inner ++ [62]). split_and!; [done..|].
    exists inner, [62]. split_and!; [done|by apply Forall_notc|].
    by exists 62, [].
Qed.

Lemma BracketSpan_length t : BracketSpan t → (2 ≤ length t)%nat.
Proof. intros (inner & -> & _). rewrite !length_app. simpl. lia. Qed.

Lemma remove_go_skip r (a b : jsstring) :
  remove_go r (length a) (a ++ b) = remove_go r 0 b.
Proof. induction a as [|x a IH]; [by destruct b|]. simpl. apply IH. Qed.

(** One step of the removal: a tag at the front goes, anything else
    stays. *)
Lemma stripTags_step x s :
  (∃ t rest, x :: s = t ++ rest ∧ BracketSpan t
             ∧ stripTags (x :: s) = stripTags rest) ∨
  (stripTags (x :: s) = x :: stripTags s ∧
   ∀ t rest, x :: s = t ++ rest → ¬ BracketSpan t).
Proof.
  unfold stripTags, removeAll. cbn [remove_go].
  destruct (match_here_implements (atoms tagRe)) as [Hs Hc].
  destruct (match_here (atoms tagRe) (x :: s)) as [n|] eqn:Hm.
  - destruct (Hs _ _ Hm) as (t & rest & E & <- & Ht%Matches_tag).
    pose proof (BracketSpan_length _ Ht) as Hlen.
    destruct t as [|y t]; [simpl in Hlen; lia|]. left.
    exists (y :: t), rest. split_and!; [done..|].
    injection E as <- ->. cbn [length]. apply remove_go_skip.
  - right. split; [done|]. intros t rest E Ht%Matches_tag.
    destruct (Hc t rest Ht) as [n Hn]. rewrite <- E in Hn. congruence.
Qed.

Lemma stripTags_nil : stripTags [] = [].
Proof. reflexivity. Qed.

Lemma stripTags_deleted s : SpansDeleted s (stripTags s).
Proof.
  remember (length s) as n eqn:Hn. revert s Hn.
  induction (lt_wf n) as [n _ IH]. intros s ->.
  destruct s as [|x s]; [constructor|].
  destruct (stripTags_step x s) as [(t & rest & E & Ht & ->) | [-> Hno]].
  - rewrite E. apply sd_span; [done|]. eapply IH; [|done].
    pose proof (BracketSpan_length _ Ht). rewrite E, length_app. lia.
  - apply sd_keep; [done|]. eapply IH; [|done]. simpl. lia.
Qed.

Lemma SpansDeleted_elem s out x : SpansDeleted s out → x ∈ out → x ∈ s.
Proof.
  induction 1 as [|t s out _ _ IH|y s out _ _ IH]; [done| |].
  - intros Hx. apply elem_of_app. right. by apply IH.
  - rewrite !elem_of_cons. intros [-> | Hx]; [by left | right; by apply IH].
Qed.

Lemma stripTags_free s : SpanFree (stripTags s).
Proof.
  remember (length s) as n eqn:Hn. revert s Hn.
  induction (lt_wf n) as [n _ IH]. intros s ->.
  destruct s as [|x s].
  - intros pre t (post & E & Ht). pose proof (BracketSpan_length _ Ht) as Hl.
    rewrite stripTags_nil in E. apply (f_equal length) in E.
    rewrite !length_app in E. simpl in E. lia.
  - destruct (stripTags_step x s) as [(t & rest & E & Ht & ->) | [-> Hno]].
    + eapply IH; [|done]. pose proof (BracketSpan_length _ Ht).
      rewrite E, length_app. lia.
    + intros pre t (post & E & Ht). destruct pre as [|p pre].
      * destruct Ht as (inner & -> & Hinner). injection E as -> E.
        assert (62 ∈ s) as Hclose.
        { apply (SpansDeleted_elem _ _ _ (stripTags_deleted s)).
          rewrite E. rewrite <- app_assoc. apply elem_of_app. right.
          by left. }
        apply list_elem_of_split_l in Hclose as (a & b & -> & Ha).
        apply (Hno (60 :: a ++ [62]) b).
        -- simpl. by rewrite <- app_assoc.
        -- by exists a.
      * injection E as -> E.
        apply (IH (length s)) with (s := s) (pre := pre) (t := t);
          [simpl; lia | done |]. by exists post.
Qed.

(** Text without an opening angle bracket is left as it is. *)
Lemma stripTags_plain s : 60 ∉ s → stripTags s = s.
Proof.
  induction s as [|x s IH]; [done|].
  intros [Hx Hs]%not_elem_of_cons.
  destruct (stripTags_step x s) as [(t & rest & E & Ht & _) | [-> _]].
  - destruct Ht as (inner & -> & _). by injection E as ->.
  - by rewrite IH.
Qed.

(** A run ends at the first closing bracket. *)
Lemma span_first inner inner' rest rest' :
  62 ∉ inner → 62 ∉ inner' →
  inner ++ 62 :: rest = inner' ++ 62 :: rest' →
  inner = inner' ∧ rest = rest'.
Proof.
  revert inner'.
  induction inner as [|x inner IH]; intros [|y inner'] H1 H2 E;
    simplify_eq/=.
  - done.
  - destruct H2. by left.
  - destruct H1. by left.
  - apply not_elem_of_cons in H1 as [? ?], H2 as [? ?].
    destruct (IH inner') as [-> ->]; done.
Qed.

Lemma stripTags_span t rest :
  BracketSpan t → stripTags (t ++ rest) = stripTags rest.
Proof.
  intros (inner & -> & Hinner). cbn [app].
  destruct (stripTags_step 60 ((inner ++ [62]) ++ rest))
    as [(t' & rest' & E & (inner' & -> & Hinner') & ->) | [_ Hno]].
  - cbn [app] in E. injection E as E. rewrite <- !app_assoc in E.
    by destruct (span_first _ _ _ _ Hinner Hinner' E) as [_ ->].
  - destruct (Hno (60 :: inner ++ [62]) rest); [done | by exists inner].
Qed.

Lemma stripTags_keep x s : x ≠ 60 → stripTags (x :: s) = x :: stripTags s.
Proof.
  intros Hx.
  destruct (stripTags_step x s)
    as [(t & rest & E & (inner & -> & _) & _) | [-> _]]; [|done].
  by injection E as ->.
Qed.

End tags.

(** ** Runs between brackets and the tags of HTML *)

Section html.
Implicit Types (s t inner rest : jsstring) (st : TagState).

Lemma alpha_not_close x : asciiAlpha x = true → x ≠ 62.
Proof. by intros H ->. Qed.

(** Inside a tag of simple markup the next closing bracket ends the
    tag, and nothing is emitted up to it. *)
Lemma tag_closes st s :
  insideTag st = true → simple_from st s = true →
  ∃ inner rest, s = inner ++ 62 :: rest ∧ (62 ∉ inner) ∧
    withoutTags_from st s = withoutTags_from Data rest ∧
    simple_from Data rest = true.
Proof.
  revert st. induction s as [|x s IH]; intros st Hst Hs.
  { by destruct st. }
  cbn [simple_from] in Hs. apply andb_true_iff in Hs as [Hx Hs].
  destruct (decide (x = 62)) as [->|Hne].
  - exists [], s. split_and!; [done|apply not_elem_of_nil| |].
    + cbn [withoutTags_from]. by destruct st.
    + by destruct st.
  - assert ((x =? 62) = false) as Hb by by apply N.eqb_neq.
    assert (insideTag (step st x).1 = true ∧ (step st x).2 = [])
      as [Hin Hout].
    { destruct st; try done; cbn [step]; unfold attribute; rewrite ?Hb;
        repeat case_match; by cbn. }
    destruct (IH _ Hin Hs) as (inner & rest & -> & Hinner & Hw & Hr).
    exists (x :: inner), rest.
    split_and!; [done| |by cbn [withoutTags_from]; rewrite Hout|done].
    by apply not_elem_of_cons.
Qed.

Lemma stripTags_simple s :
  simpleMarkup s = true → stripTags s = spec_withoutTags s.
Proof.
  unfold simpleMarkup, spec_withoutTags.
  remember (length s) as n eqn:Hn. revert s Hn.
  induction (lt_wf n) as [n _ IH]. intros s -> Hs.
  destruct s as [|x s]; [done|].
  cbn [simple_from bracketsAsTags andb] in Hs.
  destruct (decide (x = 60)) as [->|Hx].
  - assert (∃ name inner rest,
              s = name ++ inner ++ 62 :: rest ∧ (62 ∉ name ++ inner) ∧
              withoutTags_from Data (60 :: s) = withoutTags_from Data rest ∧
              simple_from Data rest = true) as
      (name & inner & rest & -> & Hinner & -> & Hr).
    { assert (step Data 60 = (TagOpen, [])) as Hopen by done.
      rewrite Hopen in Hs. cbn [fst] in Hs.
      cbn [withoutTags_from]. rewrite Hopen. cbn [fst snd app].
      destruct s as [|y s]; [done|].
      cbn [simple_from bracketsAsTags] in Hs.
      apply andb_true_iff in Hs as [Hy Hs].
      cbn [withoutTags_from]. cbn [step] in *.
      destruct (asciiAlpha y) eqn:Ha.
      - cbn [fst snd app] in *.
        destruct (tag_closes TagName s eq_refl Hs)
          as (inner & rest & -> & Hinner & -> & Hr).
        exists [y], inner, rest. split_and!; [done| |done..].
        apply alpha_not_close in Ha. apply not_elem_of_cons. by split.
      - cbn [orb] in Hy. apply N.eqb_eq in Hy as ->.
        change (47 =? 47) with true in *. cbn [fst snd app] in *.
        destruct s as [|z s]; [done|].
        cbn [simple_from bracketsAsTags] in Hs.
        apply andb_true_iff in Hs as [Hz Hs].
        cbn [withoutTags_from]. cbn [step] in *. rewrite Hz in *.
        cbn [fst snd app] in *.
        destruct (tag_closes TagName s eq_refl Hs)
          as (inner & rest & -> & Hinner & -> & Hr).
        exists [47; z], inner, rest. split_and!; [done| |done..].
        apply alpha_not_close in Hz.
        apply not_elem_of_cons. split; [done|].
        apply not_elem_of_cons. by split. }
    rewrite <- (IH (length rest)) with (s := rest);
      [|simpl; rewrite !length_app; simpl; lia|done..].
    replace (60 :: name ++ inner ++ 62 :: rest)
      with ((60 :: (name ++ inner) ++ [62]) ++ rest)
      by (simpl; by rewrite <- !app_assoc).
    apply stripTags_span. by exists (name ++ inner).
  - assert (step Data x = (Data, [x])) as Hstep.
    { cbn [step]. unfold asText. by apply N.eqb_neq in Hx as ->. }
    rewrite Hstep in Hs. cbn [withoutTags_from]. rewrite Hstep.
    cbn [fst snd app] in *.
    rewrite stripTags_keep by done. f_equal.
    by apply (IH (length s)) with (s := s); [simpl; lia|..].
Qed.

End html.

(** ** Whole numbers in a template *)

Section integers.
Import NumberToString.

Lemma pow10_integer q : (0 ≤ q)%Z → (10 ^ q == inject_Z (10 ^ q))%Q.
Proof. intros Hq. symmetry. apply (Zpower_Qpower 10 q Hq). Qed.

Lemma real_integer n : (real n 0 == inject_Z (Z.of_N n))%Q.
Proof. unfold real. change (2 ^ 0)%Q with 1%Q. ring. Qed.

Lemma Qltb_spec a b : Qltb a b = true ↔ (a < b)%Q.
Proof.
  unfold Qltb. rewrite negb_true_iff, <- not_true_iff_false, Qle_bool_iff.
  split; [apply Qnot_le_lt | apply Qlt_not_le].
Qed.

Lemma half_bound z : (z ≤ -1)%Z → (0 < 2 ^ z ∧ 2 ^ z <= 1 # 2)%Q.
Proof.
  intros Hz. split; [by apply Qpower_0_lt|].
  change (1 # 2)%Q with (2 ^ (-1))%Q. by apply Qpower_le_compat_l.
Qed.

Lemma ulp_integer n : 0 < n < 2 ^ 53 → (ulp n 0 ≤ 0)%Z.
Proof.
  intros [H0 H53]. unfold ulp.
  assert (Z.log2 (Z.of_N n) < 53)%Z; [|lia].
  apply Z.log2_lt_pow2; lia.
Qed.

(** Of the integers only [n] itself has the Number value [n]. *)
Lemma roundsTo_integer n w v :
  0 < n < 2 ^ 53 → (v == inject_Z w)%Q →
  roundsTo n 0 v = (w =? Z.of_N n)%Z.
Proof.
  intros Hn Hv. unfold roundsTo.
  pose proof (ulp_integer n Hn) as HE.
  pose proof (real_integer n) as Hx.
  destruct (half_bound (ulp n 0 - 1)) as [Ha0 Ha1]; [lia|].
  destruct (half_bound (ulp n 0 - 2)) as [Hb0 Hb1]; [lia|].
  set (above := (2 ^ (ulp n 0 - 1))%Q) in *.
  match goal with
  | |- context [if ?c then ?b else above] =>
      set (below := if c then b else above)
  end.
  assert (0 < below ∧ below <= 1 # 2)%Q as [Hc0 Hc1].
  { unfold below. by destruct (_ && _). }
  clearbody below above. clear Hb0 Hb1.
  destruct (Z.eqb_spec w (Z.of_N n)) as [->|Hne].
  - destruct (Z.even _);
      rewrite andb_true_iff, ?Qle_bool_iff, ?Qltb_spec; split; lra.
  - assert (inject_Z w <= inject_Z (Z.of_N n) - 1
            ∨ inject_Z (Z.of_N n) + 1 <= inject_Z w)%Q as Hfar.
    { destruct (Z.lt_total w (Z.of_N n)) as [Hlt|[?|Hgt]]; [|done|].
      - left. assert (w ≤ Z.of_N n + -1)%Z as Hle by lia.
        rewrite Zle_Qle, inject_Z_plus in Hle. exact Hle.
      - right. assert (Z.of_N n + 1 ≤ w)%Z as Hle by lia.
        rewrite Zle_Qle, inject_Z_plus in Hle. exact Hle. }
    destruct (Z.even _); apply andb_false_iff;
      rewrite <- !not_true_iff_false, ?Qle_bool_iff, ?Qltb_spec;
      destruct Hfar; [left|right|left|right]; lra.
Qed.

Lemma Qfloor_integer n q :
  (0 ≤ q)%Z → Qfloor (real n 0 / 10 ^ q) = (Z.of_N n / 10 ^ q)%Z.
Proof.
  intros Hq.
  assert (0 < 10 ^ q)%Z as Hpos by (apply Z.pow_pos_nonneg; lia).
  destruct (10 ^ q)%Z as [|p|p] eqn:Hp; try lia.
  transitivity (Qfloor (Z.of_N n # p)); [|done].
  apply Qfloor_comp.
  rewrite real_integer, pow10_integer, Hp by done.
  symmetry. apply Qmake_Qdiv.
Qed.

(** The search finds the number of digits of [n]. *)
Lemma magnitude_integer n fuel start :
  (1 ≤ start)%Z → (10 ^ (start - 1) ≤ Z.of_N n)%Z →
  (Z.of_N n < 10 ^ (start + Z.of_nat fuel))%Z →
  let K := magnitude fuel start (real n 0) in
  (start ≤ K)%Z ∧ (10 ^ (K - 1) ≤ Z.of_N n < 10 ^ K)%Z.
Proof.
  revert start. induction fuel as [|fuel IH]; intros start Hs Hlo Hhi.
  { cbn [magnitude]. rewrite Z.add_0_r in Hhi. lia. }
  cbn [magnitude].
  destruct (Qle_bool (10 ^ start) (real n 0)) eqn:Hle.
  - apply Qle_bool_iff in Hle.
    rewrite real_integer, pow10_integer, <- Zle_Qle in Hle by lia.
    destruct (IH (start + 1)%Z) as [? ?]; [lia| | |].
    + by replace (start + 1 - 1)%Z with start by lia.
    + by replace (start + 1 + Z.of_nat fuel)%Z
        with (start + Z.of_nat (S fuel))%Z by lia.
    + cbv zeta. split; [lia|done].
  - apply not_true_iff_false in Hle. rewrite Qle_bool_iff in Hle.
    rewrite real_integer, pow10_integer, <- Zle_Qle in Hle by lia.
    cbv zeta. lia.
Qed.

Lemma lit_app a b : lit (a +:+ b) = lit a ++ lit b.
Proof.
  unfold lit. rewrite <- fmap_app. f_equal.
  induction a as [|c a IH]; [done|].
  change (c :: String.list_ascii_of_string (a +:+ b)
          = c :: (String.list_ascii_of_string a
                  ++ String.list_ascii_of_string b)).
  by f_equal.
Qed.

Lemma pretty_N_go_app x s t :
  pretty_N_go x (s +:+ t) = pretty_N_go x s +:+ t.
Proof.
  revert s. induction (N.lt_wf_0 x) as [x _ IH]; intros s.
  assert (x = 0 ∨ 0 < x) as [->|Hx] by lia; [done|].
  rewrite (pretty_N_go_step x (s +:+ t)), (pretty_N_go_step x s) by done.
  apply (IH (x `div` 10) (N.div_lt x 10 Hx eq_refl)
           (String (pretty_N_char (x `mod` 10)) s)).
Qed.

Lemma pretty_times_10 s : 0 < s → pretty (s * 10) = pretty s +:+ "0".
Proof.
  intros Hs. unfold pretty, pretty_N.
  rewrite !decide_False by lia.
  rewrite pretty_N_go_step by lia.
  rewrite N.div_mul, N.Div0.mod_mul by done.
  apply (pretty_N_go_app s "" "0").
Qed.

Lemma pretty_times_pow10 s (q : nat) :
  0 < s →
  lit (pretty (s * 10 ^ N.of_nat q)) = lit (pretty s) ++ replicate q 48.
Proof.
  intros Hs. induction q as [|q IH].
  { by rewrite N.mul_1_r, app_nil_r. }
  replace (s * 10 ^ N.of_nat (S q)) with (s * 10 ^ N.of_nat q * 10).
  2:{ rewrite Nat2N.inj_succ, N.pow_succ_r'. lia. }
  rewrite pretty_times_10 by lia.
  rewrite lit_app, IH, <- app_assoc. f_equal.
  change (lit "0") with (replicate 1 48).
  by rewrite <- replicate_add, Nat.add_1_r.
Qed.

(** With [k] digits a whole number [n] is reached exactly when its last
    digits from the [k]-th on are zeros; the digits found are those of
    [n] without the zeros at its end. *)
Lemma shortest_integer n K :
  0 < n < 2 ^ 53 → (1 ≤ K ≤ 21)%Z →
  (10 ^ (K - 1) ≤ Z.of_N n < 10 ^ K)%Z →
  ∀ fuel k, (1 ≤ k ≤ K)%Z → (K - k < Z.of_nat fuel)%Z →
  (let '(n', k', s') := shortest fuel n 0 K k in layout n' k' s')
  = lit (pretty n).
Proof.
  intros Hn HK Hmag. induction fuel as [|fuel IH]; intros k Hk Hfuel; [lia|].
  cbn [shortest].
  assert (0 ≤ K - k)%Z as Hq by lia.
  set (q := (K - k)%Z) in *.
  assert (0 < 10 ^ q)%Z as Hpos by (apply Z.pow_pos_nonneg; lia).
  rewrite (Qfloor_integer n q Hq).
  set (a := (Z.of_N n / 10 ^ q)%Z).
  pose proof (Z.div_mod (Z.of_N n) (10 ^ q)) as Hdiv.
  pose proof (Z.mod_pos_bound (Z.of_N n) (10 ^ q) Hpos) as Hmod.
  fold a in Hdiv.
  rewrite (roundsTo_integer n (a * 10 ^ q) _ Hn),
          (roundsTo_integer n ((a + 1) * 10 ^ q) _ Hn).
  2,3: by rewrite inject_Z_mult, pow10_integer.
  destruct (Z.eqb_spec ((a + 1) * 10 ^ q) (Z.of_N n)) as [E|_]; [lia|].
  destruct (Z.eqb_spec (a * 10 ^ q) (Z.of_N n)) as [E|Hne].
  - unfold layout.
    assert (((k <=? K)%Z && (K <=? 21)%Z) = true) as ->.
    { apply andb_true_iff. split; apply Z.leb_le; lia. }
    unfold digits, zeros. fold q.
    assert (0 < a)%Z by nia.
    rewrite <- (pretty_times_pow10 (Z.to_N a) (Z.to_nat q)) by lia.
    do 2 f_equal. apply N2Z.inj.
    rewrite N2Z.inj_mul, N2Z.inj_pow, nat_N_Z, !Z2N.id, Z2Nat.id by lia.
    done.
  - assert (k < K)%Z.
    { destruct (decide (k = K)) as [->|]; [|lia].
      exfalso. apply Hne. unfold q in *.
      replace (K - K)%Z with 0%Z in * by lia. cbn in Hdiv, Hmod. lia. }
    apply IH; lia.
Qed.

(** A whole number below [2^53] is converted to its decimal numeral,
    with a minus sign when it is negative. *)
Lemma integer_toString negative n :
  n < 2 ^ 53 →
  Number_toString (Finite negative n 0)
  = (if negative && negb (n =? 0) then lit "-" else []) ++ lit (pretty n).
Proof.
  intros Hn. destruct n as [|p]; [by destruct negative|].
  cbn [Number_toString N.eqb negb]. rewrite andb_true_r. f_equal.
  assert (0 < N.pos p) as Hpos by done.
  generalize dependent (N.pos p). clear p. intros n Hn Hpos.
  assert (Z.of_N n < 10 ^ 16)%Z as H16.
  { transitivity (2 ^ 53)%Z; [lia | by vm_compute]. }
  assert (Qle_bool 1 (real n 0) = true) as ->.
  { apply Qle_bool_iff. rewrite real_integer.
    change 1%Q with (inject_Z 1). rewrite <- Zle_Qle. lia. }
  destruct (magnitude_integer n 640 1) as [HK1 HK].
  { lia. }
  { change (1 ≤ Z.of_N n)%Z. lia. }
  { etransitivity; [exact H16 | by vm_compute]. }
  set (K := magnitude 640 1 (real n 0)) in *.
  assert (K ≤ 16)%Z.
  { assert (10 ^ (K - 1) < 10 ^ 16)%Z as Hlt by lia.
    apply Z.pow_lt_mono_r_iff in Hlt; lia. }
  apply (shortest_integer n K); lia.
Qed.

End integers.

Lemma join_commaSeparated items :
  join (lit ", ") items = spec_commaSeparated items.
Proof.
  destruct items as [|item items]; [done|]. unfold spec_commaSeparated.
  revert item. induction items as [|i items IH]; intros item.
  { by rewrite app_nil_r. }
  rewrite join_cons by done. rewrite IH. cbn [fmap list_fmap concat].
  by rewrite <- !app_assoc.
Qed.


(** C9: each of the four prompts is its sections, each placed once and
    in the order of the specification, with white space and nothing else
    around them; a request value that is absent is shown as [undefined],
    the goals and the topics with commas between them, and a solved count
    or rating as the number is converted to a string, a whole number
    below [2^53] to its decimal numeral. The description a prompt
    interpolates is the description of the problem with every run from an
    opening angle bracket to the next closing one deleted, leftmost
    first, and no such run is left; for simple markup, where these runs
    are the tags, that is the description with its HTML tags removed and
    its text retained. The block of the current attempt is there exactly
    when a non-empty current code was sent, and the title and description
    of the debug prompt exactly when the problem exists. *)
Theorem prompts_laid_out (problem : Problem)
    (language code error currentCode currentLevel timeCommitment
     : option jsstring) (goals topics : list jsstring) (user : User) :
  let cleaned := stripTags (description problem) in
  let shown := default (lit "undefined") in
  SpansDeleted (description problem) cleaned ∧ SpanFree cleaned ∧
  (simpleMarkup (description problem) = true →
   cleaned = spec_withoutTags (description problem)) ∧
  LaidOut (spec_codeReviewSections (shown language) (shown code)
             (title problem) cleaned)
    (codeReviewPrompt language code problem) ∧
  LaidOut (spec_roadmapSections (shown currentLevel) (shown timeCommitment)
             (spec_commaSeparated goals) (spec_commaSeparated topics)
             (Number_toString (totalSolved (stats user)))
             (Number_toString (rating (stats user))))
    (roadmapPrompt currentLevel timeCommitment goals topics user) ∧
  (∀ negative n, n < 2 ^ 53 →
     Number_toString (Finite negative n 0)
     = (if negative && negb (n =? 0) then lit "-" else [])
       ++ lit (pretty n)) ∧
  LaidOut (spec_hintSections (title problem) cleaned (difficulty problem)
             (shown language) currentCode)
    (hintPrompt problem currentCode language) ∧
  LaidOut (spec_debugSections (shown language) (shown code) (shown error)
             (Some (title problem, cleaned)))
    (debugPrompt language code error (Some problem)) ∧
  LaidOut (spec_debugSections (shown language) (shown code) (shown error)
             None)
    (debugPrompt language code error None).
Proof.
  intros cleaned shown. split_and!.
  - apply stripTags_deleted.
  - apply stripTags_free.
  - apply stripTags_simple.
  - apply codeReview_laid_out.
  - rewrite <- !join_commaSeparated. apply roadmap_laid_out.
  - apply integer_toString.
  - apply hint_laid_out.
  - apply (debug_laid_out language code error (Some problem)).
  - apply (debug_laid_out language code error None).
Qed.

(** C9, as the specification words it, fails. The description of
    [comparison] holds no HTML tag, and yet the hint prompt does not
    hold the section with that description: the text between its two
    angle brackets is gone. The description of [linked] is one link
    whose text is [link], and the review prompt does not hold the
    section with that text: the end of the tag is left before it. And
    the review prompt of a request whose code is the heading
    [Please provide:] holds that section at two places. *)
Theorem prompts_not_html_stripped :
  spec_withoutTags (description comparison) = description comparison ∧
  ¬ Contains (hintPrompt comparison None None)
      (lit "Description: " ++ spec_withoutTags (description comparison)) ∧
  spec_withoutTags (description linked) = lit "link" ∧
  ¬ Contains (codeReviewPrompt None None linked)
      (lit "Problem Description: " ++ spec_withoutTags (description linked)) ∧
  ∃ pre post pre' post',
    pre ≠ pre' ∧
    echoedPrompt = pre ++ lit "Please provide:" ++ post ∧
    echoedPrompt = pre' ++ lit "Please provide:" ++ post'.
Proof.
  split_and!.
  - by vm_compute.
  - rewrite <- includes_spec. by vm_compute.
  - by vm_compute.
  - rewrite <- includes_spec. by vm_compute.
  - exists (take 121 echoedPrompt), (drop 136 echoedPrompt),
      (take 142 echoedPrompt), (drop 157 echoedPrompt).
    split_and!; [|by vm_compute..].
    intros E. apply (f_equal length) in E. by vm_compute in E.
Qed.

(** ** Examples *)

Example complexity_of_review :
  extractComplexity exampleReview
  = {| time := Some (lit "Time complexity: O(n log n)");
       space_ := Some (lit "Space complexity: O(n)") |}.
Proof. vm_compute. reflexivity. Qed.

Example complexity_without_phrase :
  extractComplexity (lit "The loop runs in O(n).")
  = {| time := None; space_ := None |}.
Proof. vm_compute. reflexivity. Qed.

Example complexity_small_o :
  time (extractComplexity (lit "O(1) extra; TIME: o(n^2) at worst"))
  = Some (lit "TIME: o(n^2)").
Proof. vm_compute. reflexivity. Qed.

Example duration_weeks :
  extractDuration (lit "You can complete this in about 6 weeks.")
  = lit "6 weeks".
Proof. vm_compute. reflexivity. Qed.

Example duration_variable :
  extractDuration (lit "Take the time you need.") = lit "Variable".
Proof. vm_compute. reflexivity. Qed.

Example description_stripped :
  stripTags (description twoSum) = lit "Find two numbers.".
Proof. vm_compute. reflexivity. Qed.

Example suggestions_capped :
  length (extractSuggestions (lit "consider a
consider b
consider c
improve d
improve e
a suggestion
consider g")) = 5%nat.
Proof. vm_compute. reflexivity. Qed.

Example phases_of_roadmap :
  extractRoadmapPhases (lit "Plan
1. Arrays
  2. indented
Phase two
week three
Week four")
  = [lit "1. Arrays"; lit "Phase two"; lit "Week four"].
Proof. vm_compute. reflexivity. Qed.

Example simple_markup_stripped :
  simpleMarkup (description twoSum) = true ∧
  stripTags (description twoSum) = lit "Find two numbers.".
Proof. by vm_compute. Qed.

Example markup_with_attributes :
  simpleMarkup (lit "<p class='note' id=n1>Sort the <i>list</i>.<br/></p>")
  = true ∧
  spec_withoutTags (lit "<p class='note' id=n1>Sort the <i>list</i>.<br/></p>")
  = lit "Sort the list.".
Proof. by vm_compute. Qed.

Example comparison_is_not_simple :
  simpleMarkup (description comparison) = false ∧
  stripTags (description comparison)
  = lit "Return true if a  d, else false.".
Proof. by vm_compute. Qed.

Example linked_is_not_simple :
  simpleMarkup (description linked) = false ∧
  stripTags (description linked) = lit "y" ++ dquote ++ lit ">link".
Proof. by vm_compute. Qed.

(** Numbers in a template: a rating of 1200, of 1200.5 and of -3; one
    tenth; the first number shown with an exponent; the least positive
    number; the values that are no numbers. *)
Example toString_1200 : Number_toString (Finite false 1200 0) = lit "1200".
Proof. by vm_compute. Qed.

Example toString_fraction :
  Number_toString (Finite false 2401 (-1)) = lit "1200.5".
Proof. by vm_compute. Qed.

Example toString_negative : Number_toString (Finite true 3 0) = lit "-3".
Proof. by vm_compute. Qed.

Example toString_tenth :
  Number_toString (Finite false 3602879701896397 (-55)) = lit "0.1".
Proof. by vm_compute. Qed.

Example toString_1e21 :
  Number_toString (Finite false 1000000000000000000000 0) = lit "1e+21" ∧
  Number_toString (Finite false 999999999999999868928 0)
  = lit "999999999999999900000".
Proof. by vm_compute. Qed.

Example toString_small :
  Number_toString (Finite false 1 (-1074)) = lit "5e-324" ∧
  Number_toString (Finite false 7555786372591432 (-76)) = lit "1e-7".
Proof. by vm_compute. Qed.

Example toString_not_finite :
  Number_toString NaN = lit "NaN" ∧
  Number_toString (Infinity true) = lit "-Infinity" ∧
  Number_toString (Finite true 0 0) = lit "0".
Proof. by vm_compute. Qed.

(** * Further properties *)

(** ** The call of the completion service *)

Section completion.
Variable env : Env.

(** X1: a call of the completion service adds one completion call to the
    trace, moves the clock by the time the call took and touches no
    collection; an answer carries the first choice of the reply, its usage
    data and that time as response time; every failure, a rejected request
    or a reply without choice, is thrown as the same error. *)
Theorem callOpenAI_effects (prompt : jsstring) (w : World) :
  ∃ r w',
    callOpenAI env prompt w = (r, w') ∧
    problems w' = problems w ∧ users w' = users w ∧
    interactions w' = interactions w ∧
    now w' = now w + latency env prompt ∧
    trace w' = trace w ++ [CompletionCall prompt] ∧
    match r with
    | Return c =>
        completion_time c = latency env prompt ∧
        ∃ data, axios_post env prompt = Some data ∧
                head (choices data) = Some (content c) ∧
                completion_usage c = usage data
    | Throw e =>
        e = lit "Failed to get AI response" ∧ ServiceFails env prompt
    end.
Proof.
  rewrite callOpenAI_run. unfold ServiceFails.
  destruct (axios_post env prompt) as [data|] eqn:Hpost.
  - destruct (choices data) as [|c cs] eqn:Hc.
    + eexists _, _. split_and!; try done.
    + eexists _, _. split_and!; try done. cbn [completion_time]. split; [lia|].
      exists data. by rewrite Hc.
  - eexists _, _. split_and!; done.
Qed.

End completion.

(** ** What no handler does *)

Section invariants.
Variables (env : Env) (userId : ObjectId).

Lemma SameButFeedback_refl i : SameButFeedback i i.
Proof. by repeat split. Qed.

Lemma Extends_refl w : Extends w w.
Proof.
  repeat split; try done. intros id i Hi. exists i.
  split; [done | apply SameButFeedback_refl].
Qed.

Lemma Extends_log e w0 w : Extends w0 w → Extends w0 (log e w).
Proof.
  intros (Hp & Hu & Hi & Hn & Ht). repeat split; try done.
  cbn [trace log]. by apply prefix_app_r.
Qed.

Lemma Extends_afterCall prompt w0 w :
  Extends w0 w → Extends w0 (afterCall env prompt w).
Proof.
  intros (Hp & Hu & Hi & Hn & Ht). repeat split; try done.
  - cbn [afterCall now tick log]. lia.
  - cbn [afterCall trace tick log]. by apply prefix_app_r.
Qed.

Lemma Extends_store_fresh i w0 w :
  Extends w0 w → Extends w0 (store (fresh (dom (interactions w))) i w).
Proof.
  intros (Hp & Hu & Hi & Hn & Ht). repeat split; try done.
  intros id j Hj. destruct (Hi _ _ Hj) as (j' & Hj' & Hsame).
  exists j'. split; [|done]. cbn [interactions store].
  rewrite lookup_insert_ne; [done|]. intros <-.
  by rewrite fresh_interaction in Hj'.
Qed.

Lemma Extends_store_feedback id f i w0 w :
  Extends w0 w → interactions w !! id = Some i →
  Extends w0 (store id (setFeedback f i) w).
Proof.
  intros (Hp & Hu & Hi & Hn & Ht) Hid. repeat split; try done.
  intros id' j Hj. destruct (Hi _ _ Hj) as (j' & Hj' & Hsame).
  cbn [interactions store]. destruct (decide (id = id')) as [<-|Hne].
  - rewrite lookup_insert_eq. eexists. split; [done|].
    assert (j' = i) as -> by congruence. exact Hsame.
  - rewrite lookup_insert_ne by done. by exists j'.
Qed.

Lemma callOpenAI_world prompt w r w' :
  callOpenAI env prompt w = (r, w') → w' = afterCall env prompt w.
Proof.
  rewrite callOpenAI_run. repeat case_match; by intros [= _ <-].
Qed.

Ltac crunch :=
  run; cbn [problems users interactions log];
  repeat case_match; simplify_eq;
  repeat match goal with
    | H : callOpenAI _ _ _ = _ |- _ => apply callOpenAI_world in H; subst
    end.

Ltac answer :=
  eexists _, _; split; [reflexivity|]; split_and!;
  [ repeat first
      [ apply Extends_refl | apply Extends_log | apply Extends_store_fresh
      | apply Extends_afterCall
      | eapply Extends_store_feedback; [|cbn [interactions log]; eassumption] ]
  | cbn [status json];
    first
      [ left; reflexivity
      | right; eexists; split; [|reflexivity];
        repeat first [apply list_elem_of_here | apply list_elem_of_further] ] ].

Lemma post_code_review_answers cr w :
  Answers (post_code_review env userId cr w) w codeReviewErrors.
Proof. unfold Answers. crunch; answer. Qed.

Lemma post_roadmap_answers rm w :
  Answers (post_roadmap env userId rm w) w roadmapErrors.
Proof. unfold Answers. crunch; answer. Qed.

Lemma post_hint_answers h w :
  Answers (post_hint env userId h w) w hintErrors.
Proof. unfold Answers. crunch; answer. Qed.

Lemma post_debug_answers d w :
  Answers (post_debug env userId d w) w debugErrors.
Proof. unfold Answers. crunch; answer. Qed.

Lemma get_history_answers q w :
  Answers (get_history userId q w) w historyErrors.
Proof.
  unfold Answers, get_history, AIInteraction_find,
    AIInteraction_countDocuments.
  crunch; answer.
Qed.

Lemma post_feedback_answers id fb w :
  Answers (post_feedback userId id fb w) w feedbackErrors.
Proof. unfold Answers. crunch; answer. Qed.

End invariants.


(** X3: whatever a handler answers, the world it leaves extends the one it
    started in: the problems and the users are untouched, no interaction
    is deleted, and an interaction that was there keeps its user, type,
    context, query, response, token count, response time and creation
    time. *)
Theorem handlers_preserve_store (env : Env) (userId : ObjectId)
    (cr : CodeReviewBody) (rm : RoadmapBody) (h : HintBody) (d : DebugBody)
    (q : HistoryQuery) (id : ObjectId) (fb : FeedbackBody) (w : World) :
  Extends w (post_code_review env userId cr w).2 ∧
  Extends w (post_roadmap env userId rm w).2 ∧
  Extends w (post_hint env userId h w).2 ∧
  Extends w (post_debug env userId d w).2 ∧
  Extends w (get_history userId q w).2 ∧
  Extends w (post_feedback userId id fb w).2.
Proof.
  destruct (post_code_review_answers env userId cr w)
    as (? & ? & -> & ? & _).
  destruct (post_roadmap_answers env userId rm w) as (? & ? & -> & ? & _).
  destruct (post_hint_answers env userId h w) as (? & ? & -> & ? & _).
  destruct (post_debug_answers env userId d w) as (? & ? & -> & ? & _).
  destruct (get_history_answers userId q w) as (? & ? & -> & ? & _).
  destruct (post_feedback_answers userId id fb w) as (? & ? & -> & ? & _).
  done.
Qed.

(** ** Failure and success of the completion call *)

Section outcomes.
Variables (env : Env) (userId : ObjectId).
Hypothesis configured : falsy (OPENAI_API_KEY env) = false.

Lemma callOpenAI_fails prompt w :
  ServiceFails env prompt →
  callOpenAI env prompt w
  = (Throw (lit "Failed to get AI response"), afterCall env prompt w).
Proof.
  unfold ServiceFails. rewrite callOpenAI_run.
  destruct (axios_post env prompt) as [data|]; [|done]. by intros ->.
Qed.

Lemma callOpenAI_answers prompt data c cs w :
  axios_post env prompt = Some data → choices data = c :: cs →
  callOpenAI env prompt w
  = (Return {| content := c; completion_usage := usage data;
               completion_time := latency env prompt |},
     afterCall env prompt w).
Proof.
  intros Hpost Hc. rewrite callOpenAI_run, Hpost, Hc.
  do 3 f_equal. lia.
Qed.

Ltac start :=
  run; rewrite configured; cbn [problems users log].

Lemma post_code_review_failure cr problem w :
  (cr_problemId cr ≫= λ i, problems w !! i) = Some problem →
  let prompt := codeReviewPrompt (cr_language cr) (cr_code cr) problem in
  ServiceFails env prompt →
  post_code_review env userId cr w
  = (Return codeReviewFailed,
     afterCall env prompt (log (ProblemFindById (cr_problemId cr)) w)).
Proof.
  intros Hp prompt Hfail. unfold mbind in Hp. start. rewrite Hp.
  by rewrite callOpenAI_fails.
Qed.

Lemma post_hint_failure h problem w :
  (h_problemId h ≫= λ i, problems w !! i) = Some problem →
  let prompt := hintPrompt problem (h_currentCode h) (h_language h) in
  ServiceFails env prompt →
  post_hint env userId h w
  = (Return hintFailed,
     afterCall env prompt (log (ProblemFindById (h_problemId h)) w)).
Proof.
  intros Hp prompt Hfail. unfold mbind in Hp. start. rewrite Hp.
  by rewrite callOpenAI_fails.
Qed.

Lemma post_debug_failure d w :
  let prompt := debugPrompt (d_language d) (d_code d) (d_error d)
                  (d_problemId d ≫= λ i, problems w !! i) in
  ServiceFails env prompt →
  post_debug env userId d w
  = (Return debugFailed,
     afterCall env prompt (log (ProblemFindById (d_problemId d)) w)).
Proof.
  intros prompt Hfail. unfold prompt, mbind in Hfail. start.
  by rewrite callOpenAI_fails.
Qed.

Lemma post_roadmap_failure rm goals topics user w :
  rm_goals rm = Some goals → rm_preferredTopics rm = Some topics →
  users w !! userId = Some user →
  let prompt := roadmapPrompt (rm_currentLevel rm) (rm_timeCommitment rm)
                  goals topics user in
  ServiceFails env prompt →
  post_roadmap env userId rm w
  = (Return roadmapFailed,
     afterCall env prompt (log (UserFindById userId) w)).
Proof.
  intros Hg Ht Hu prompt Hfail. start. rewrite Hg, Ht, Hu.
  by rewrite callOpenAI_fails.
Qed.

End outcomes.

(** X4: when the credential is configured and the completion service
    fails, each generation handler answers 500 with the message of its
    route; the service was called once, and nothing was written. *)
Theorem upstream_failure_is_500 (env : Env) (userId : ObjectId) (w : World) :
  falsy (OPENAI_API_KEY env) = false →
  (∀ cr problem,
     (cr_problemId cr ≫= λ i, problems w !! i) = Some problem →
     let prompt := codeReviewPrompt (cr_language cr) (cr_code cr) problem in
     ServiceFails env prompt →
     post_code_review env userId cr w
     = (Return codeReviewFailed,
        afterCall env prompt (log (ProblemFindById (cr_problemId cr)) w))) ∧
  (∀ rm goals topics user,
     rm_goals rm = Some goals → rm_preferredTopics rm = Some topics →
     users w !! userId = Some user →
     let prompt := roadmapPrompt (rm_currentLevel rm) (rm_timeCommitment rm)
                     goals topics user in
     ServiceFails env prompt →
     post_roadmap env userId rm w
     = (Return roadmapFailed,
        afterCall env prompt (log (UserFindById userId) w))) ∧
  (∀ h problem,
     (h_problemId h ≫= λ i, problems w !! i) = Some problem →
     let prompt := hintPrompt problem (h_currentCode h) (h_language h) in
     ServiceFails env prompt →
     post_hint env userId h w
     = (Return hintFailed,
        afterCall env prompt (log (ProblemFindById (h_problemId h)) w))) ∧
  (∀ d,
     let prompt := debugPrompt (d_language d) (d_code d) (d_error d)
                     (d_problemId d ≫= λ i, problems w !! i) in
     ServiceFails env prompt →
     post_debug env userId d w
     = (Return debugFailed,
        afterCall env prompt (log (ProblemFindById (d_problemId d)) w))).
Proof.
  intros Hkey. split_and!.
  - intros cr problem. by apply post_code_review_failure.
  - intros rm goals topics user. by apply post_roadmap_failure.
  - intros h problem. by apply post_hint_failure.
  - intros d. by apply post_debug_failure.
Qed.

Lemma upstream_failure_is_500_witness :
  post_code_review someService 1 reviewRequest oneProblem
  = (Return codeReviewFailed,
     afterCall someService
       (codeReviewPrompt (cr_language reviewRequest) (cr_code reviewRequest)
          twoSum)
       (log (ProblemFindById (Some 7)) oneProblem)).
Proof.
  destruct (upstream_failure_is_500 someService 1 oneProblem eq_refl)
    as [H _].
  apply (H reviewRequest twoSum); [reflexivity | exact I].
Defined.

Section success.
Variables (env : Env) (userId : ObjectId).
Hypothesis configured : falsy (OPENAI_API_KEY env) = false.

Ltac start :=
  run; rewrite configured; cbn [problems users log].

Ltac finish Hpost Hc :=
  rewrite (callOpenAI_answers env _ _ _ _ _ Hpost Hc);
  cbn [content completion_usage completion_time fst snd];
  rewrite tokensOf_spec; reflexivity.

Lemma post_code_review_success cr problem data c cs w :
  (cr_problemId cr ≫= λ i, problems w !! i) = Some problem →
  let prompt := codeReviewPrompt (cr_language cr) (cr_code cr) problem in
  axios_post env prompt = Some data → choices data = c :: cs →
  let w0 := log (ProblemFindById (cr_problemId cr)) w in
  post_code_review env userId cr w
  = (Return {| status := 200;
               json := review_json c (extractSuggestions c)
                         (extractComplexity c) |},
     recorded env prompt
       (recordOf env userId (lit "code_review")
          {| ctx_problem := cr_problemId cr; ctx_code := cr_code cr;
             ctx_language := cr_language cr; ctx_error := None;
             ctx_userLevel := None; ctx_goals := None |}
          (lit "Code review request") prompt c data w0) w0).
Proof.
  intros Hp prompt Hpost Hc w0. unfold mbind in Hp. start. rewrite Hp.
  finish Hpost Hc.
Qed.

Lemma post_roadmap_success rm goals topics user data c cs w :
  rm_goals rm = Some goals → rm_preferredTopics rm = Some topics →
  users w !! userId = Some user →
  let prompt := roadmapPrompt (rm_currentLevel rm) (rm_timeCommitment rm)
                  goals topics user in
  axios_post env prompt = Some data → choices data = c :: cs →
  let w0 := log (UserFindById userId) w in
  post_roadmap env userId rm w
  = (Return {| status := 200;
               json := roadmap_json c (extractRoadmapPhases c)
                         (extractDuration c) |},
     recorded env prompt
       (recordOf env userId (lit "roadmap")
          {| ctx_problem := None; ctx_code := None; ctx_language := None;
             ctx_error := None; ctx_userLevel := rm_currentLevel rm;
             ctx_goals := Some goals |}
          (lit "Personalized roadmap request") prompt c data w0) w0).
Proof.
  intros Hg Ht Hu prompt Hpost Hc w0. start. rewrite Hg, Ht, Hu.
  finish Hpost Hc.
Qed.

Lemma post_hint_success h problem data c cs w :
  (h_problemId h ≫= λ i, problems w !! i) = Some problem →
  let prompt := hintPrompt problem (h_currentCode h) (h_language h) in
  axios_post env prompt = Some data → choices data = c :: cs →
  let w0 := log (ProblemFindById (h_problemId h)) w in
  post_hint env userId h w
  = (Return {| status := 200; json := hint_json c (extractApproach c) |},
     recorded env prompt
       (recordOf env userId (lit "hint")
          {| ctx_problem := h_problemId h; ctx_code := h_currentCode h;
             ctx_language := h_language h; ctx_error := None;
             ctx_userLevel := None; ctx_goals := None |}
          (lit "Hint request") prompt c data w0) w0).
Proof.
  intros Hp prompt Hpost Hc w0. unfold mbind in Hp. start. rewrite Hp.
  finish Hpost Hc.
Qed.

Lemma post_debug_success d data c cs w :
  let prompt := debugPrompt (d_language d) (d_code d) (d_error d)
                  (d_problemId d ≫= λ i, problems w !! i) in
  axios_post env prompt = Some data → choices data = c :: cs →
  let w0 := log (ProblemFindById (d_problemId d)) w in
  post_debug env userId d w
  = (Return {| status := 200; json := debug_json c (extractFixes c) |},
     recorded env prompt
       (recordOf env userId (lit "debug_help")
          {| ctx_problem := d_problemId d; ctx_code := d_code d;
             ctx_language := d_language d; ctx_error := d_error d;
             ctx_userLevel := None; ctx_goals := None |}
          (lit "Debug help request") prompt c data w0) w0).
Proof.
  intros prompt Hpost Hc w0. unfold prompt, mbind in Hpost. start.
  finish Hpost Hc.
Qed.

End success.

(** X5: when the credential is configured, the lookups succeed and the
    completion service answers, each generation handler answers 200 with
    the first choice of the reply and the fields extracted from that same
    text, and writes one interaction under a fresh identifier: the caller
    as user, the inputs of the request as context, that text as response,
    the time the call took as response time and the time after the call
    as creation time. *)
Theorem generation_success (env : Env) (userId : ObjectId) (w : World) :
  falsy (OPENAI_API_KEY env) = false →
  (∀ cr problem data c cs,
     (cr_problemId cr ≫= λ i, problems w !! i) = Some problem →
     let prompt := codeReviewPrompt (cr_language cr) (cr_code cr) problem in
     axios_post env prompt = Some data → choices data = c :: cs →
     let w0 := log (ProblemFindById (cr_problemId cr)) w in
     post_code_review env userId cr w
     = (Return {| status := 200;
                  json := review_json c (extractSuggestions c)
                            (extractComplexity c) |},
        recorded env prompt
          (recordOf env userId (lit "code_review")
             {| ctx_problem := cr_problemId cr; ctx_code := cr_code cr;
                ctx_language := cr_language cr; ctx_error := None;
                ctx_userLevel := None; ctx_goals := None |}
             (lit "Code review request") prompt c data w0) w0)) ∧
  (∀ rm goals topics user data c cs,
     rm_goals rm = Some goals → rm_preferredTopics rm = Some topics →
     users w !! userId = Some user →
     let prompt := roadmapPrompt (rm_currentLevel rm) (rm_timeCommitment rm)
                     goals topics user in
     axios_post env prompt = Some data → choices data = c :: cs →
     let w0 := log (UserFindById userId) w in
     post_roadmap env userId rm w
     = (Return {| status := 200;
                  json := roadmap_json c (extractRoadmapPhases c)
                            (extractDuration c) |},
        recorded env prompt
          (recordOf env userId (lit "roadmap")
             {| ctx_problem := None; ctx_code := None; ctx_language := None;
                ctx_error := None; ctx_userLevel := rm_currentLevel rm;
                ctx_goals := Some goals |}
             (lit "Personalized roadmap request") prompt c data w0) w0)) ∧
  (∀ h problem data c cs,
     (h_problemId h ≫= λ i, problems w !! i) = Some problem →
     let prompt := hintPrompt problem (h_currentCode h) (h_language h) in
     axios_post env prompt = Some data → choices data = c :: cs →
     let w0 := log (ProblemFindById (h_problemId h)) w in
     post_hint env userId h w
     = (Return {| status := 200; json := hint_json c (extractApproach c) |},
        recorded env prompt
          (recordOf env userId (lit "hint")
             {| ctx_problem := h_problemId h; ctx_code := h_currentCode h;
                ctx_language := h_language h; ctx_error := None;
                ctx_userLevel := None; ctx_goals := None |}
             (lit "Hint request") prompt c data w0) w0)) ∧
  (∀ d data c cs,
     let prompt := debugPrompt (d_language d) (d_code d) (d_error d)
                     (d_problemId d ≫= λ i, problems w !! i) in
     axios_post env prompt = Some data → choices data = c :: cs →
     let w0 := log (ProblemFindById (d_problemId d)) w in
     post_debug env userId d w
     = (Return {| status := 200; json := debug_json c (extractFixes c) |},
        recorded env prompt
          (recordOf env userId (lit "debug_help")
             {| ctx_problem := d_problemId d; ctx_code := d_code d;
                ctx_language := d_language d; ctx_error := d_error d;
                ctx_userLevel := None; ctx_goals := None |}
             (lit "Debug help request") prompt c data w0) w0)).
Proof.
  intros Hkey. split_and!.
  - intros cr problem data c cs. by apply post_code_review_success.
  - intros rm goals topics user data c cs. by apply post_roadmap_success.
  - intros h problem data c cs. by apply post_hint_success.
  - intros d data c cs. by apply post_debug_success.
Qed.

Lemma generation_success_witness :
  ∃ i,
    (post_code_review mentor 1 reviewRequest oneProblem).1
    = Return {| status := 200;
                json := review_json (lit "consider a hash map")
                          [lit "consider a hash map"]
                          {| time := None; space_ := None |} |} ∧
    interactions (post_code_review mentor 1 reviewRequest oneProblem).2
    = {[ 0 := i ]} ∧
    response i = lit "consider a hash map" ∧ response_time i = 120 ∧
    createdAt i = 1120 ∧ tokens_used i = 0.
Proof.
  destruct (generation_success mentor 1 oneProblem eq_refl) as [H _].
  rewrite (H reviewRequest twoSum
             {| choices := [lit "consider a hash map"]; usage := None |}
             (lit "consider a hash map") [] eq_refl eq_refl eq_refl).
  eexists. split_and!; [by vm_compute | by vm_compute | reflexivity..].
Defined.

(** X6: the debug handler does not need the problem: when the problem
    does not exist and the service answers, it answers 200 and writes one
    interaction, whose context keeps the identifier that was sent. *)
Theorem debug_without_problem (env : Env) (userId : ObjectId)
    (d : DebugBody) (data : ApiData) (c : jsstring) (cs : list jsstring)
    (w : World) :
  falsy (OPENAI_API_KEY env) = false →
  (d_problemId d ≫= λ i, problems w !! i) = None →
  axios_post env (debugPrompt (d_language d) (d_code d) (d_error d) None)
  = Some data →
  choices data = c :: cs →
  ∃ w' id i,
    post_debug env userId d w
    = (Return {| status := 200; json := debug_json c (extractFixes c) |}, w') ∧
    interactions w !! id = None ∧
    interactions w' = <[id := i]> (interactions w) ∧
    ctx_problem (context i) = d_problemId d ∧
    response i = c.
Proof.
  intros Hkey Hp Hpost Hc. rewrite <- Hp in Hpost.
  rewrite (post_debug_success env userId Hkey d data c cs w Hpost Hc).
  eexists _, _, _. split_and!; [reflexivity| |reflexivity..].
  apply (fresh_interaction (log (ProblemFindById (d_problemId d)) w)).
Qed.

Lemma debug_without_problem_witness :
  ∃ w' id i,
    post_debug mentor 1
      {| d_code := Some (lit "x()"); d_language := Some (lit "js");
         d_error := Some (lit "x is not defined"); d_problemId := Some 9 |}
      noWorld
    = (Return {| status := 200;
                 json := debug_json (lit "consider a hash map") [] |}, w') ∧
    interactions noWorld !! id = None ∧
    interactions w' = <[id := i]> (interactions noWorld) ∧
    ctx_problem (context i) = Some 9 ∧
    response i = lit "consider a hash map".
Proof.
  apply (debug_without_problem mentor 1
           {| d_code := Some (lit "x()"); d_language := Some (lit "js");
              d_error := Some (lit "x is not defined");
              d_problemId := Some 9 |}
           {| choices := [lit "consider a hash map"]; usage := None |}
           (lit "consider a hash map") []); reflexivity.
Defined.

(** ** Pages of the history *)

Section pages.
Variable userId : ObjectId.

Lemma chunks_concat {A} (l n : nat) (xs : list A) :
  (0 < l)%nat → (length xs ≤ n * l)%nat →
  concat ((λ k, take l (drop (k * l) xs)) <$> seq 0 n) = xs.
Proof.
  intros Hl. revert xs. induction n as [|n IH]; intros xs Hlen.
  - destruct xs; [done | simpl in Hlen; lia].
  - cbn [seq fmap list_fmap concat].
    rewrite <- fmap_S_seq, <- list_fmap_compose.
    transitivity (take l xs ++ drop l xs); [|apply take_drop].
    f_equal. etransitivity; [|apply (IH (drop l xs))].
    + f_equal. apply list_fmap_ext. intros _ k _. cbn [compose].
      rewrite drop_drop. f_equal; f_equal; lia.
    + rewrite length_drop. lia.
Qed.

Lemma get_history_items k limit ty w :
  historyItems (get_history userId (pageQuery k limit ty) w)
  = populate w <$>
      take (Pos.to_nat limit)
        (drop (k * Pos.to_nat limit)
           (merge_sort newerFirst
              (selected userId (if falsy ty then None else ty) w))).
Proof.
  unfold historyItems, get_history, AIInteraction_find,
    AIInteraction_countDocuments. run. cbn [fst json q_page q_limit q_type
    pageQuery default]. unfold id.
  rewrite SuccNat2Pos.id_succ, Nat.mul_1_r.
  replace (S k - 1)%nat with k by lia. reflexivity.
Qed.

(** X7: the pages of a history partition it: pages 1 to [totalPages],
    one after the other, are all the documents of the query, newest
    first, each once; every page holds at most [limit] documents, and the
    pages after the last are empty. *)
Theorem history_pages_partition (limit : positive) (ty : option jsstring)
    (w : World) :
  let all := merge_sort newerFirst
               (selected userId (if falsy ty then None else ty) w) in
  let pages := Z.to_nat (Math_ceil_div (length all) limit) in
  let page k := historyItems (get_history userId (pageQuery k limit ty) w) in
  concat (page <$> seq 0 pages) = populate w <$> all ∧
  (∀ k, length (page k)
        = (Pos.to_nat limit `min` (length all - k * Pos.to_nat limit))%nat) ∧
  (∀ k, (pages ≤ k)%nat → page k = []).
Proof.
  intros all pages page.
  pose proof (Math_ceil_div_bounds (length all) limit) as [Hlo Hhi].
  assert (length all ≤ pages * Pos.to_nat limit)%nat as Hcover.
  { unfold pages. nia. }
  assert (∀ k, page k = populate w <$>
                 take (Pos.to_nat limit) (drop (k * Pos.to_nat limit) all))
    as Hpage.
  { intros k. apply get_history_items. }
  split_and!.
  - transitivity
      (populate w <$>
         concat ((λ k, take (Pos.to_nat limit)
                         (drop (k * Pos.to_nat limit) all)) <$> seq 0 pages));
      [|f_equal; apply chunks_concat; [lia|done]].
    induction (seq 0 pages) as [|k ks IH]; [done|].
    cbn [fmap list_fmap concat]. rewrite fmap_app, Hpage. f_equal. apply IH.
  - intros k. rewrite Hpage, length_fmap, length_take, length_drop. lia.
  - intros k Hk. rewrite Hpage, drop_ge; [by rewrite take_nil|]. nia.
Qed.

End pages.

Lemma history_pages_partition_witness :
  historyItems (get_history 1 (pageQuery 3 20 None) busyWorld) = [] ∧
  length (historyItems (get_history 1 (pageQuery 2 20 None) busyWorld))
  = 5%nat.
Proof.
  destruct (history_pages_partition 1 20 None busyWorld) as (_ & Hlen & Hlast).
  split.
  - apply Hlast. vm_compute. lia.
  - rewrite Hlen. vm_compute. reflexivity.
Defined.

(** ** How the routes compose *)

Section composition.
Implicit Types (w : World) (m : gmap N AIInteraction).

Lemma selected_count owner ty w :
  length (selected owner ty w) = count owner ty (interactions w).
Proof. reflexivity. Qed.

Lemma count_perm owner ty m id i m0 :
  map_to_list m ≡ₚ (id, i) :: map_to_list m0 →
  count owner ty m
  = ((if matchesQuery owner ty i then 1 else 0) + count owner ty m0)%nat.
Proof.
  intros Hperm. unfold count. rewrite Hperm. cbn [fmap list_fmap snd].
  rewrite filter_cons. by destruct (matchesQuery owner ty i).
Qed.

Lemma count_insert_fresh owner ty m id i :
  m !! id = None →
  count owner ty (<[id := i]> m)
  = ((if matchesQuery owner ty i then 1 else 0) + count owner ty m)%nat.
Proof.
  intros Hid. apply (count_perm owner ty _ id i m).
  by apply map_to_list_insert.
Qed.

Lemma count_insert_same owner ty m id i i' :
  m !! id = Some i →
  matchesQuery owner ty i' = matchesQuery owner ty i →
  count owner ty (<[id := i']> m) = count owner ty m.
Proof.
  intros Hid Hsame.
  rewrite (count_perm owner ty (<[id := i']> m) id i' (delete id m)).
  - rewrite (count_perm owner ty m id i (delete id m)); [by rewrite Hsame|].
    symmetry. by apply map_to_list_delete.
  - rewrite <- insert_delete_eq. apply map_to_list_insert, lookup_delete_eq.
Qed.

(** X8: a feedback request, whatever it answers, changes the total of no
    history query, of the caller or of anybody else. *)
Theorem feedback_keeps_totals (userId id owner : ObjectId)
    (fb : FeedbackBody) (q : HistoryQuery) (w : World) :
  historyTotal (get_history owner q (post_feedback userId id fb w).2)
  = historyTotal (get_history owner q w).
Proof.
  unfold historyTotal, get_history, AIInteraction_find,
    AIInteraction_countDocuments. run. cbn [fst json]. f_equal.
  rewrite !selected_count. cbn [interactions log].
  destruct (interactions w !! id) as [i|] eqn:Hi; [|done].
  destruct (user i =? userId); [|done]. cbn [negb snd interactions log store].
  by apply (count_insert_same owner _ _ id i).
Qed.

End composition.

Section enters.
Variables (env : Env) (userId owner : ObjectId) (q : HistoryQuery).

Ltac wrote :=
  unfold WroteIff200; run; cbn [problems users interactions log];
  repeat case_match; simplify_eq;
  repeat match goal with
    | H : callOpenAI _ _ _ = _ |- _ => apply callOpenAI_world in H; subst
    end;
  eexists _, _; (split; [reflexivity|]);
  first
    [ left; split; [by cbn [status] | reflexivity]
    | right; split; [reflexivity|]; eexists _, _;
      split_and!; [|reflexivity..];
      apply (fresh_interaction (afterCall env _ (log _ _))) ].

Lemma post_code_review_wrote cr w :
  WroteIff200 userId (lit "code_review") w (post_code_review env userId cr w).
Proof. wrote. Qed.

Lemma post_roadmap_wrote rm w :
  WroteIff200 userId (lit "roadmap") w (post_roadmap env userId rm w).
Proof. wrote. Qed.

Lemma post_hint_wrote h w :
  WroteIff200 userId (lit "hint") w (post_hint env userId h w).
Proof. wrote. Qed.

Lemma post_debug_wrote d w :
  WroteIff200 userId (lit "debug_help") w (post_debug env userId d w).
Proof. wrote. Qed.

Lemma historyTotal_count w :
  historyTotal (get_history owner q w)
  = Some (count owner (if falsy (q_type q) then None else q_type q)
            (interactions w)).
Proof. reflexivity. Qed.

Lemma wrote_grows route w r :
  WroteIff200 userId route w r → GrowsBy userId route owner q w r.
Proof.
  intros (resp & w' & -> & H). unfold GrowsBy.
  rewrite !historyTotal_count. cbn [fmap option_fmap option_map].
  f_equal. unfold answered200. cbn [fst snd].
  destruct H as [[Hne ->] | (Hok & id & i & Hfresh & -> & Hu & Ht)].
  - apply Nat.eqb_neq in Hne as ->. cbn [andb]. lia.
  - rewrite Hok, (count_insert_fresh _ _ _ _ _ Hfresh).
    unfold entersHistory, matchesQuery. rewrite Hu, Ht. cbn [Nat.eqb andb].
    lia.
Qed.

Lemma post_code_review_grows cr w :
  GrowsBy userId (lit "code_review") owner q w
    (post_code_review env userId cr w).
Proof. apply wrote_grows, post_code_review_wrote. Qed.

Lemma post_roadmap_grows rm w :
  GrowsBy userId (lit "roadmap") owner q w (post_roadmap env userId rm w).
Proof. apply wrote_grows, post_roadmap_wrote. Qed.

Lemma post_hint_grows h w :
  GrowsBy userId (lit "hint") owner q w (post_hint env userId h w).
Proof. apply wrote_grows, post_hint_wrote. Qed.

Lemma post_debug_grows d w :
  GrowsBy userId (lit "debug_help") owner q w (post_debug env userId d w).
Proof. apply wrote_grows, post_debug_wrote. Qed.

End enters.

(** X9: a generation request that answers 200 adds one to the totals of
    the caller's history queries that select its type, and a request that
    answers anything else adds nothing; the totals of the other users
    never change. *)
Theorem generation_enters_history (env : Env) (userId owner : ObjectId)
    (q : HistoryQuery) (cr : CodeReviewBody) (rm : RoadmapBody)
    (h : HintBody) (d : DebugBody) (w : World) :
  GrowsBy userId (lit "code_review") owner q w
    (post_code_review env userId cr w) ∧
  GrowsBy userId (lit "roadmap") owner q w (post_roadmap env userId rm w) ∧
  GrowsBy userId (lit "hint") owner q w (post_hint env userId h w) ∧
  GrowsBy userId (lit "debug_help") owner q w (post_debug env userId d w).
Proof.
  split_and!.
  - apply post_code_review_grows.
  - apply post_roadmap_grows.
  - apply post_hint_grows.
  - apply post_debug_grows.
Qed.

(** ** Trimming *)

Section trimming.
Implicit Types (s kw line x : jsstring).

Lemma trimStart_spec s :
  ∃ a, s = a ++ trimStart s ∧ Blank a ∧
       ∀ c t, trimStart s = c :: t → isWhiteSpace c = false.
Proof.
  induction s as [|c s (a & E & Ha & Hhead)]; simpl.
  - exists []. split_and!; [done | constructor | done].
  - destruct (isWhiteSpace c) eqn:Hc.
    + exists (c :: a). split_and!; [by rewrite E at 1| by constructor | done].
    + exists []. split_and!; [done | constructor |]. by intros ? ? [= <- <-].
Qed.

Lemma trimStart_keep c s : isWhiteSpace c = false → trimStart (c :: s) = c :: s.
Proof. intros Hc. simpl. by rewrite Hc. Qed.

Lemma trimStart_snoc s c :
  isWhiteSpace c = false → trimStart (s ++ [c]) = trimStart s ++ [c].
Proof.
  intros Hc. induction s as [|y s IH]; simpl; [by rewrite Hc|].
  by destruct (isWhiteSpace y).
Qed.

Lemma trimEnd_cons c s :
  isWhiteSpace c = false → trimEnd (c :: s) = c :: trimEnd s.
Proof.
  intros Hc. unfold trimEnd. rewrite reverse_cons, trimStart_snoc by done.
  by rewrite reverse_app.
Qed.

Lemma trimEnd_spec s :
  ∃ b, s = trimEnd s ++ b ∧ Blank b ∧
       ∀ t c, trimEnd s = t ++ [c] → isWhiteSpace c = false.
Proof.
  unfold trimEnd. destruct (trimStart_spec (reverse s)) as (a & E & Ha & Hhead).
  exists (reverse a). split_and!.
  - rewrite <- reverse_app, <- E. by rewrite reverse_involutive.
  - unfold Blank. by rewrite Forall_reverse.
  - intros t c Ht. apply (Hhead c (reverse t)).
    rewrite <- (reverse_involutive (trimStart (reverse s))), Ht.
    by rewrite reverse_app.
Qed.

Lemma trim_spec s : Trimmed s (trim s).
Proof.
  unfold trim. destruct (trimStart_spec s) as (a & Ea & Ha & Hhead).
  destruct (trimEnd_spec (trimStart s)) as (b & Eb & Hb & Hlast).
  exists a, b. split_and!; [by rewrite <- Eb | done | done |].
  split; [|done]. intros c t Ht. apply (Hhead c (t ++ b)).
  by rewrite Eb, Ht.
Qed.

Lemma Contains_trimStart s kw c k :
  kw = c :: k → isWhiteSpace c = false →
  Contains s kw → Contains (trimStart s) kw.
Proof.
  intros -> Hc. induction s as [|y s IH]; [done|]. simpl.
  destruct (isWhiteSpace y) eqn:Hy; [|done].
  intros ([|p pre] & post & E); simpl in E.
  - injection E as -> _. congruence.
  - injection E as -> E. apply IH. by exists pre, post.
Qed.

Lemma Contains_reverse s kw :
  Contains s kw → Contains (reverse s) (reverse kw).
Proof.
  intros (pre & post & ->). exists (reverse post), (reverse pre).
  by rewrite !reverse_app, <- app_assoc.
Qed.

Lemma Contains_trim s kw : Solid kw → Contains s kw → Contains (trim s) kw.
Proof.
  intros [Hne Hkw] Hs. unfold trim, trimEnd.
  destruct kw as [|c k]; [done|].
  assert (Contains (trimStart s) (c :: k)) as H1.
  { eapply Contains_trimStart; [done| |done]. by inversion Hkw. }
  apply Contains_reverse in H1.
  destruct (reverse (c :: k)) as [|c' k'] eqn:Hrev.
  { apply (f_equal length) in Hrev. by rewrite length_reverse in Hrev. }
  assert (isWhiteSpace c' = false) as Hc'.
  { assert (c' ∈ c :: k) as Hin.
    { apply elem_of_reverse. rewrite Hrev. by left. }
    rewrite Forall_forall in Hkw. by apply Hkw. }
  eapply Contains_trimStart in H1; [|done..].
  apply Contains_reverse in H1. rewrite <- Hrev in H1.
  by rewrite reverse_involutive in H1.
Qed.

Lemma digit_not_space c : 48 ≤ c ≤ 57 → isWhiteSpace c = false.
Proof.
  intros Hc. unfold isWhiteSpace.
  repeat (apply orb_false_intro); try (apply N.eqb_neq; lia).
  apply andb_false_iff. left. apply N.leb_gt. lia.
Qed.

Lemma trimEnd_app_solid l s :
  Forall (λ c, isWhiteSpace c = false) l → trimEnd (l ++ s) = l ++ trimEnd s.
Proof.
  induction 1 as [|c l Hc _ IH]; [done|].
  rewrite <- app_comm_cons, trimEnd_cons by done. by rewrite IH.
Qed.

Lemma StartsNumbered_trim line :
  StartsNumbered line → StartsNumbered (trim line).
Proof.
  intros (ds & rest & Hne & Hds & ->). exists ds, (trimEnd rest).
  split_and!; [done..|]. unfold trim.
  assert (Forall (λ c, isWhiteSpace c = false) ds) as Hsolid.
  { eapply Forall_impl; [done|]. apply digit_not_space. }
  destruct ds as [|d ds]; [done|]. inversion Hsolid; subst.
  rewrite <- app_comm_cons, trimStart_keep by done.
  rewrite app_comm_cons, trimEnd_app_solid by done.
  f_equal. by apply trimEnd_cons.
Qed.

End trimming.

(** ** What the line extractors return *)

Section items.
Implicit Types (content line x : jsstring).

Lemma Trimmed_no_newline line x : 10 ∉ line → Trimmed line x → 10 ∉ x.
Proof.
  intros Hline (a & b & -> & _) Hx. apply Hline.
  rewrite !elem_of_app. auto.
Qed.

Lemma collected_items (cond : jsstring → bool) (Q : jsstring → Prop)
    cap content :
  (∀ line, cond line = true → Q (trim line)) →
  ItemsOf content cap Q
    (slice0 cap (foldl (pushIf cond) [] (split 10 content))).
Proof.
  intros HQ. unfold slice0. rewrite foldl_pushIf. cbn [app]. split.
  - rewrite length_take. lia.
  - intros x Hin%subseteq_take.
    apply list_elem_of_fmap in Hin as (line & -> & Hline).
    apply list_elem_of_filter in Hline as [Hc Hline].
    destruct (split_lines content) as (_ & _ & Hnl).
    rewrite Forall_forall in Hnl.
    split_and!.
    + eapply Trimmed_no_newline; [by apply Hnl | apply trim_spec].
    + by apply HQ.
    + exists line. split; [done | apply trim_spec].
Qed.

Ltac solid :=
  split; [discriminate|];
  repeat first
    [ apply Forall_nil_2 | apply Forall_cons_2; [vm_compute; reflexivity|] ].

Lemma keyword_kept line (kws : list jsstring) :
  Forall Solid kws →
  (∃ kw, kw ∈ kws ∧ Contains line kw) →
  ∃ kw, kw ∈ kws ∧ Contains (trim line) kw.
Proof.
  intros Hkws (kw & Hin & Hc). exists kw. split; [done|].
  rewrite Forall_forall in Hkws. by apply Contains_trim; [apply Hkws|].
Qed.

Lemma three_words (a b c : jsstring) line :
  Solid a → Solid b → Solid c →
  includes line a || includes line b || includes line c = true →
  HasOneOf [a; b; c] (trim line).
Proof.
  intros Ha Hb Hc H. apply keyword_kept.
  { repeat (apply Forall_cons_2; [assumption|]). apply Forall_nil_2. }
  rewrite !orb_true_iff, !includes_spec in H.
  destruct H as [[H|H]|H]; eexists; (split; [|exact H]); set_solver.
Qed.

(** X10: what the four line extractors return is never more than their
    cap, and each item is a line of the text without the white space
    around it: it has no white space at its ends and no line break, and it
    still has the keyword, or the number and the period, it was chosen
    for. *)
Theorem extracted_items (content : jsstring) :
  ItemsOf content 5 (HasOneOf suggestionWords) (extractSuggestions content) ∧
  ItemsOf content 3 (HasOneOf approachWords) (extractApproach content) ∧
  ItemsOf content 5 (HasOneOf fixWords) (extractFixes content) ∧
  ItemsOf content 10
    (λ x, StartsNumbered x ∨ HasOneOf [lit "Phase"; lit "Week"] x)
    (extractRoadmapPhases content).
Proof.
  split_and!; apply collected_items; intros line Hline.
  - apply three_words; [solid..|done].
  - apply three_words; [solid..|done].
  - apply three_words; [solid..|done].
  - unfold phaseLine in Hline. rewrite !orb_true_iff in Hline.
    destruct Hline as [[H|H]|H].
    + left. apply StartsNumbered_trim, numbered_spec.
      by apply bool_decide_eq_true in H.
    + right. apply keyword_kept.
      { repeat (apply Forall_cons_2; [solid|]). apply Forall_nil_2. }
      exists (lit "Phase"). split; [set_solver | by apply includes_spec].
    + right. apply keyword_kept.
      { repeat (apply Forall_cons_2; [solid|]). apply Forall_nil_2. }
      exists (lit "Week"). split; [set_solver | by apply includes_spec].
Qed.

End items.

(** ** Longer replies *)

Section longer.
Implicit Types (a b : jsstring).

Lemma split_app_newline a b :
  split 10 (a ++ 10 :: b) = split 10 a ++ split 10 b.
Proof.
  induction a as [|c a IH]; [done|]. cbn [app split].
  destruct (c =? 10); [by rewrite IH|]. rewrite IH.
  pose proof (split_nonempty 10 a). by destruct (split 10 a).
Qed.

Lemma collected_prefix (cond : jsstring → bool) cap a b :
  slice0 cap (foldl (pushIf cond) [] (split 10 a))
  `prefix_of`
  slice0 cap (foldl (pushIf cond) [] (split 10 (a ++ 10 :: b))).
Proof.
  unfold slice0. rewrite split_app_newline, !foldl_pushIf. cbn [app].
  rewrite filter_app, fmap_app, take_app.
  by apply prefix_app_r.
Qed.

(** X11: text added after a line break to a reply does not change the
    items the four line extractors found in the reply: what they return
    for the reply is the beginning of what they return for the longer
    text. *)
Theorem extraction_of_longer_text (a b : jsstring) :
  extractSuggestions a `prefix_of` extractSuggestions (a ++ 10 :: b) ∧
  extractApproach a `prefix_of` extractApproach (a ++ 10 :: b) ∧
  extractFixes a `prefix_of` extractFixes (a ++ 10 :: b) ∧
  extractRoadmapPhases a `prefix_of` extractRoadmapPhases (a ++ 10 :: b).
Proof. split_and!; apply collected_prefix. Qed.

End longer.

(** ** Stripping tags twice *)

Section strip.
Implicit Types (s : jsstring).

Lemma SpanFree_tail x s : SpanFree (x :: s) → SpanFree s.
Proof.
  intros H pre t (post & E & Ht). apply (H (x :: pre) t).
  exists post. split; [by rewrite E | done].
Qed.

Lemma stripTags_of_free s : SpanFree s → stripTags s = s.
Proof.
  induction s as [|x s IH]; [done|]. intros Hfree.
  destruct (stripTags_step x s) as [(t & rest & E & Ht & _) | [-> _]].
  - destruct (Hfree [] t). by exists rest.
  - rewrite IH; [done|]. by eapply SpanFree_tail.
Qed.

Lemma SpanFree_no_close s : 62 ∉ s → SpanFree s.
Proof.
  intros Hs pre t (post & -> & inner & -> & _). apply Hs.
  rewrite !elem_of_app. right. left. right. right. by left.
Qed.

Lemma SpansDeleted_sublist s out : SpansDeleted s out → out `sublist_of` s.
Proof.
  induction 1 as [|t s out _ _ IH|x s out _ _ IH].
  - done.
  - by apply sublist_inserts_l.
  - by apply sublist_skip.
Qed.

(** X12: stripping the tags of a text that was stripped changes nothing;
    what is left of a text is a subsequence of it; and a text without an
    opening bracket, or without a closing one, is left as it is. *)
Theorem stripTags_idempotent s :
  stripTags (stripTags s) = stripTags s ∧
  stripTags s `sublist_of` s ∧
  (60 ∉ s ∨ 62 ∉ s → stripTags s = s).
Proof.
  split_and!.
  - apply stripTags_of_free, stripTags_free.
  - apply SpansDeleted_sublist, stripTags_deleted.
  - intros [H|H]; [by apply stripTags_plain|].
    by apply stripTags_of_free, SpanFree_no_close.
Qed.

End strip.

(** ** The duration pattern *)

Section duration.
Implicit Types (s m w t : jsstring) (k : Continuation).

Lemma Unit_classes w :
  Unit_ w ↔ ∃ cs, cs ∈ units ∧ Forall2 InClass cs w.
Proof.
  unfold Unit_, units, word_ci. rewrite <- !SameLetters_ci. split.
  - intros [H|[H|H]]; eexists; (split; [|exact H]); set_solver.
  - intros (cs & Hin & H).
    apply elem_of_cons in Hin as [-> | Hin]; [by left|].
    apply elem_of_cons in Hin as [-> | Hin]; [by right; left|].
    apply elem_of_cons in Hin as [-> | Hin]; [by right; right|].
    by apply elem_of_nil in Hin.
Qed.

Lemma Matches_duration m : Matches (atoms durationRe) m ↔ DurationPhrase m.
Proof.
  unfold durationRe, DurationPhrase. cbn [atoms Matches]. split.
  - intros (x & a & ? & -> & Hx%InClass_digit & Ha & sp & ? & -> & Hsp
            & cs & w & o & Hcs & Hw & -> & Ho).
    exists (x :: a), sp, w, o. split_and!; try done.
    + constructor; [done|]. eapply Forall_impl; [done|].
      intros ?. apply InClass_digit.
    + apply Unit_classes. by exists cs.
    + destruct Ho as [-> | (y & ? & -> & Hy%InClass_ci & ->)]; [by left|].
      right. destruct Hy as [-> | ->]; auto.
  - intros (ds & sp & w & o & -> & Hne & Hds & Hsp & Hw & Ho).
    destruct ds as [|x a]; [done|]. inversion Hds as [|? ? Hx Ha]; subst.
    apply Unit_classes in Hw as (cs & Hcs & Hw).
    exists x, a, (sp ++ w ++ o). split_and!; [done|by apply InClass_digit| |].
    { eapply Forall_impl; [done|]. intros ?. apply InClass_digit. }
    exists sp, (w ++ o). split_and!; [done..|].
    exists cs, w, o. split_and!; [done..|].
    destruct Ho as [-> | [-> | ->]]; [by left | right | right];
      eexists _, []; (split_and!; [done | | done]); by apply InClass_ci; auto.
Qed.

(** A greedy star that can take a whole run, and is followed by something
    its class does not have, takes the run when the rest matches. *)
Lemma greedy_star_run c k (a t : jsstring) n :
  Forall (InClass c) a →
  (∀ x t', t = x :: t' → c x = false) →
  k t = Some n →
  greedy_star c k (a ++ t) = Some (length a + n)%nat.
Proof.
  intros Ha Ht Hk. induction Ha as [|y a Hy _ IH].
  - destruct t as [|x t']; [done|]. simpl. by rewrite (Ht x t').
  - simpl. by rewrite Hy, IH.
Qed.

Lemma opt_s t :
  match_here [Opt (ci 115)] t
  = Some (match t with
          | x :: _ => if ci 115 x then 1 else 0
          | [] => 0
          end)%nat.
Proof. destruct t as [|x t]; [done|]. simpl. by destruct (ci 115 x). Qed.

Lemma seq_here_word (cs : list cclass) k w t n :
  Forall2 InClass cs w → k t = Some n →
  seq_here cs k (w ++ t) = Some (length w + n)%nat.
Proof. intros Hw Hk. apply seq_here_spec. by exists w, t, n. Qed.

Lemma seq_here_other_word (kw : jsstring) (l0 : N) (kw' : jsstring) k x w t :
  kw = l0 :: kw' → ci l0 x = false →
  seq_here (ci <$> kw) k ((x :: w) ++ t) = None.
Proof. intros -> Hx. simpl. by rewrite Hx. Qed.

Lemma SameLetters_head w (l0 : N) (kw : jsstring) :
  SameLetters w (l0 :: kw) →
  ∃ x w', w = x :: w' ∧ (x = l0 ∨ x = l0 - 32).
Proof. intros H. inversion H; subst. eauto. Qed.

Lemma unit_here w t :
  Unit_ w →
  alt_here units (match_here [Opt (ci 115)]) (w ++ t)
  = Some (length w + plural t)%nat ∧
  ∃ x w', w = x :: w' ∧ isWhiteSpace x = false ∧ digit x = false.
Proof.
  pose proof (opt_s t) as Hopt. fold (plural t) in Hopt.
  intros [Hw | [Hw | Hw]];
    destruct (SameLetters_head _ _ _ Hw) as (x & w' & -> & Hx);
    apply SameLetters_ci in Hw;
    (split; [|exists x, w'; destruct Hx as [-> | ->]; by vm_compute]);
    unfold units, word_ci; cbn [alt_here].
  - by rewrite (seq_here_word _ _ _ _ _ Hw Hopt).
  - rewrite (seq_here_other_word (lit "week") 119 (lit "eek") _ x _ _ eq_refl)
      by (destruct Hx as [-> | ->]; by vm_compute).
    by rewrite (seq_here_word _ _ _ _ _ Hw Hopt).
  - rewrite (seq_here_other_word (lit "week") 119 (lit "eek") _ x _ _ eq_refl)
      by (destruct Hx as [-> | ->]; by vm_compute).
    rewrite (seq_here_other_word (lit "month") 109 (lit "onth") _ x _ _ eq_refl)
      by (destruct Hx as [-> | ->]; by vm_compute).
    by rewrite (seq_here_word _ _ _ _ _ Hw Hopt).
Qed.

Lemma space_not_digit y : isWhiteSpace y = true → digit y = false.
Proof.
  intros Hy. destruct (digit y) eqn:Hd; [|done].
  apply InClass_digit, digit_not_space in Hd. congruence.
Qed.

Lemma duration_here (ds sp w t : jsstring) :
  ds ≠ [] → Forall (λ x, 48 ≤ x ≤ 57) ds →
  Forall (InClass isWhiteSpace) sp → Unit_ w →
  match_here (atoms durationRe) (ds ++ sp ++ w ++ t)
  = Some (length ds + (length sp + (length w + plural t)))%nat.
Proof.
  intros Hne Hds Hsp Hw.
  destruct (unit_here w t Hw) as (Halt & x & w' & -> & Hxs & Hxd).
  destruct ds as [|d ds0]; [done|]. inversion Hds as [|? ? Hd Hds0]; subst.
  unfold durationRe. cbn [atoms match_here]. apply seq_here_one.
  eexists d, _, _. split_and!; [done | by apply InClass_digit | | done].
  apply greedy_star_run.
  - eapply Forall_impl; [done|]. intros ?. apply InClass_digit.
  - intros y t' E. destruct sp as [|z sp]; simpl in E; injection E as <- _.
    + done.
    + inversion Hsp; subst. by apply space_not_digit.
  - apply greedy_star_run; [done| |done].
    intros y t' E. by injection E as <- _.
Qed.

(** A match of the pattern is as long as any duration phrase that starts
    at the same place. *)
Lemma duration_longest s n m' post' :
  match_here (atoms durationRe) s = Some n →
  s = m' ++ post' → DurationPhrase m' → (length m' ≤ n)%nat.
Proof.
  intros Hn -> (ds & sp & w & o & -> & Hne & Hds & Hsp & Hw & Ho).
  rewrite <- !app_assoc in Hn.
  rewrite (duration_here ds sp w (o ++ post') Hne Hds Hsp Hw) in Hn.
  injection Hn as <-. rewrite !length_app.
  destruct Ho as [-> | [-> | ->]]; simpl; lia.
Qed.

End duration.

(** X13: the duration of a roadmap is the first duration phrase of the
    text (a decimal number, white space or none, week, month or day in any
    case, and an s when one follows), the longest one at its place; it is
    the word Variable exactly when the text has no duration phrase. *)
Theorem extractDuration_first_phrase (content : jsstring) :
  ((∃ pre m, Occurs DurationPhrase content pre m) →
   FirstLongest DurationPhrase content (extractDuration content)) ∧
  ((∀ pre m, ¬ Occurs DurationPhrase content pre m) ↔
   extractDuration content = lit "Variable").
Proof.
  unfold extractDuration.
  destruct (match_ content durationRe) as [m|] eqn:Hm.
  - apply match_unanchored_Some in Hm as (i & n & Hs & ->); [|done].
    assert (FirstLongest DurationPhrase content (take n (drop i content)))
      as Hfirst.
    { exists (take i content). split.
      - eapply Leftmost_ext; [apply Matches_duration|].
        by apply search_leftmost.
      - intros m' (post' & E & Hm').
        apply search_Some in Hs as (Hi & Hn & _).
        assert (drop i content = m' ++ post') as Hd.
        { rewrite E at 1. rewrite drop_app_length'; [done|].
          by rewrite length_take_le. }
        pose proof (duration_longest _ _ _ _ Hn Hd Hm') as Hle.
        destruct (match_here_implements (atoms durationRe)) as [Hsound _].
        destruct (Hsound _ _ Hn) as (m & rest & Em & Hlen & _).
        rewrite Em, take_app_length' by done. lia. }
    split; [done|]. split.
    + intros Hno. destruct Hfirst as (pre & [Hocc _] & _).
      by apply Hno in Hocc.
    + intros Hv. destruct Hfirst as (pre & [(post & _ & Hocc) _] & _).
      rewrite Hv in Hocc.
      destruct Hocc as (ds & sp & w & o & E & Hne & Hds & _).
      destruct ds as [|d ds]; [done|]. injection E as <- _.
      inversion Hds as [|? ? Hd _]. lia.
  - apply match_unanchored_None in Hm; [|done]. split.
    + intros (pre & m & post & E & Hocc%Matches_duration).
      destruct (search_None_occurs _ _ pre m Hm). by exists post.
    + split; [done|]. intros _ pre m (post & E & Hocc%Matches_duration).
      apply (search_None_occurs _ _ pre m Hm). by exists post.
Qed.

Lemma extractDuration_first_phrase_witness :
  FirstLongest DurationPhrase (lit "about 6 weeks or 2 months")
    (lit "6 weeks").
Proof.
  apply (extractDuration_first_phrase (lit "about 6 weeks or 2 months")).
  exists (lit "about "), (lit "6 weeks"), (lit " or 2 months").
  split; [reflexivity|].
  exists [54], [32], (lit "week"), [115].
  split_and!; [reflexivity | done | repeat constructor; lia
              | repeat constructor | | auto].
  left. repeat constructor; by left.
Defined.

(** ** The newest interaction *)

Section newest.
Variables (env : Env) (userId : ObjectId).

Ltac wrote_newest :=
  unfold WroteNewest; intros resp w'; run;
  cbn [problems users interactions log];
  repeat case_match; simplify_eq;
  repeat match goal with
    | H : callOpenAI _ _ _ = _ |- _ => apply callOpenAI_world in H; subst
    end;
  intros [= <- <-]; cbn [status]; intros Hok; try discriminate;
  eexists _, _, _; split_and!; [|reflexivity..];
  match goal with
  | |- interactions ?w0 !! _ = None => exact (fresh_interaction w0)
  end.

Lemma post_code_review_newest cr w :
  WroteNewest env userId w (post_code_review env userId cr w).
Proof. wrote_newest. Qed.

Lemma post_roadmap_newest rm w :
  WroteNewest env userId w (post_roadmap env userId rm w).
Proof. wrote_newest. Qed.

Lemma post_hint_newest h w :
  WroteNewest env userId w (post_hint env userId h w).
Proof. wrote_newest. Qed.

Lemma post_debug_newest d w :
  WroteNewest env userId w (post_debug env userId d w).
Proof. wrote_newest. Qed.

Lemma newest_is_head (l : list AIInteraction) (n : AIInteraction) :
  n ∈ l →
  (∀ x, x ∈ l → createdAt n ≤ createdAt x → x = n) →
  head (merge_sort newerFirst l) = Some n.
Proof.
  intros Hn Hnewest.
  pose proof (merge_sort_Permutation newerFirst l) as Hperm.
  pose proof (StronglySorted_merge_sort newerFirst l) as Hsorted.
  destruct (merge_sort newerFirst l) as [|h tl].
  { rewrite <- Hperm in Hn. by apply elem_of_nil in Hn. }
  simpl. f_equal. apply Hnewest.
  - rewrite <- Hperm. by left.
  - rewrite <- Hperm in Hn. apply elem_of_cons in Hn as [-> | Hn]; [done|].
    inversion Hsorted as [|? ? _ Hall]; subst.
    rewrite Forall_forall in Hall. by apply Hall.
Qed.

Lemma selected_insert_fresh owner ty id i w w' :
  interactions w !! id = None →
  interactions w' = <[id := i]> (interactions w) →
  matchesQuery owner ty i = true →
  selected owner ty w' ≡ₚ i :: selected owner ty w.
Proof.
  intros Hfresh Hw' Hi. unfold selected. rewrite Hw'.
  rewrite (map_to_list_insert _ _ _ Hfresh). cbn [fmap list_fmap snd].
  rewrite filter_cons. by rewrite decide_True by done.
Qed.

Lemma selected_stored owner ty w x :
  x ∈ selected owner ty w → ∃ id, interactions w !! id = Some x.
Proof.
  unfold selected. intros [_ Hx]%list_elem_of_filter.
  apply list_elem_of_fmap in Hx as ([id y] & -> & Hx).
  exists id. by apply elem_of_map_to_list.
Qed.

Lemma newestOf_head limit w :
  newestOf userId limit w
  = head (merge_sort newerFirst (selected userId None w)).
Proof.
  unfold newestOf. rewrite get_history_items. cbn [falsy].
  rewrite <- list_fmap_compose, list_fmap_id, drop_0.
  destruct (merge_sort newerFirst (selected userId None w)) as [|x l];
    [by rewrite take_nil|].
  destruct (Pos.to_nat limit) eqn:Hl; [lia | done].
Qed.

Lemma wrote_heads (limit : positive) w r :
  WellDated w → (∀ p, 0 < latency env p) →
  WroteNewest env userId w r →
  ∀ resp w', r = (Return resp, w') → status resp = 200%nat →
    WellDated w' ∧
    ∃ i, newestOf userId limit w' = Some i ∧ user i = userId ∧
         createdAt i = now w' ∧ ∀ id, interactions w !! id ≠ Some i.
Proof.
  intros Hdated Hlat Hwrote resp w' Hr Hok.
  destruct (Hwrote resp w' Hr Hok)
    as (id & i & prompt & Hfresh & Hw' & _ & Hu & Hc & Hnow).
  specialize (Hlat prompt). split.
  - intros id' j. rewrite Hw', Hnow. destruct (decide (id = id')) as [<-|Hne].
    + rewrite lookup_insert_eq. intros [= <-]. lia.
    + rewrite lookup_insert_ne by done. intros Hj%Hdated. lia.
  - exists i. split_and!; [|done|lia|].
    + rewrite newestOf_head.
      assert (matchesQuery userId None i = true) as Hmatch.
      { unfold matchesQuery. rewrite Hu, N.eqb_refl. done. }
      pose proof (selected_insert_fresh userId None id i w w' Hfresh Hw' Hmatch)
        as Hperm.
      apply newest_is_head.
      * rewrite Hperm. by left.
      * intros x Hx Hle. rewrite Hperm in Hx.
        apply elem_of_cons in Hx as [-> | Hx]; [done|].
        apply selected_stored in Hx as (id' & Hx%Hdated). lia.
    + intros id' Hi%Hdated. lia.
Qed.

End newest.

(** X14: in a world where no interaction is dated after the clock and
    every completion call takes time, a generation request that answers
    200 leaves such a world again, and the interaction it wrote is the one
    the first page of the caller's history starts with. *)
Theorem new_interaction_heads_history (env : Env) (userId : ObjectId)
    (cr : CodeReviewBody) (rm : RoadmapBody) (h : HintBody) (d : DebugBody)
    (limit : positive) (w : World) :
  WellDated w → (∀ p, 0 < latency env p) →
  let heads (r : Outcome Response * World) :=
    ∀ resp w', r = (Return resp, w') → status resp = 200%nat →
      WellDated w' ∧
      ∃ i, newestOf userId limit w' = Some i ∧ user i = userId ∧
           createdAt i = now w' ∧ ∀ id, interactions w !! id ≠ Some i in
  heads (post_code_review env userId cr w) ∧
  heads (post_roadmap env userId rm w) ∧
  heads (post_hint env userId h w) ∧
  heads (post_debug env userId d w).
Proof.
  intros Hdated Hlat heads. unfold heads. split_and!.
  - exact (wrote_heads env userId limit w _ Hdated Hlat
             (post_code_review_newest env userId cr w)).
  - exact (wrote_heads env userId limit w _ Hdated Hlat
             (post_roadmap_newest env userId rm w)).
  - exact (wrote_heads env userId limit w _ Hdated Hlat
             (post_hint_newest env userId h w)).
  - exact (wrote_heads env userId limit w _ Hdated Hlat
             (post_debug_newest env userId d w)).
Qed.

Lemma new_interaction_heads_history_witness :
  ∃ i, newestOf 1 20 (post_code_review mentor 1 reviewRequest hintedWorld).2
       = Some i ∧
       createdAt i = 2120 ∧ response i = lit "consider a hash map".
Proof.
  assert (WellDated hintedWorld) as Hdated.
  { intros id i. unfold hintedWorld. cbn [interactions].
    intros [<- <-]%lookup_singleton_Some. vm_compute. discriminate. }
  assert (∀ p, 0 < latency mentor p) as Hlat by (intros p; reflexivity).
  destruct (new_interaction_heads_history mentor 1 reviewRequest
              {| rm_goals := None; rm_currentLevel := None;
                 rm_timeCommitment := None; rm_preferredTopics := None |}
              {| h_problemId := None; h_currentCode := None;
                 h_language := None |}
              {| d_code := None; d_language := None; d_error := None;
                 d_problemId := None |} 20 hintedWorld Hdated Hlat)
    as [H _].
  destruct (H _ _ (surjective_pairing _) eq_refl) as (_ & i & Hi & _).
  assert (newestOf 1 20 (post_code_review mentor 1 reviewRequest hintedWorld).2
          = Some (recordOf mentor 1 (lit "code_review")
                    {| ctx_problem := Some 7; ctx_code := Some (lit "return 1");
                       ctx_language := Some (lit "js"); ctx_error := None;
                       ctx_userLevel := None; ctx_goals := None |}
                    (lit "Code review request")
                    (codeReviewPrompt (Some (lit "js")) (Some (lit "return 1"))
                       twoSum) (lit "consider a hash map")
                    {| choices := [lit "consider a hash map"]; usage := None |}
                    hintedWorld)) as Hc by (vm_compute; reflexivity).
  rewrite Hc in Hi. injection Hi as <-. eexists. split; [exact Hc|].
  split; reflexivity.
Defined.
